(** * Streakwiz (PostgreSQL version): the database layer

    A shallow embedding of the model definitions ([GuildConfig], [Streak]),
    the [beforeSave] hook, the start-up migration ([migrateDatabase],
    [initializeDatabase] and their helpers) and [withRetry], followed by the
    properties of the specification that concern them. *)

From Stdlib Require Import ZArith List String Ascii QArith Lia Bool DecimalString.
From stdpp Require Import gmap strings list.

Local Open Scope string_scope.
Local Open Scope list_scope.

(** ** JavaScript strings and values *)

(** Strings are sequences of code units below 256 (the Latin-1 range), which
    is what [ascii] holds. *)
Module Js.

(** The white space that [String.prototype.trim] removes, within the range:
    TAB, LF, VT, FF, CR, SPACE and NO-BREAK SPACE. *)
Definition is_whitespace (c : ascii) : bool :=
  let n := nat_of_ascii c in
  ((9 <=? n)%nat && (n <=? 13)%nat) || (n =? 32)%nat || (n =? 160)%nat.

(** Upper-case letters of the range: A-Z, and the accented capitals
    U+00C0-U+00DE without the multiplication sign U+00D7. *)
Definition is_upper (c : ascii) : bool :=
  let n := nat_of_ascii c in
  ((65 <=? n)%nat && (n <=? 90)%nat)
  || ((192 <=? n)%nat && (n <=? 222)%nat && negb (n =? 215)%nat).

Definition lower_char (c : ascii) : ascii :=
  if is_upper c then ascii_of_nat (nat_of_ascii c + 32) else c.

(** [s.toLowerCase()] *)
Fixpoint toLowerCase (s : string) : string :=
  match s with
  | EmptyString => EmptyString
  | String c r => String (lower_char c) (toLowerCase r)
  end.

Fixpoint trimStart (s : string) : string :=
  match s with
  | EmptyString => EmptyString
  | String c r => if is_whitespace c then trimStart r else s
  end.

Fixpoint trimEnd (s : string) : string :=
  match s with
  | EmptyString => EmptyString
  | String c r =>
      match trimEnd r with
      | EmptyString => if is_whitespace c then EmptyString else String c EmptyString
      | r' => String c r'
      end
  end.

(** [s.trim()] *)
Definition trim (s : string) : string := trimEnd (trimStart s).

(** The values a setter can be handed. *)
#[warnings="-register-all"]
Inductive value : Type :=
| Undefined
| Null
| Boolean (b : bool)
| Number (n : Z)
| Str (s : string)
| Array (items : list value)
| Object.

(** [typeof v] *)
Definition typeof (v : value) : string :=
  match v with
  | Undefined => "undefined"
  | Null => "object"
  | Boolean _ => "boolean"
  | Number _ => "number"
  | Str _ => "string"
  | Array _ => "object"
  | Object => "object"
  end.

(** Truthiness, as [!v] and [v && ...] use it. *)
Definition truthy (v : value) : bool :=
  match v with
  | Undefined | Null => false
  | Boolean b => b
  | Number n => negb (n =? 0)%Z
  | Str s => negb (s =? "")
  | Array _ | Object => true
  end.

(** The characters of a string value; the callers below reach it after a
    [typeof v === 'string'] test only. *)
Definition chars (v : value) : string :=
  match v with Str s => s | _ => "" end.

End Js.

(** What a [throw] carries: an error object with its [name] and [message],
    or [undefined]. *)
Inductive thrown : Type :=
| ThrownUndefined
| Error (name message : string).

Inductive outcome (A : Type) : Type :=
| Ret (a : A)
| Throw (e : thrown).
Arguments Ret {A} a.
Arguments Throw {A} e.

(** [error.name]: an error object has a name; reading a property of
    [undefined] throws a TypeError. *)
Definition error_name (e : thrown) : outcome string :=
  match e with
  | Error n _ => Ret n
  | ThrownUndefined =>
      Throw (Error "TypeError" "Cannot read properties of undefined (reading 'name')")
  end.

(** ** Models *)

(** The model definitions are those of the source; instances, [changed],
    [build] and [save] follow the ORM's instance interface as far as the hook
    and the properties need it. *)

(** Values of a column, as a row or an instance's [dataValues] holds them.
    A timestamp comes back from a query as a Date object; [SqlDate] carries
    the text that [String(date)] gives for it. *)
Inductive sql_value : Type :=
| SqlNull
| SqlInt (z : Z)
| SqlBool (b : bool)
| SqlText (s : string)
| SqlArray (items : list string)
| SqlDate (text : string).

#[global] Instance sql_value_eq_dec : EqDecision sql_value.
Proof. solve_decision. Defined.

Inductive data_type : Type :=
| STRING | INTEGER | BOOLEAN | DATEONLY | DATE | ARRAY (t : data_type).

Inductive default_value : Type :=
| NoDefault
| Default (v : sql_value)
| NOW.

(** The options of an attribute in [sequelize.define]; an option the
    definition leaves out has the library's default ([allowNull] true, the
    others false or none). *)
Record attribute : Type := {
  type : data_type;
  primaryKey : bool;
  autoIncrement : bool;
  allowNull : bool;
  defaultValue : default_value;
  unique : bool
}.

(** A model: its attributes and the unique indexes of the options argument
    of [sequelize.define]. *)
Record model : Type := {
  modelName : string;
  attributes : list (string * attribute);
  indexes : list (list string)
}.

(** ** The GuildConfig model *)

Module GuildConfig.

Definition definition : model := {|
  modelName := "GuildConfig";
  attributes := [
    ("guildId", {| type := STRING; primaryKey := true; autoIncrement := false;
                   allowNull := false; defaultValue := NoDefault; unique := false |});
    ("triggerWords", {| type := ARRAY STRING; primaryKey := false; autoIncrement := false;
                        allowNull := false; defaultValue := Default (SqlArray []);
                        unique := false |});
    ("streakLimit", {| type := INTEGER; primaryKey := false; autoIncrement := false;
                       allowNull := false; defaultValue := Default (SqlInt 0);
                       unique := false |});
    ("streakStreakEnabled", {| type := BOOLEAN; primaryKey := false; autoIncrement := false;
                               allowNull := false; defaultValue := Default (SqlBool true);
                               unique := false |})
  ];
  indexes := []
|}.

(** The [set(value)] accessor of [triggerWords]: what [setDataValue]
    receives. *)
Definition set_triggerWords (value : Js.value) : list string :=
  match value with
  | Js.Array items =>
      let kept :=
        List.filter (fun word => Js.truthy word && (Js.typeof word =? "string")) items in
      let lowered := List.map (fun word => Js.trim (Js.toLowerCase (Js.chars word))) kept in
      List.filter (fun word => (0 <? String.length word)%nat) lowered
  | _ => []
  end.

(** The [get()] accessor, over the stored data value. *)
Definition get_triggerWords (words : Js.value) : list Js.value :=
  match words with
  | Js.Array items =>
      List.filter (fun word => Js.truthy word && (Js.typeof word =? "string")) items
  | _ => []
  end.

End GuildConfig.

(** ** The Streak model *)

Module Streak.

Definition definition : model := {|
  modelName := "Streak";
  attributes := [
    ("id", {| type := INTEGER; primaryKey := true; autoIncrement := true;
              allowNull := true; defaultValue := NoDefault; unique := false |});
    ("guildId", {| type := STRING; primaryKey := false; autoIncrement := false;
                   allowNull := false; defaultValue := NoDefault; unique := false |});
    ("userId", {| type := STRING; primaryKey := false; autoIncrement := false;
                  allowNull := false; defaultValue := NoDefault; unique := false |});
    ("triggerWord", {| type := STRING; primaryKey := false; autoIncrement := false;
                       allowNull := false; defaultValue := NoDefault; unique := false |});
    ("count", {| type := INTEGER; primaryKey := false; autoIncrement := false;
                 allowNull := false; defaultValue := Default (SqlInt 1); unique := false |});
    ("bestStreak", {| type := INTEGER; primaryKey := false; autoIncrement := false;
                      allowNull := false; defaultValue := Default (SqlInt 1);
                      unique := false |});
    ("streakStreak", {| type := INTEGER; primaryKey := false; autoIncrement := false;
                        allowNull := false; defaultValue := Default (SqlInt 0);
                        unique := false |});
    ("lastStreakDate", {| type := DATEONLY; primaryKey := false; autoIncrement := false;
                          allowNull := true; defaultValue := NoDefault; unique := false |});
    ("lastUpdated", {| type := DATE; primaryKey := false; autoIncrement := false;
                       allowNull := false; defaultValue := NOW; unique := false |})
  ];
  indexes := []
|}.

(** The [set(value)] accessor of [triggerWord]. *)
Definition set_triggerWord (value : Js.value) : outcome string :=
  if negb (Js.truthy value) || negb (Js.typeof value =? "string") then
    Throw (Error "Error" "Trigger word must be a non-empty string")
  else
    Ret (Js.trim (Js.toLowerCase (Js.chars value))).

(** The data values of an instance.  [id] is absent until the row is
    inserted; [lastStreakDate] is the only nullable attribute. *)
Record values : Type := {
  id : option Z;
  guildId : string;
  userId : string;
  triggerWord : string;
  count : Z;
  bestStreak : Z;
  streakStreak : Z;
  lastStreakDate : option string;
  lastUpdated : Z
}.

(** [getDataValue(key)] *)
Definition getDataValue (v : values) (key : string) : option sql_value :=
  if key =? "id" then SqlInt <$> id v
  else if key =? "guildId" then Some (SqlText (guildId v))
  else if key =? "userId" then Some (SqlText (userId v))
  else if key =? "triggerWord" then Some (SqlText (triggerWord v))
  else if key =? "count" then Some (SqlInt (count v))
  else if key =? "bestStreak" then Some (SqlInt (bestStreak v))
  else if key =? "streakStreak" then Some (SqlInt (streakStreak v))
  else if key =? "lastStreakDate" then SqlText <$> lastStreakDate v
  else if key =? "lastUpdated" then Some (SqlInt (lastUpdated v))
  else None.

(** An instance: its data values, the keys set since it was built, loaded or
    last saved, which [changed(key)] reports, and whether its row is still
    to be inserted. *)
Record instance : Type := {
  dataValues : values;
  _changed : list string;
  isNewRecord : bool
}.

Definition changed (streak : instance) (key : string) : bool :=
  existsb (String.eqb key) (_changed streak).

(** Setting a plain attribute marks it changed unless the value is the one
    it has. *)
Definition mark (streak : instance) (key : string) (same : bool) : list string :=
  if same then _changed streak else key :: _changed streak.

(** [streak.count = n] *)
Definition set_count (streak : instance) (n : Z) : instance :=
  let v := dataValues streak in
  {| dataValues := {| id := id v; guildId := guildId v; userId := userId v;
                      triggerWord := triggerWord v; count := n;
                      bestStreak := bestStreak v; streakStreak := streakStreak v;
                      lastStreakDate := lastStreakDate v; lastUpdated := lastUpdated v |};
     _changed := mark streak "count" (n =? count v)%Z;
     isNewRecord := isNewRecord streak |}.

(** [streak.bestStreak = n] *)
Definition set_bestStreak (streak : instance) (n : Z) : instance :=
  let v := dataValues streak in
  {| dataValues := {| id := id v; guildId := guildId v; userId := userId v;
                      triggerWord := triggerWord v; count := count v;
                      bestStreak := n; streakStreak := streakStreak v;
                      lastStreakDate := lastStreakDate v; lastUpdated := lastUpdated v |};
     _changed := mark streak "bestStreak" (n =? bestStreak v)%Z;
     isNewRecord := isNewRecord streak |}.

Definition set_id (v : values) (n : Z) : values :=
  {| id := Some n; guildId := guildId v; userId := userId v;
     triggerWord := triggerWord v; count := count v;
     bestStreak := bestStreak v; streakStreak := streakStreak v;
     lastStreakDate := lastStreakDate v; lastUpdated := lastUpdated v |}.

(** The [beforeSave] hook. *)
Definition beforeSave (streak : instance) : instance :=
  if changed streak "count" && (count (dataValues streak) >? bestStreak (dataValues streak))%Z
  then set_bestStreak streak (count (dataValues streak))
  else streak.

(** The default of an INTEGER attribute of the definition. *)
Definition integer_default (key : string) : option Z :=
  match List.find (fun a => fst a =? key) (attributes definition) with
  | Some (_, a) =>
      match defaultValue a with Default (SqlInt z) => Some z | _ => None end
  | None => None
  end.

(** The explicit values a caller of [build] or [create] may pass besides the
    key; what is left out takes the attribute's default. *)
Record given : Type := {
  given_count : option Z;
  given_bestStreak : option Z;
  given_streakStreak : option Z;
  given_lastStreakDate : option string
}.

Definition nothing_given : given :=
  {| given_count := None; given_bestStreak := None;
     given_streakStreak := None; given_lastStreakDate := None |}.

(** The keys among [count], [bestStreak], [streakStreak], [lastStreakDate]
    that were passed. *)
Definition passed {A} (key : string) (o : option A) : list string :=
  match o with Some _ => [key] | None => [] end.

Definition given_keys (extra : given) : list string :=
  passed "count" (given_count extra)
  ++ passed "bestStreak" (given_bestStreak extra)
  ++ passed "streakStreak" (given_streakStreak extra)
  ++ passed "lastStreakDate" (given_lastStreakDate extra).

(** [Streak.build({ guildId, userId, triggerWord, ... })] at time [now]: an
    attribute that is not passed takes its default and does not count as
    changed; the values passed are set, [triggerWord] through its accessor,
    and count as changed. *)
Definition build (now : Z) (g u : string) (word : Js.value) (extra : given)
  : outcome instance :=
  match set_triggerWord word with
  | Throw e => Throw e
  | Ret w =>
      Ret {| dataValues := {|
               id := None; guildId := g; userId := u; triggerWord := w;
               count := default (default 0%Z (integer_default "count"))
                          (given_count extra);
               bestStreak := default (default 0%Z (integer_default "bestStreak"))
                               (given_bestStreak extra);
               streakStreak := default (default 0%Z (integer_default "streakStreak"))
                                 (given_streakStreak extra);
               lastStreakDate := given_lastStreakDate extra;
               lastUpdated := now |};
             _changed := ["guildId"; "userId"; "triggerWord"] ++ given_keys extra;
             isNewRecord := true |}
  end.

(** *** The persisted table *)

(** The column sets the table keeps unique: the primary key, every attribute
    declared [unique], every unique index. *)
Definition unique_keys (m : model) : list (list string) :=
  [List.map fst (List.filter (fun a => primaryKey (snd a)) (attributes m))]
  ++ List.map (fun a => [fst a]) (List.filter (fun a => unique (snd a)) (attributes m))
  ++ indexes m.

Definition key_of (cols : list string) (v : values) : list (option sql_value) :=
  List.map (getDataValue v) cols.

(** Does [v] collide with a row of the table on one of the unique keys? *)
Definition violates (rows : list values) (v : values) : bool :=
  existsb (fun cols =>
    existsb (fun r => bool_decide (key_of cols r = key_of cols v)) rows)
    (unique_keys definition).

(** The next value of the [id] sequence. *)
Definition next_id (rows : list values) : Z :=
  1 + List.fold_right (fun r m => Z.max (default 0%Z (id r)) m) 0%Z rows.

(** INSERT: the server assigns [id] when the instance has none, and rejects
    the row when it breaks a uniqueness constraint. *)
Definition insert (rows : list values) (v : values) : option (list values * values) :=
  let v' := match id v with Some _ => v | None => set_id v (next_id rows) end in
  if violates rows v' then None else Some (rows ++ [v'], v').

(** What UPDATE ... SET writes into the row [r] for the instance [streak]:
    the instance's value for every attribute that counts as changed, the
    row's own value for the others; [id] is the key of the WHERE clause and
    is not written. *)
Definition written (streak : instance) (r : values) : values :=
  let v := dataValues streak in
  let pick {A : Type} (key : string) (get : values -> A) : A :=
    if changed streak key then get v else get r in
  {| id := id r;
     guildId := pick "guildId" guildId;
     userId := pick "userId" userId;
     triggerWord := pick "triggerWord" triggerWord;
     count := pick "count" count;
     bestStreak := pick "bestStreak" bestStreak;
     streakStreak := pick "streakStreak" streakStreak;
     lastStreakDate := pick "lastStreakDate" lastStreakDate;
     lastUpdated := pick "lastUpdated" lastUpdated |}.

(** UPDATE ... SET the changed attributes WHERE id = the instance's [id]. *)
Definition update (rows : list values) (streak : instance) : list values :=
  List.map (fun r => if bool_decide (id r = id (dataValues streak))
                     then written streak r else r) rows.

(** [streak.save()]: the hook runs, then a new instance is inserted with all
    its values and an existing one updated in the attributes that count as
    changed, those the hook has set among them; the instance keeps the
    values it holds and nothing counts as changed afterwards. *)
Definition save (rows : list values) (streak : instance)
  : option (list values * instance) :=
  let s := beforeSave streak in
  if isNewRecord s then
    match insert rows (dataValues s) with
    | Some (rows', v') =>
        Some (rows', {| dataValues := v'; _changed := []; isNewRecord := false |})
    | None => None
    end
  else
    Some (update rows s,
          {| dataValues := dataValues s; _changed := []; isNewRecord := false |}).

(** [Streak.create({ guildId, userId, triggerWord, ... })] *)
Definition create (now : Z) (rows : list values) (g u : string) (word : Js.value)
  (extra : given) : outcome (option (list values * instance)) :=
  match build now g u word extra with
  | Throw e => Throw e
  | Ret s => Ret (save rows s)
  end.

(** An instance as [findOne] hands it out. *)
Definition loaded (v : values) : instance :=
  {| dataValues := v; _changed := []; isNewRecord := false |}.

End Streak.

(** ** The database, and a monad for the code that talks to it *)

(** A table has named columns and rows that map column names to values. *)
Record table : Type := {
  columns : list string;
  rows : list (gmap string sql_value)
}.

(** The one transaction object of a migration run.  Statements passed
    [{ transaction }] act on the transaction's view of the database; the
    view replaces the committed state on COMMIT and is dropped on ROLLBACK.
    Once [commit()] or [rollback()] has been called the object is finished,
    whether or not the server accepted the request. *)
Inductive transaction_state : Type :=
| NoTransaction
| Open (view : gmap string table)
| Finished.

(** What a run leaves behind for an observer: console lines and the
    statements the server carried out. *)
Inductive event : Type :=
| Console (line : string)
| Began
| Committed
| RolledBack
| AddedColumn (tableName columnName : string)
| UpdatedBestStreak
| DeletedFrom (tableName : string)
| InsertedInto (tableName : string)
| CreatedTable (tableName : string).

(** The world: the committed database, the transaction, the trace, and the
    script of the server's answers to the requests still to come, where
    [Some e] makes the next request fail with [e] (a lost connection, a
    statement the server refuses) and [None], or the end of the script, lets
    it through.  [server] is what the server makes of a statement whose text
    the program has put together from stored data and that does not read as
    the statement the program meant: the database it leaves, or [None] for
    an error. *)
Record world : Type := {
  committed : gmap string table;
  transaction : transaction_state;
  faults : list (option thrown);
  trace : list event;
  server : string -> gmap string table -> option (gmap string table)
}.

Definition M (A : Type) : Type := world -> outcome A * world.

Definition ret {A} (a : A) : M A := fun w => (Ret a, w).

Definition bind {A B} (m : M A) (f : A -> M B) : M B :=
  fun w =>
    match m w with
    | (Ret a, w') => f a w'
    | (Throw e, w') => (Throw e, w')
    end.

Definition throw {A} (e : thrown) : M A := fun w => (Throw e, w).

(** [try { m } catch (error) { handler error }] *)
Definition try_catch {A} (m : M A) (handler : thrown -> M A) : M A :=
  fun w =>
    match m w with
    | (Ret a, w') => (Ret a, w')
    | (Throw e, w') => handler e w'
    end.

Declare Scope db_scope.
Delimit Scope db_scope with db.
Notation "x <- m ;; k" := (bind m (fun x => k))
  (at level 100, m at next level, k at level 200, right associativity) : db_scope.
Notation "m ;; k" := (bind m (fun _ => k))
  (at level 100, k at level 200, right associativity) : db_scope.
Local Open Scope db_scope.

Definition get : M world := fun w => (Ret w, w).

Definition set_committed (db : gmap string table) : M unit :=
  fun w => (Ret tt, {| committed := db; transaction := transaction w;
                       faults := faults w; trace := trace w; server := server w |}).

Definition set_transaction (t : transaction_state) : M unit :=
  fun w => (Ret tt, {| committed := committed w; transaction := t;
                       faults := faults w; trace := trace w; server := server w |}).

Definition emit (e : event) : M unit :=
  fun w => (Ret tt, {| committed := committed w; transaction := transaction w;
                       faults := faults w; trace := trace w ++ [e]; server := server w |}).

(** A round trip to the server: the next answer of the script. *)
Definition request : M unit :=
  fun w =>
    match faults w with
    | [] => (Ret tt, w)
    | answer :: rest =>
        let w' := {| committed := committed w; transaction := transaction w;
                     faults := rest; trace := trace w; server := server w |} in
        match answer with
        | None => (Ret tt, w')
        | Some e => (Throw e, w')
        end
    end.

(** [console.log], [console.warn] and [console.error]; an error object passed
    as a further argument is not part of the line. *)
Definition console (line : string) : M unit := emit (Console line).

(** [for (const x of items) { body x }] *)
Fixpoint for_of {A} (items : list A) (body : A -> M unit) : M unit :=
  match items with
  | [] => ret tt
  | x :: rest => body x ;; for_of rest body
  end.

(** *** Statements *)

Definition database_error (message : string) : thrown :=
  Error "SequelizeDatabaseError" message.

(** The value of a literal of a DEFAULT clause. *)
Fixpoint digits (s : string) (acc : Z) : option Z :=
  match s with
  | EmptyString => Some acc
  | String c r =>
      let n := nat_of_ascii c in
      if (48 <=? n)%nat && (n <=? 57)%nat
      then digits r (10 * acc + Z.of_nat (n - 48))%Z
      else None
  end.

Definition literal (s : string) : sql_value :=
  if s =? "true" then SqlBool true
  else if s =? "false" then SqlBool false
  else match s with
       | EmptyString => SqlText s
       | _ => match digits s 0 with Some z => SqlInt z | None => SqlText s end
       end.

(** What ADD COLUMN fills into the rows already there: the literal after
    DEFAULT in the column's type, NULL when the type has no such clause. *)
Definition column_default (type : string) : sql_value :=
  match index 0 "DEFAULT " type with
  | Some n => literal (substring (n + 8) (String.length type - (n + 8)) type)
  | None => SqlNull
  end.

(** ALTER TABLE t ADD COLUMN c type *)
Definition add_column (tableName columnName type : string) (db : gmap string table)
  : option (gmap string table) :=
  match db !! tableName with
  | Some t =>
      if bool_decide (columnName ∈ columns t) then None
      else Some (<[tableName := {|
             columns := columns t ++ [columnName];
             rows := (fun r => <[columnName := column_default type]> r) <$> rows t |}]> db)
  | None => None
  end.

(** One row of UPDATE "Streaks" SET "bestStreak" = "count"
    WHERE "bestStreak" < "count"; the comparison holds of integers only. *)
Definition fix_bestStreak (r : gmap string sql_value) : gmap string sql_value :=
  match r !! "bestStreak", r !! "count" with
  | Some (SqlInt b), Some (SqlInt c) =>
      if (b <? c)%Z then <["bestStreak" := SqlInt c]> r else r
  | _, _ => r
  end.

Definition update_bestStreak (db : gmap string table) : option (gmap string table) :=
  match db !! "Streaks" with
  | Some t =>
      if bool_decide ("bestStreak" ∈ columns t) && bool_decide ("count" ∈ columns t)
      then Some (<["Streaks" := {| columns := columns t;
                                   rows := fix_bestStreak <$> rows t |}]> db)
      else None
  | None => None
  end.

(** DELETE FROM t *)
Definition delete_from (tableName : string) (db : gmap string table)
  : option (gmap string table) :=
  match db !! tableName with
  | Some t => Some (<[tableName := {| columns := columns t; rows := [] |}]> db)
  | None => None
  end.

(** INSERT INTO t (cols) VALUES ..., for rows the server has read from the
    statement: every named column must exist. *)
Definition insert_into (tableName : string) (cols : list string)
  (values : list (gmap string sql_value)) (db : gmap string table)
  : option (gmap string table) :=
  match db !! tableName with
  | Some t =>
      if forallb (fun c => bool_decide (c ∈ columns t)) cols
      then Some (<[tableName := {| columns := columns t; rows := rows t ++ values |}]> db)
      else None
  | None => None
  end.

(** [sequelize.transaction()] *)
Definition begin_transaction : M unit :=
  request ;;
  w <- get ;;
  set_transaction (Open (committed w)) ;;
  emit Began.

Definition finished_error (what : string) : thrown :=
  Error "Error" ("Transaction cannot be " +:+ what +:+ " because it has been finished").

(** [transaction.commit()] *)
Definition commit : M unit :=
  w <- get ;;
  match transaction w with
  | Open view =>
      set_transaction Finished ;;
      request ;;
      set_committed view ;;
      emit Committed
  | _ => throw (finished_error "committed")
  end.

(** [transaction.rollback()] *)
Definition rollback : M unit :=
  w <- get ;;
  match transaction w with
  | Open view =>
      set_transaction Finished ;;
      request ;;
      emit RolledBack
  | _ => throw (finished_error "rolled back")
  end.

(** [sequelize.query(sql, { transaction })] for a statement that changes the
    database. *)
Definition query_in_transaction (statement : gmap string table -> option (gmap string table))
  (done : event) : M unit :=
  w <- get ;;
  match transaction w with
  | Open view =>
      request ;;
      match statement view with
      | Some view' => set_transaction (Open view') ;; emit done
      | None => throw (database_error "statement rejected")
      end
  | _ => throw (Error "Error" "the transaction has been finished")
  end.

(** [sequelize.query(sql, { type })], without a transaction: the statement
    runs on a connection of its own and is committed at once. *)
Definition query_committed (statement : gmap string table -> option (gmap string table))
  (done : event) : M unit :=
  request ;;
  w <- get ;;
  match statement (committed w) with
  | Some db => set_committed db ;; emit done
  | None => throw (database_error "statement rejected")
  end.

(** ** The migration *)

(** A statement without [{ transaction }] runs on another connection of the
    pool: it sees the committed database, not the transaction's view. *)

(** [checkTableExists(tableName)] *)
Definition checkTableExists (tableName : string) : M bool :=
  try_catch
    (request ;;
     w <- get ;;
     ret (bool_decide (is_Some (committed w !! tableName))))
    (fun error =>
       console ("Error checking if table " +:+ tableName +:+ " exists:") ;;
       ret false).

(** [checkColumnExists(tableName, columnName)] *)
Definition checkColumnExists (tableName columnName : string) : M bool :=
  try_catch
    (request ;;
     w <- get ;;
     ret (match committed w !! tableName with
          | Some t => bool_decide (columnName ∈ columns t)
          | None => false
          end))
    (fun error =>
       console ("Error checking if column " +:+ columnName +:+ " exists in table "
                +:+ tableName +:+ ":") ;;
       ret false).

(** [backupTable(tableName, transaction)]: SELECT * inside the transaction. *)
Definition backupTable (tableName : string) : M (list (gmap string sql_value)) :=
  try_catch
    (w <- get ;;
     match transaction w with
     | Open view =>
         request ;;
         match view !! tableName with
         | Some t => ret (rows t)
         | None => throw (database_error "relation does not exist")
         end
     | _ => throw (Error "Error" "the transaction has been finished")
     end)
    (fun error =>
       console ("Error backing up table " +:+ tableName +:+ ":") ;;
       throw error).

(** [Object.keys(row)]; the statement names its columns, so their order
    does not matter to how it reads. *)
Definition keys (r : gmap string sql_value) : list string := fst <$> map_to_list r.

(** The double quote, which delimits an identifier. *)
Definition double_quote : string := String (ascii_of_nat 34) EmptyString.

(** [items.join(sep)] *)
Fixpoint join (sep : string) (items : list string) : string :=
  match items with
  | [] => ""
  | [item] => item
  | item :: rest => item +:+ sep +:+ join sep rest
  end.

(** How [restoreFromBackup] writes a value into its statement,
    [typeof val === 'string' ? `'${val}'` : val] under [join]: a string goes
    between single quotes as it is, nothing is escaped; [join] gives the
    empty text for null and undefined and [String(val)] for the rest, the
    digits of a number, true or false, the elements of an array with commas
    between them, the text of a Date. *)
Definition splice (v : sql_value) : string :=
  match v with
  | SqlNull => ""
  | SqlInt z => NilZero.string_of_int (Z.to_int z)
  | SqlBool b => if b then "true" else "false"
  | SqlText s => "'" +:+ s +:+ "'"
  | SqlArray items => join "," items
  | SqlDate text => text
  end.

(** The text of the INSERT. *)
Definition insert_text (tableName : string) (cols : list string)
  (values : list (list sql_value)) : string :=
  "INSERT INTO " +:+ double_quote +:+ tableName +:+ double_quote
  +:+ " (" +:+ join ", " ((fun col => double_quote +:+ col +:+ double_quote) <$> cols)
  +:+ ") VALUES "
  +:+ join ", " ((fun row => "(" +:+ join ", " (splice <$> row) +:+ ")") <$> values).

(** A value whose spliced text is a literal that the server reads as the
    value itself: a number short enough for [String] to print its digits, a
    boolean, a string without a single quote, a backslash or a NUL. *)
Definition plain (v : sql_value) : bool :=
  match v with
  | SqlInt z => (Z.abs z <? 10 ^ 21)%Z
  | SqlBool _ => true
  | SqlText s =>
      negb (existsb (fun c => let n := nat_of_ascii c in
                              (n =? 39)%nat || (n =? 92)%nat || (n =? 0)%nat)
              (list_ascii_of_string s))
  | SqlNull | SqlArray _ | SqlDate _ => false
  end.

(** The statement reads as an INSERT of the rows themselves. *)
Definition readable (cols : list string) (values : list (list sql_value)) : bool :=
  match cols with
  | [] => false
  | _ :: _ => forallb (forallb plain) values
  end.

(** The row a list of values makes under the columns. *)
Definition row_of (cols : list string) (values : list sql_value)
  : gmap string sql_value :=
  list_to_map (zip cols values).

(** What the server does with the INSERT of a restore.  The names of the
    table and of the columns are identifiers of the schema and are read as
    they are written, here as in every other statement; the table and the
    columns must exist.  When every value is plain, the text reads as the
    rows and they are inserted; any other text, one with a null, a Date or
    an array in it, or a string that ends the literal it stands in, is a
    statement the program did not mean, or none at all, and what comes of it
    is the [server]'s to say. *)
Definition insert_spliced
  (server : string -> gmap string table -> option (gmap string table))
  (tableName : string) (cols : list string) (values : list (list sql_value))
  (db : gmap string table) : option (gmap string table) :=
  match db !! tableName with
  | Some t =>
      if forallb (fun c => bool_decide (c ∈ columns t)) cols then
        if readable cols values
        then insert_into tableName cols (row_of cols <$> values) db
        else server (insert_text tableName cols values) db
      else None
  | None => None
  end.

(** [restoreFromBackup(backup, tableName)]; [row[col]] for a key the row
    lacks is undefined, which [join] writes as it writes null. *)
Definition restoreFromBackup (backup : list (gmap string sql_value)) (tableName : string)
  : M unit :=
  try_catch
    (query_committed (delete_from tableName) (DeletedFrom tableName) ;;
     match backup with
     | first :: _ =>
         let columns := keys first in
         let values :=
           (fun row => (fun col => default SqlNull (row !! col)) <$> columns) <$> backup in
         w <- get ;;
         query_committed (insert_spliced (server w) tableName columns values)
           (InsertedInto tableName)
     | [] => ret tt
     end)
    (fun error =>
       console ("Error restoring table " +:+ tableName +:+ " from backup:") ;;
       throw error).

Record column : Type := { name : string; sql_type : string }.

Definition columnsToAdd : list column := [
  {| name := "streakStreak"; sql_type := "INTEGER NOT NULL DEFAULT 0" |};
  {| name := "lastStreakDate"; sql_type := "DATE" |};
  {| name := "bestStreak"; sql_type := "INTEGER NOT NULL DEFAULT 1" |}
].

Definition requiredColumns : list (string * string) := [
  ("id", "INTEGER PRIMARY KEY");
  ("guildId", "STRING NOT NULL");
  ("userId", "STRING NOT NULL");
  ("triggerWord", "STRING NOT NULL");
  ("count", "INTEGER NOT NULL DEFAULT 1");
  ("bestStreak", "INTEGER NOT NULL DEFAULT 1");
  ("streakStreak", "INTEGER NOT NULL DEFAULT 0");
  ("lastStreakDate", "DATE");
  ("lastUpdated", "DATE NOT NULL DEFAULT CURRENT_TIMESTAMP")
].

(** The body of the inner [try]: the schema changes, the data fix-up, the
    commit. *)
Definition migrate_tables : M unit :=
  console "Migrating GuildConfigs table..." ;;
  hasStreakStreakEnabled <- checkColumnExists "GuildConfigs" "streakStreakEnabled" ;;
  (if negb hasStreakStreakEnabled then
     query_in_transaction
       (add_column "GuildConfigs" "streakStreakEnabled" "BOOLEAN NOT NULL DEFAULT true")
       (AddedColumn "GuildConfigs" "streakStreakEnabled") ;;
     console "Added streakStreakEnabled column to GuildConfigs"
   else ret tt) ;;
  console "Migrating Streaks table..." ;;
  for_of columnsToAdd (fun column =>
    exists_ <- checkColumnExists "Streaks" (name column) ;;
    if negb exists_ then
      query_in_transaction
        (add_column "Streaks" (name column) (sql_type column))
        (AddedColumn "Streaks" (name column)) ;;
      console ("Added " +:+ name column +:+ " column to Streaks")
    else ret tt) ;;
  console "Updating existing streaks..." ;;
  query_in_transaction update_bestStreak UpdatedBestStreak ;;
  for_of requiredColumns (fun '(columnName, columnType) =>
    exists_ <- checkColumnExists "Streaks" columnName ;;
    if negb exists_ then
      query_in_transaction
        (add_column "Streaks" columnName columnType)
        (AddedColumn "Streaks" columnName) ;;
      console ("Added missing column " +:+ columnName +:+ " to Streaks")
    else ret tt) ;;
  commit ;;
  console "Migration completed successfully".

(** The [catch] of the inner [try]. *)
Definition rollback_and_restore
  (guildConfigBackup streaksBackup : list (gmap string sql_value)) : M unit :=
  rollback ;;
  console "Migration failed, rolling back changes:" ;;
  try_catch
    (restoreFromBackup guildConfigBackup "GuildConfigs" ;;
     restoreFromBackup streaksBackup "Streaks" ;;
     console "Successfully restored from backups")
    (fun restoreError => console "Failed to restore from backups:").

(** [migrateDatabase()] *)
Definition migrateDatabase : M unit :=
  begin_transaction ;;
  try_catch
    (console "Starting database migration..." ;;
     guildConfigExists <- checkTableExists "GuildConfigs" ;;
     streaksExists <- checkTableExists "Streaks" ;;
     if negb guildConfigExists || negb streaksExists then
       console "Tables do not exist, skipping migration" ;;
       commit
     else
       console "Creating backups..." ;;
       guildConfigBackup <- backupTable "GuildConfigs" ;;
       streaksBackup <- backupTable "Streaks" ;;
       try_catch migrate_tables
         (fun error => rollback_and_restore guildConfigBackup streaksBackup))
    (fun error =>
       console "Migration failed:" ;;
       rollback ;;
       throw error).

(** CREATE TABLE IF NOT EXISTS for a model, with the timestamp columns every
    model gets. *)
Definition create_if_missing (tableName : string) (m : model) (db : gmap string table)
  : gmap string table :=
  match db !! tableName with
  | Some _ => db
  | None => <[tableName := {| columns := (fst <$> attributes m) ++ ["createdAt"; "updatedAt"];
                              rows := [] |}]> db
  end.

(** What [sequelize.sync({ alter: false })] does for one model, outside any
    transaction: it asks whether the table exists, creates it when it does
    not, and asks for its indexes; the definitions declare none to add. *)
Definition sync_model (tableName : string) (m : model) : M unit :=
  request ;;
  w <- get ;;
  match committed w !! tableName with
  | Some _ => ret tt
  | None =>
      query_committed (fun db => Some (create_if_missing tableName m db))
        (CreatedTable tableName)
  end ;;
  request.

(** [sequelize.sync({ alter: false })]: the models in the order of their
    definition, one after the other. *)
Definition sync : M unit :=
  sync_model "GuildConfigs" GuildConfig.definition ;;
  sync_model "Streaks" Streak.definition.

(** [initializeDatabase()] *)
Definition initializeDatabase : M unit :=
  try_catch
    (console "Starting database initialization..." ;;
     migrateDatabase ;;
     sync ;;
     console "Database synchronized successfully")
    (fun error =>
       console "Error initializing database:" ;;
       throw error).

(** ** withRetry *)

Module retryConfig.

Definition maxRetries : nat := 3.

Definition retryDelay : Z := 1000.

(** The first comparison reads [error.name]; the others are reached only
    when that read has returned. *)
Definition retryOnError (error : thrown) : outcome bool :=
  match error_name error with
  | Ret name =>
      Ret ((name =? "SequelizeConnectionError")
           || (name =? "SequelizeConnectionRefusedError")
           || (name =? "SequelizeHostNotFoundError")
           || (name =? "SequelizeHostNotReachableError"))
  | Throw typeError => Throw typeError
  end.

End retryConfig.

(** What [withRetry] itself does around the operation. *)
Inductive retry_event : Type :=
| Invoked (attempt : nat)
| Warned (attempt maxRetries : nat)
| Waited (ms : Z).

Section WithRetry.

Context {S A : Type}.

(** The operation is a closure over some state of its own. *)
Variable operation : S -> outcome A * S.

(** The loop [for (attempt = 1; attempt <= maxRetries; attempt++)], entered
    at [attempt] with [remaining = maxRetries + 1 - attempt] iterations left;
    [remaining = 0] is the loop test failing.  An error thrown inside the
    [catch], as the TypeError of [retryOnError], leaves the function. *)
Fixpoint retry_loop (maxRetries attempt remaining : nat) (lastError : thrown) (s : S)
  : outcome A * S * list retry_event :=
  match remaining with
  | O => (Throw lastError, s, [])
  | Datatypes.S k =>
      match operation s with
      | (Ret a, s') => (Ret a, s', [Invoked attempt])
      | (Throw error, s') =>
          match retryConfig.retryOnError error with
          | Ret true =>
              if (attempt <? maxRetries)%nat then
                let '(r, s'', log) := retry_loop maxRetries (attempt + 1) k error s' in
                (r, s'',
                 Invoked attempt :: Warned attempt maxRetries
                   :: Waited (retryConfig.retryDelay * Z.of_nat attempt) :: log)
              else (Throw error, s', [Invoked attempt; Warned attempt maxRetries])
          | Ret false => (Throw error, s', [Invoked attempt])
          | Throw typeError => (Throw typeError, s', [Invoked attempt])
          end
      end
  end.

(** [withRetry(operation, maxRetries)] *)
Definition withRetry (maxRetries : nat) (s : S) : outcome A * S * list retry_event :=
  retry_loop maxRetries 1 maxRetries ThrownUndefined s.

End WithRetry.

(** ** The raid's progressive bonus *)

Module Raid.


End Raid.

(** ** Notions the properties are stated with *)

(** A stored trigger word as the specification wants it. *)
Definition normalised (word : string) : Prop :=
  Js.toLowerCase word = word /\ Js.trim word = word /\ word <> "".

(** A string of white space only. *)
Fixpoint all_whitespace (s : string) : bool :=
  match s with
  | EmptyString => true
  | String c r => Js.is_whitespace c && all_whitespace r
  end.

(** The invariant of a Streak record. *)
Definition best_covers_count (v : Streak.values) : Prop :=
  (Streak.count v <= Streak.bestStreak v)%Z.

(** The same on a row of the Streaks table, whatever other columns it has. *)
Definition row_best_covers_count (r : gmap string sql_value) : Prop :=
  forall b c, r !! "bestStreak" = Some (SqlInt b) -> r !! "count" = Some (SqlInt c) ->
    (c <= b)%Z.

(** The instance is in step with the table: the row it was loaded from has
    the count and the bestStreak the instance holds, wherever the instance
    has not set them itself. *)
Definition in_step (rows : list Streak.values) (streak : Streak.instance) : Prop :=
  forall r, In r rows -> Streak.id r = Streak.id (Streak.dataValues streak) ->
    (Streak.changed streak "count" = false ->
     Streak.count r = Streak.count (Streak.dataValues streak))
    /\ (Streak.changed streak "bestStreak" = false ->
        Streak.bestStreak r = Streak.bestStreak (Streak.dataValues streak)).

(** The key the specification gives a Streak. *)
Definition triple_of (v : Streak.values) : string * string * string :=
  (Streak.guildId v, Streak.userId v, Streak.triggerWord v).

(** The rows of the table after a series of [save] calls, a rejected one
    leaving the table as it was. *)
Fixpoint saves (rows : list Streak.values) (todo : list Streak.instance)
  : list Streak.values :=
  match todo with
  | [] => rows
  | s :: rest =>
      match Streak.save rows s with
      | Some (rows', _) => saves rows' rest
      | None => saves rows rest
      end
  end.


Section RetryNotions.

Context {S A : Type}.

(** The outcomes of [n] successive invocations of the operation from [s]. *)
Fixpoint attempts (operation : S -> outcome A * S) (n : nat) (s : S)
  : list (outcome A * S) :=
  match n with
  | O => []
  | Datatypes.S k => let o := operation s in o :: attempts operation k (snd o)
  end.

(** A transient connection failure: an error thrown under one of the names
    of Sequelize's connection errors that a later attempt may not meet. *)
Definition transient (o : outcome A * S) : bool :=
  match fst o with
  | Throw (Error name _) =>
      bool_decide (name ∈ ["SequelizeConnectionError"; "SequelizeConnectionRefusedError";
                            "SequelizeHostNotFoundError"; "SequelizeHostNotReachableError"])
  | _ => false
  end.

(** What the caller of [withRetry] gets for the outcome of the last
    invocation: the outcome itself, but for a thrown [undefined], whose name
    cannot be read: the TypeError of that read is thrown in its place. *)
Definition handed_on (o : outcome A) : outcome A :=
  match o with
  | Throw ThrownUndefined =>
      Throw (Error "TypeError" "Cannot read properties of undefined (reading 'name')")
  | _ => o
  end.

End RetryNotions.

Definition invocations (log : list retry_event) : nat :=
  List.length (List.filter (fun e => match e with Invoked _ => true | _ => false end) log).

Definition waits (log : list retry_event) : list Z :=
  omap (fun e => match e with Waited ms => Some ms | _ => None end) log.

(** Counting in a trace. *)
Definition is_addition (e : event) : bool :=
  match e with AddedColumn _ _ => true | _ => false end.

Definition is_change (e : event) : bool :=
  match e with
  | AddedColumn _ _ | UpdatedBestStreak | DeletedFrom _ | InsertedInto _
  | CreatedTable _ => true
  | _ => false
  end.

Definition is_completion (e : event) : bool :=
  match e with
  | Console line => line =? "Migration completed successfully"
  | _ => false
  end.

Definition additions (w : world) : nat := List.length (List.filter is_addition (trace w)).

Definition changes (w : world) : nat := List.length (List.filter is_change (trace w)).

Definition completions (w : world) : nat :=
  List.length (List.filter is_completion (trace w)).

Definition has_column (db : gmap string table) (tableName columnName : string) : Prop :=
  exists t, db !! tableName = Some t /\ columnName ∈ columns t.

(** Empty, or beginning with a character that is not white space. *)
Definition clean_start (s : string) : Prop :=
  match s with
  | EmptyString => True
  | String c _ => Js.is_whitespace c = false
  end.

(** *** A program logic for [M] *)

(** [hoare P m Q E]: from a world in [P], [m] returns in [Q] or throws in
    [E]; [M] being a function, it always does one of the two. *)
Definition hoare {A} (P : world -> Prop) (m : M A)
  (Q : A -> world -> Prop) (E : thrown -> world -> Prop) : Prop :=
  forall w, P w ->
    match m w with
    | (Ret a, w') => Q a w'
    | (Throw e, w') => E e w'
    end.

(** The lines of the console, in their order. *)
Definition console_lines (w : world) : list string :=
  omap (fun e => match e with Console line => Some line | _ => None end) (trace w).

(** The three counts of a trace are what they were. *)
Definition same_counts (w0 w : world) : Prop :=
  additions w = additions w0 /\ changes w = changes w0 /\ completions w = completions w0.

(** Nothing an observer of the database, of the transaction or of the counts
    can see has changed. *)
Definition keeps (w0 w : world) : Prop :=
  committed w = committed w0 /\ transaction w = transaction w0 /\ same_counts w0 w.

(** *** Schemas and the invariants of a run *)

(** Every column the migration looks for. *)
Definition all_columns : list (string * string) :=
  ("GuildConfigs", "streakStreakEnabled")
    :: ((fun c => ("Streaks", name c)) <$> columnsToAdd)
    ++ ((fun c => ("Streaks", fst c)) <$> requiredColumns).

Definition migrated (db : gmap string table) : Prop :=
  forall t c, In (t, c) all_columns -> has_column db t c.

(** [view] has every column [db] has. *)
Definition extends (db view : gmap string table) : Prop :=
  forall t c, has_column db t c -> has_column view t c.

(** The Streaks table, when there is one, has both counters and its rows
    satisfy the invariant. *)
Definition streaks_fixed (db : gmap string table) : Prop :=
  forall t, db !! "Streaks" = Some t ->
    "bestStreak" ∈ columns t /\ "count" ∈ columns t
    /\ Forall row_best_covers_count (rows t).

(** [m] keeps [I], whether it returns or throws. *)
Definition preserves {A} (I : world -> Prop) (m : M A) : Prop :=
  hoare I m (fun _ => I) (fun _ => I).

(** What [restoreFromBackup] leaves as it was, whatever the server makes of
    its statements. *)
Definition restored (w0 w : world) : Prop :=
  transaction w = transaction w0 /\ additions w = additions w0
  /\ completions w = completions w0.

(** The invariant of a run that starts on a migrated schema: the number of
    columns added so far is [a0], and the transaction's view has every
    column the migration looks for. *)
Definition settled (a0 : nat) (w : world) : Prop :=
  additions w = a0 /\ forall view, transaction w = Open view -> migrated view.

(** The run has not logged its completion. *)
Definition unfinished (n0 : nat) (w : world) : Prop := completions w = n0.

(** Inside the inner [try]: the transaction is open, its view has every
    committed column and the columns [ensured] so far, and, once the data
    fix-up has run, its Streaks rows satisfy the invariant. *)
Definition underway (n0 : nat) (ensured : list (string * string)) (fixed : bool)
  (w : world) : Prop :=
  completions w = n0
  /\ exists view, transaction w = Open view /\ extends (committed w) view
       /\ (forall t c, In (t, c) ensured -> has_column view t c)
       /\ (fixed = true -> streaks_fixed view).

Definition good (db : gmap string table) : Prop := migrated db /\ streaks_fixed db.

Definition completed_or_unfinished (n0 : nat) (w : world) : Prop :=
  completions w = n0 \/ good (committed w).

(** The committed database is [db0] and [c0] changing statements have run. *)
Definition untouched (db0 : gmap string table) (c0 : nat) (w : world) : Prop :=
  committed w = db0 /\ changes w = c0.

Definition untouched_open (db0 : gmap string table) (c0 : nat) (w : world) : Prop :=
  untouched db0 c0 w /\ transaction w = Open db0.

(** Is the [i]-th request to come refused? *)
Definition refused (script : list (option thrown)) (i : nat) : bool :=
  match script !! i with
  | Some (Some _) => true
  | _ => false
  end.

(** The error of the first refusal among the next [n] answers of the
    script, if one of them is a refusal. *)
Fixpoint first_refusal (n : nat) (script : list (option thrown)) : option thrown :=
  match n, script with
  | S n', None :: rest => first_refusal n' rest
  | S _, Some e :: _ => Some e
  | _, _ => None
  end.

(** The requests [sync] makes: for each model the question whether its table
    exists and the one for its indexes, and between them the CREATE TABLE
    when the table is missing. *)
Definition model_requests (db : gmap string table) (tableName : string) : nat :=
  match db !! tableName with
  | Some _ => 2
  | None => 3
  end.

Definition sync_requests (db : gmap string table) : nat :=
  (model_requests db "GuildConfigs" + model_requests db "Streaks")%nat.

(** *** Example databases and records *)

(** The world with another script of answers. *)
Definition with_faults (script : list (option thrown)) (w : world) : world :=
  {| committed := committed w; transaction := transaction w;
     faults := script; trace := trace w; server := server w |}.

Definition guildConfigs_full : table :=
  {| columns := ["guildId"; "triggerWords"; "streakLimit"; "streakStreakEnabled"];
     rows := [] |}.

Definition guildConfigs_old : table :=
  {| columns := ["guildId"; "triggerWords"; "streakLimit"];
     rows := [ {[ "guildId" := SqlText "g"; "triggerWords" := SqlArray ["daily"];
                  "streakLimit" := SqlInt 0 ]} ] |}.

(** The text of a Date, as [String] prints it. *)
Definition epoch : string :=
  "Thu Jan 01 1970 00:00:00 GMT+0000 (Coordinated Universal Time)".

(** A Streaks table with every column, one of whose rows has a bestStreak
    below its count. *)
Definition streaks_full : table :=
  {| columns := ["id"; "guildId"; "userId"; "triggerWord"; "count"; "bestStreak";
                 "streakStreak"; "lastStreakDate"; "lastUpdated"];
     rows := [ {[ "id" := SqlInt 1; "guildId" := SqlText "g"; "userId" := SqlText "u";
                  "triggerWord" := SqlText "daily"; "count" := SqlInt 7;
                  "bestStreak" := SqlInt 3; "streakStreak" := SqlInt 0;
                  "lastStreakDate" := SqlNull; "lastUpdated" := SqlDate epoch ]} ] |}.

(** A Streaks table from before the streak-streak feature. *)
Definition streaks_old : table :=
  {| columns := ["id"; "guildId"; "userId"; "triggerWord"; "count"; "bestStreak";
                 "lastStreakDate"; "lastUpdated"];
     rows := [ {[ "id" := SqlInt 1; "guildId" := SqlText "g"; "userId" := SqlText "u";
                  "triggerWord" := SqlText "daily"; "count" := SqlInt 7;
                  "bestStreak" := SqlInt 7; "lastStreakDate" := SqlNull;
                  "lastUpdated" := SqlDate epoch ]} ] |}.

(** The world of the examples: no transaction, nothing logged, and a server
    that answers a statement it cannot read with an error. *)
Definition world_of (db : gmap string table) (script : list (option thrown)) : world :=
  {| committed := db; transaction := NoTransaction; faults := script; trace := [];
     server := fun _ _ => None |}.

(** Both tables there, GuildConfigs still without streakStreakEnabled. *)
Definition world_old_guildConfigs : world :=
  world_of {[ "GuildConfigs" := guildConfigs_old; "Streaks" := streaks_full ]} [].

(** No Streaks table yet. *)
Definition world_without_streaks : world :=
  world_of {[ "GuildConfigs" := guildConfigs_full ]} [].

Definition statement_refused : thrown :=
  Error "SequelizeDatabaseError" "canceling statement due to lock timeout".

(** Streaks lacks streakStreak, and the server's eighth answer, the one to
    ALTER TABLE "Streaks" ADD COLUMN "streakStreak", is a failure. *)
Definition world_alter_fails : world :=
  world_of {[ "GuildConfigs" := guildConfigs_full; "Streaks" := streaks_old ]}
    [None; None; None; None; None; None; None; Some statement_refused].

(** The same, and the first DELETE of the restore fails as well. *)
Definition world_restore_fails : world :=
  world_of {[ "GuildConfigs" := guildConfigs_full; "Streaks" := streaks_old ]}
    [None; None; None; None; None; None; None; Some statement_refused;
     None; Some statement_refused].

(** The [n]-th Streak of one user for the word "daily", as [create] stores
    it. *)
Definition daily (n : Z) : Streak.values :=
  {| Streak.id := Some n; Streak.guildId := "guild"; Streak.userId := "user";
     Streak.triggerWord := "daily"; Streak.count := 1; Streak.bestStreak := 1;
     Streak.streakStreak := 0; Streak.lastStreakDate := None; Streak.lastUpdated := 0 |}.

(** A stored Streak, and what it becomes with its bestStreak set to 3. *)
Definition streak_5_5 : Streak.values :=
  {| Streak.id := Some 1%Z; Streak.guildId := "g"; Streak.userId := "u";
     Streak.triggerWord := "daily"; Streak.count := 5; Streak.bestStreak := 5;
     Streak.streakStreak := 0; Streak.lastStreakDate := None; Streak.lastUpdated := 0 |}.

(** The same row after another writer has raised it, and what a stale
    instance makes of it. *)
Definition streak_10_10 : Streak.values :=
  {| Streak.id := Some 1%Z; Streak.guildId := "g"; Streak.userId := "u";
     Streak.triggerWord := "daily"; Streak.count := 10; Streak.bestStreak := 10;
     Streak.streakStreak := 0; Streak.lastStreakDate := None; Streak.lastUpdated := 0 |}.

Definition streak_10_7 : Streak.values :=
  {| Streak.id := Some 1%Z; Streak.guildId := "g"; Streak.userId := "u";
     Streak.triggerWord := "daily"; Streak.count := 10; Streak.bestStreak := 7;
     Streak.streakStreak := 0; Streak.lastStreakDate := None; Streak.lastUpdated := 0 |}.

Definition streak_5_3 : Streak.values :=
  {| Streak.id := Some 1%Z; Streak.guildId := "g"; Streak.userId := "u";
     Streak.triggerWord := "daily"; Streak.count := 5; Streak.bestStreak := 3;
     Streak.streakStreak := 0; Streak.lastStreakDate := None; Streak.lastUpdated := 0 |}.

(** *** Further notions: accessors, snapshots and restores *)

(** The world after one answer of the script has been used up. *)
Definition advance (w : world) : world :=
  {| committed := committed w; transaction := transaction w;
     faults := tail (faults w); trace := trace w; server := server w |}.

(** Every row of a snapshot has its keys among those of the first row, as
    the rows of one SELECT * have. *)
Definition uniform_rows (backup : list (gmap string sql_value)) : Prop :=
  match backup with
  | [] => True
  | first :: _ =>
      Forall (fun row => forall k, is_Some (row !! k) -> is_Some (first !! k)) backup
  end.

(** Every row of a snapshot has, under each key of the first row, a value
    that is plain, and the first row has a key: the INSERT a restore writes
    for the snapshot reads as its rows. *)
Definition plain_rows (backup : list (gmap string sql_value)) : Prop :=
  match backup with
  | [] => True
  | first :: _ =>
      first <> ∅
      /\ Forall (fun row => forall k, is_Some (first !! k) ->
                            exists v, row !! k = Some v /\ plain v = true) backup
  end.

(** The keys of the first row of a snapshot are columns of the table. *)
Definition fits (backup : list (gmap string sql_value)) (t : table) : Prop :=
  match backup with
  | [] => True
  | first :: _ => forall k, is_Some (first !! k) -> k ∈ columns t
  end.

(** The table with other rows. *)
Definition with_rows (t : table) (new : list (gmap string sql_value)) : table :=
  {| columns := columns t; rows := new |}.

(** A one-row table to try the restore on. *)
Definition counter_row : gmap string sql_value := {[ "count" := SqlInt 7 ]}.

Definition counter_table : table := {| columns := ["count"]; rows := [counter_row] |}.

(** *** Further notions: what a run can do to the database *)

(** [db'] comes from [db] by the statements a run issues inside its
    transaction: ADD COLUMN and the bestStreak fix-up. *)
Inductive altered (db : gmap string table) : gmap string table -> Prop :=
| altered_refl : altered db db
| altered_add db1 db2 tableName columnName type :
    altered db db1 -> add_column tableName columnName type db1 = Some db2 ->
    altered db db2
| altered_update db1 db2 :
    altered db db1 -> update_bestStreak db1 = Some db2 -> altered db db2.

(** [db'] comes from [db] by the statements of a restore: DELETE and INSERT. *)
Inductive rewritten (db : gmap string table) : gmap string table -> Prop :=
| rewritten_refl : rewritten db db
| rewritten_delete db1 db2 tableName :
    rewritten db db1 -> delete_from tableName db1 = Some db2 -> rewritten db db2
| rewritten_insert db1 db2 tableName cols values :
    rewritten db db1 -> insert_into tableName cols values db1 = Some db2 ->
    rewritten db db2.

(** The rows of GuildConfigs and of Streaks, the tables a failed run
    restores, are plain: the statements of the restore read as they are
    meant.  An empty table is restorable; a row with a null, a Date or an
    array in it is not. *)
Definition restorable (db : gmap string table) : Prop :=
  forall tableName t, In tableName ["GuildConfigs"; "Streaks"] ->
    db !! tableName = Some t -> plain_rows (rows t).

(** The three ways a run can end, seen from the world [w] it started in:
    it returned after logging its completion, the committed database being
    the old one altered; it returned without, the committed database being,
    where the tables were restorable, the old one with rows rewritten at
    most; it threw, the committed database being the old one. *)
Definition run_ended (w : world) (r : outcome unit) (w' : world) : Prop :=
  match r with
  | Ret _ =>
      (completions w' = Datatypes.S (completions w)
       /\ altered (committed w) (committed w'))
      \/ (completions w' = completions w
          /\ (restorable (committed w) -> rewritten (committed w) (committed w')))
  | Throw _ => completions w' = completions w /\ committed w' = committed w
  end
  /\ (if refused (faults w) 0
      then (exists e, r = Throw e) /\ transaction w' = transaction w
      else transaction w' = Finished).

(** The tables have the same columns in both databases. *)
Definition same_schema (db db' : gmap string table) : Prop :=
  extends db db' /\ extends db' db.

(** A row of a migrated table against the row it was: every column the
    table had keeps its value, but bestStreak, which may have been raised. *)
Definition row_kept (cols : list string) (r0 r : gmap string sql_value) : Prop :=
  forall k, k ∈ cols ->
    r !! k = r0 !! k
    \/ (k = "bestStreak"
        /\ exists b0 b, r0 !! k = Some (SqlInt b0) /\ r !! k = Some (SqlInt b)
                        /\ (b0 <= b)%Z).

(** Every table of [db0] is in [db] with its columns, and with its rows, in
    their order, kept. *)
Definition keeps_data (db0 db : gmap string table) : Prop :=
  forall tableName t0, db0 !! tableName = Some t0 ->
    exists t, db !! tableName = Some t
              /\ (forall c, c ∈ columns t0 -> c ∈ columns t)
              /\ Forall2 (row_kept (columns t0)) (rows t0) (rows t).

(** What a restore leaves: rows rewritten, when its statements read as they
    are meant, and the rest as it was. *)
Definition after_restore (meant : Prop) (w0 w : world) : Prop :=
  (meant -> rewritten (committed w0) (committed w))
  /\ transaction w = transaction w0 /\ completions w = completions w0.

(** The stages of a run that started on the committed database [db0] with
    [n0] completions logged: the transaction just begun; statements being
    carried out in it; an error on its way to a [catch]; the error thrown on
    after the rollback; the completion logged; the failure swallowed, the
    rows rewritten at most when the restore's statements read as [meant]. *)
Definition begun (db0 : gmap string table) (n0 : nat) (w : world) : Prop :=
  committed w = db0 /\ completions w = n0 /\ transaction w = Open db0.

Definition altering (db0 : gmap string table) (n0 : nat) (w : world) : Prop :=
  committed w = db0 /\ completions w = n0
  /\ exists view, transaction w = Open view /\ altered db0 view.

Definition failing (db0 : gmap string table) (n0 : nat) (w : world) : Prop :=
  committed w = db0 /\ completions w = n0 /\ transaction w <> NoTransaction.

Definition thrown_back (db0 : gmap string table) (n0 : nat) (w : world) : Prop :=
  committed w = db0 /\ completions w = n0 /\ transaction w = Finished.

Definition completed (db0 : gmap string table) (n0 : nat) (w : world) : Prop :=
  completions w = Datatypes.S n0 /\ altered db0 (committed w)
  /\ transaction w = Finished.

Definition swallowed (meant : Prop) (db0 : gmap string table) (n0 : nat) (w : world)
  : Prop :=
  completions w = n0 /\ (meant -> rewritten db0 (committed w))
  /\ transaction w = Finished.

(** Both databases have the same tables. *)
Definition same_tables (db db' : gmap string table) : Prop :=
  forall tableName, is_Some (db !! tableName) <-> is_Some (db' !! tableName).

(** Both tables there and empty, Streaks without streakStreak, and the
    server's eighth answer, the one to ALTER TABLE, is a failure. *)
Definition world_alter_fails_empty : world :=
  world_of {[ "GuildConfigs" := guildConfigs_full;
              "Streaks" := with_rows streaks_old [] ]}
    [None; None; None; None; None; None; None; Some statement_refused].

(** Both tables there with every column, and the server's fourth answer, the
    one to SELECT * FROM "GuildConfigs", is a failure. *)
Definition world_backup_fails : world :=
  world_of {[ "GuildConfigs" := guildConfigs_full; "Streaks" := streaks_full ]}
    [None; None; None; Some statement_refused].

(** The database after [sync]: each model's table created when missing. *)
Definition synced (db : gmap string table) : gmap string table :=
  create_if_missing "Streaks" Streak.definition
    (create_if_missing "GuildConfigs" GuildConfig.definition db).

(** The world with a line logged. *)
Definition logged (line : string) (w : world) : world := snd (console line w).

(** The warnings of a log, each with its attempt and the bound it names. *)
Definition warnings (log : list retry_event) : list (nat * nat) :=
  omap (fun e => match e with Warned attempt maxRetries => Some (attempt, maxRetries)
                         | _ => None end) log.

(** The time spent waiting, in milliseconds. *)
Definition total_wait (log : list retry_event) : Z := fold_right Z.add 0%Z (waits log).

(** ** The refresh command *)

Module Refresh.

(** [command.data], a SlashCommandBuilder: its name, undefined until
    [setName], and what [toJSON()] gives, or throws when the builder does
    not validate. *)
Record command_data : Type := { name : option string; toJSON : outcome string }.

(** What a command file exports: [data], and whether there is an
    [execute]. *)
Record command : Type := { data : option command_data; has_execute : bool }.

(** The replies [execute] edits into the deferred one. *)
Inductive reply : Type :=
| NoPermission
| Refreshed
| RegistrationFailed
| ErrorOccurred.

Definition content (r : reply) : string :=
  match r with
  | NoPermission => "❌ You do not have permission to use this command."
  | Refreshed => "✅ Command cache refreshed successfully!"
  | RegistrationFailed =>
      "❌ Failed to register refreshed commands. Please try using `/restart` instead."
  | ErrorOccurred => "❌ An error occurred while trying to refresh the commands."
  end.

(** What [execute] works on.  [administrator] is
    [interaction.member.permissions.has(Administrator)], [None] when the
    interaction has no member; [directory] is what [fs.readdirSync] gives;
    [modules] what [require] gives for a file of the directory, [None] for
    exports that are null or undefined; [commands] is the cache
    [interaction.client.commands], in insertion order; [registered] is the
    list Discord holds for the application; [answers] is the script of
    Discord's answers to the calls to come; [replies] are the replies Discord
    accepted and [lines] the console. *)
Record session : Type := {
  administrator : option bool;
  directory : outcome (list string);
  modules : string -> outcome (option command);
  commands : list (string * command);
  registered : list string;
  answers : list (option thrown);
  replies : list reply;
  lines : list string
}.

Definition R (A : Type) : Type := session -> outcome A * session.

Definition ret {A} (a : A) : R A := fun s => (Ret a, s).

Definition bind {A B} (m : R A) (f : A -> R B) : R B :=
  fun s =>
    match m s with
    | (Ret a, s') => f a s'
    | (Throw e, s') => (Throw e, s')
    end.

Definition throw {A} (e : thrown) : R A := fun s => (Throw e, s).

(** [try { m } catch (error) { handler error }] *)
Definition try_catch {A} (m : R A) (handler : thrown -> R A) : R A :=
  fun s =>
    match m s with
    | (Ret a, s') => (Ret a, s')
    | (Throw e, s') => handler e s'
    end.

Declare Scope refresh_scope.
Delimit Scope refresh_scope with refresh.
Notation "x <- m ;; k" := (bind m (fun x => k))
  (at level 100, m at next level, k at level 200, right associativity) : refresh_scope.
Notation "m ;; k" := (bind m (fun _ => k))
  (at level 100, k at level 200, right associativity) : refresh_scope.
Local Open Scope refresh_scope.

(** [for (const x of items) { body x }] *)
Fixpoint for_of {A} (items : list A) (body : A -> R unit) : R unit :=
  match items with
  | [] => ret tt
  | x :: rest => body x ;; for_of rest body
  end.

(** A call to Discord: the next answer of the script. *)
Definition call : R unit :=
  fun s =>
    match answers s with
    | [] => (Ret tt, s)
    | answer :: rest =>
        let s' := {| administrator := administrator s; directory := directory s;
                     modules := modules s; commands := commands s;
                     registered := registered s; answers := rest;
                     replies := replies s; lines := lines s |} in
        match answer with
        | None => (Ret tt, s')
        | Some e => (Throw e, s')
        end
    end.

(** [console.log], [console.warn] and [console.error]. *)
Definition console (line : string) : R unit :=
  fun s => (Ret tt, {| administrator := administrator s; directory := directory s;
                       modules := modules s; commands := commands s;
                       registered := registered s; answers := answers s;
                       replies := replies s; lines := lines s ++ [line] |}).

(** [interaction.deferReply({ ephemeral: true })] *)
Definition deferReply : R unit := call.

(** [interaction.editReply({ content, ephemeral: true })] *)
Definition editReply (r : reply) : R unit :=
  call ;;
  fun s => (Ret tt, {| administrator := administrator s; directory := directory s;
                       modules := modules s; commands := commands s;
                       registered := registered s; answers := answers s;
                       replies := replies s ++ [r]; lines := lines s |}).

Definition type_error (message : string) : thrown := Error "TypeError" message.

(** [interaction.member.permissions.has(PermissionFlagsBits.Administrator)] *)
Definition isAdministrator : R bool :=
  fun s =>
    match administrator s with
    | Some b => (Ret b, s)
    | None => (Throw (type_error "Cannot read properties of null (reading 'permissions')"), s)
    end.

Definition set_commands (cache : list (string * command)) : R unit :=
  fun s => (Ret tt, {| administrator := administrator s; directory := directory s;
                       modules := modules s; commands := cache;
                       registered := registered s; answers := answers s;
                       replies := replies s; lines := lines s |}).

(** [interaction.client.commands.clear()] *)
Definition clear : R unit := set_commands [].

(** [Map.prototype.set]: a key already there keeps its place. *)
Fixpoint map_set (key : string) (c : command) (cache : list (string * command))
  : list (string * command) :=
  match cache with
  | [] => [(key, c)]
  | (k, c') :: rest =>
      if k =? key then (key, c) :: rest else (k, c') :: map_set key c rest
  end.

(** [Map.prototype.get] *)
Fixpoint map_get (key : string) (cache : list (string * command)) : option command :=
  match cache with
  | [] => None
  | (k, c) :: rest => if k =? key then Some c else map_get key rest
  end.

(** [interaction.client.commands.set(name, command)] *)
Definition cache_set (key : string) (c : command) : R unit :=
  fun s => set_commands (map_set key c (commands s)) s.

(** [fs.readdirSync(commandsPath)] *)
Definition readdirSync : R (list string) := fun s => (directory s, s).

(** [require(path.join(commandsPath, file))] *)
Definition require (file : string) : R (option command) := fun s => (modules s file, s).

(** [s.endsWith(suffix)] *)
Definition endsWith (s suffix : string) : bool :=
  (String.length suffix <=? String.length s)%nat
  && (substring (String.length s - String.length suffix) (String.length suffix) s
      =? suffix).

(** The name under which a command is cached: [None] when the test
    [!command.data || !command.data.name || !command.execute] holds. *)
Definition cache_key (c : command) : option string :=
  match data c with
  | Some d =>
      match name d with
      | Some n => if negb (n =? "") && has_execute c then Some n else None
      | None => None
      end
  | None => None
  end.

(** The body of the first loop. *)
Definition reload (file : string) : R unit :=
  try_catch
    (exports <- require file ;;
     match exports with
     | None => throw (type_error "Cannot read properties of undefined (reading 'data')")
     | Some command =>
         match cache_key command with
         | None =>
             console ("[WARNING] The command at " +:+ file
                      +:+ " is missing required properties. Skipping.")
         | Some key =>
             cache_set key command ;;
             console ("Reloaded command: " +:+ key)
         end
     end)
    (fun error => console ("[ERROR] Failed to reload command " +:+ file +:+ ":")).

(** The second loop: [commands.push(command.data.toJSON())] for each value
    of the cache. *)
Fixpoint to_payload (cache : list (string * command)) : outcome (list string) :=
  match cache with
  | [] => Ret []
  | (_, c) :: rest =>
      match data c with
      | None => Throw (type_error "Cannot read properties of undefined (reading 'toJSON')")
      | Some d =>
          match toJSON d with
          | Throw e => Throw e
          | Ret json =>
              match to_payload rest with
              | Ret jsons => Ret (json :: jsons)
              | Throw e => Throw e
              end
          end
      end
  end.

Definition payload : R (list string) := fun s => (to_payload (commands s), s).

(** [interaction.client.application.commands.set(commands)] *)
Definition register (commands' : list string) : R unit :=
  call ;;
  fun s => (Ret tt, {| administrator := administrator s; directory := directory s;
                       modules := modules s; commands := commands s;
                       registered := commands'; answers := answers s;
                       replies := replies s; lines := lines s |}).

(** [execute(interaction)] *)
Definition execute : R unit :=
  try_catch
    (deferReply ;;
     allowed <- isAdministrator ;;
     if negb allowed then editReply NoPermission
     else
       clear ;;
       files <- readdirSync ;;
       let commandFiles := List.filter (fun file => endsWith file ".js") files in
       for_of commandFiles reload ;;
       commands' <- payload ;;
       try_catch
         (register commands' ;;
          editReply Refreshed)
         (fun error =>
            console "Error registering refreshed commands:" ;;
            editReply RegistrationFailed))
    (fun error =>
       console "Error in refresh command:" ;;
       try_catch (editReply ErrorOccurred)
         (fun replyError => console "Failed to send error message:")).

(** The command a file gives, with the name it is cached under; none when
    the file fails to load or lacks a property. *)
Definition named (s : session) (file : string) : option (string * command) :=
  match modules s file with
  | Ret (Some c) => (fun key => (key, c)) <$> cache_key c
  | _ => None
  end.

(** The commands of the .js files, in the order of the directory. *)
Definition loadable (s : session) (files : list string) : list (string * command) :=
  omap (named s) (List.filter (fun file => endsWith file ".js") files).

(** The cache with the commands [found] set one after the other. *)
Definition filled (found : list (string * command)) (cache : list (string * command))
  : list (string * command) :=
  fold_left (fun cache' kc => map_set (fst kc) (snd kc) cache') found cache.

(** Nothing but the cache and the console differs. *)
Definition framed (s s' : session) : Prop :=
  administrator s' = administrator s /\ directory s' = directory s
  /\ modules s' = modules s /\ registered s' = registered s
  /\ answers s' = answers s /\ replies s' = replies s.

(** The session with the next answer of the script consumed. *)
Definition answered (s : session) : session :=
  {| administrator := administrator s; directory := directory s;
     modules := modules s; commands := commands s; registered := registered s;
     answers := tail (answers s); replies := replies s; lines := lines s |}.

(** Example sessions: a directory with a command, a file that is no script,
    a script that fails to load and a command without [execute]. *)
Definition ping : command :=
  {| data := Some {| name := Some "ping"; toJSON := Ret "{name: ping}" |};
     has_execute := true |}.

Definition draft : command :=
  {| data := Some {| name := Some "draft"; toJSON := Ret "{name: draft}" |};
     has_execute := false |}.

Definition example_modules (file : string) : outcome (option command) :=
  if file =? "ping.js" then Ret (Some ping)
  else if file =? "draft.js" then Ret (Some draft)
  else if file =? "broken.js" then Throw (Error "SyntaxError" "Unexpected token")
  else Ret None.

Definition session_of (allowed : option bool) (dir : outcome (list string))
  (script : list (option thrown)) : session :=
  {| administrator := allowed; directory := dir; modules := example_modules;
     commands := [("stale", draft)]; registered := ["{name: stale}"];
     answers := script; replies := []; lines := [] |}.

Definition example_directory : list string :=
  ["ping.js"; "notes.txt"; "broken.js"; "draft.js"].

End Refresh.

(** ** Strings *)

Lemma lower_char_idem c : Js.lower_char (Js.lower_char c) = Js.lower_char c.
Proof. destruct c as [[] [] [] [] [] [] [] []]; reflexivity. Qed.

Lemma toLowerCase_idem s : Js.toLowerCase (Js.toLowerCase s) = Js.toLowerCase s.
Proof. induction s as [|c r IH]; simpl; [reflexivity|]. now rewrite lower_char_idem, IH. Qed.

Lemma trimStart_lower s :
  Js.toLowerCase s = s -> Js.toLowerCase (Js.trimStart s) = Js.trimStart s.
Proof.
  induction s as [|c r IH]; simpl; intros H; [reflexivity|].
  injection H as Hc Hr.
  destruct (Js.is_whitespace c); [auto|]. simpl. now rewrite Hc, Hr.
Qed.

Lemma trimEnd_lower s :
  Js.toLowerCase s = s -> Js.toLowerCase (Js.trimEnd s) = Js.trimEnd s.
Proof.
  induction s as [|c r IH]; simpl; intros H; [reflexivity|].
  injection H as Hc Hr. specialize (IH Hr).
  destruct (Js.trimEnd r) as [|c' r'].
  - destruct (Js.is_whitespace c); simpl; [reflexivity|]. now rewrite Hc.
  - change (Js.toLowerCase (String c (String c' r')))
      with (String (Js.lower_char c) (Js.toLowerCase (String c' r'))).
    now rewrite Hc, IH.
Qed.

Lemma trimEnd_idem s : Js.trimEnd (Js.trimEnd s) = Js.trimEnd s.
Proof.
  induction s as [|c r IH]; simpl; [reflexivity|].
  destruct (Js.trimEnd r) as [|c' r'] eqn:E.
  - destruct (Js.is_whitespace c) eqn:W; simpl; [reflexivity|]. now rewrite W.
  - change (Js.trimEnd (String c (String c' r')))
      with (match Js.trimEnd (String c' r') with
            | EmptyString =>
                if Js.is_whitespace c then EmptyString else String c EmptyString
            | r'' => String c r''
            end).
    now rewrite IH.
Qed.

Lemma trimStart_clean s : clean_start (Js.trimStart s).
Proof.
  induction s as [|c r IH]; simpl; [exact I|].
  destruct (Js.is_whitespace c) eqn:W; [exact IH|exact W].
Qed.

Lemma trimEnd_clean s : clean_start s -> clean_start (Js.trimEnd s).
Proof.
  destruct s as [|c r]; simpl; intros H; [exact I|].
  destruct (Js.trimEnd r); [rewrite H|]; exact H.
Qed.

Lemma trimStart_of_clean s : clean_start s -> Js.trimStart s = s.
Proof. destruct s as [|c r]; simpl; intros H; [reflexivity|now rewrite H]. Qed.

Lemma trim_idem s : Js.trim (Js.trim s) = Js.trim s.
Proof.
  unfold Js.trim.
  rewrite (trimStart_of_clean (Js.trimEnd (Js.trimStart s))).
  - apply trimEnd_idem.
  - apply trimEnd_clean, trimStart_clean.
Qed.

Lemma trim_lower s : Js.toLowerCase s = s -> Js.toLowerCase (Js.trim s) = Js.trim s.
Proof. intros H. unfold Js.trim. now apply trimEnd_lower, trimStart_lower. Qed.

Lemma trimStart_all_whitespace s : all_whitespace s = true -> Js.trimStart s = "".
Proof.
  induction s as [|c r IH]; simpl; intros H; [reflexivity|].
  apply andb_prop in H as [Hc Hr]. rewrite Hc. auto.
Qed.

Lemma all_whitespace_lower s :
  all_whitespace s = true -> all_whitespace (Js.toLowerCase s) = true.
Proof.
  induction s as [|c r IH]; simpl; intros H; [reflexivity|].
  apply andb_prop in H as [Hc Hr]. rewrite (IH Hr), andb_true_r.
  revert Hc. destruct c as [[] [] [] [] [] [] [] []]; vm_compute; congruence.
Qed.

Lemma normalised_trim_lower s :
  Js.trim (Js.toLowerCase s) <> "" -> normalised (Js.trim (Js.toLowerCase s)).
Proof.
  intros H. split; [|split]; [|apply trim_idem|exact H].
  apply trim_lower, toLowerCase_idem.
Qed.

Lemma nonempty_length s : (0 <? String.length s)%nat = true <-> s <> "".
Proof.
  destruct s; simpl; split; intros H.
  - discriminate H.
  - now contradiction H.
  - discriminate.
  - reflexivity.
Qed.

(** ** GuildConfig.triggerWords: what the setter stores *)

(** C6, as stated, fails: the setter lower-cases, trims and drops empty
    words but removes no duplicate; two spellings of one word are stored
    twice. *)
Lemma triggerWords_keeps_duplicates :
  GuildConfig.set_triggerWords (Js.Array [Js.Str "a"; Js.Str "A "]) = ["a"; "a"]
  /\ ~ NoDup (GuildConfig.set_triggerWords (Js.Array [Js.Str "a"; Js.Str "A "])).
Proof.
  split; [reflexivity|].
  change (GuildConfig.set_triggerWords (Js.Array [Js.Str "a"; Js.Str "A "]))
    with ["a"; "a"].
  intros H. apply NoDup_cons_1_1 in H. apply H. left.
Qed.

(** C6, amended: for every value written to [triggerWords], the stored list
    holds only lower-cased, trimmed, non-empty strings; duplicates are kept:
    a list of words that are already in that form is stored as it is. *)
Theorem triggerWords_normalised :
  (forall value, Forall normalised (GuildConfig.set_triggerWords value))
  /\ (forall words, Forall normalised words ->
        GuildConfig.set_triggerWords (Js.Array (Js.Str <$> words)) = words).
Proof.
  split.
  - intros value. destruct value as [| | | | |items|]; try constructor.
    unfold GuildConfig.set_triggerWords.
    apply List.Forall_forall. intros w Hw.
    apply List.filter_In in Hw as [Hin Hlen].
    apply List.in_map_iff in Hin as [x [<- _]].
    apply normalised_trim_lower. now apply nonempty_length.
  - intros words H. unfold GuildConfig.set_triggerWords.
    induction H as [|w ws [Hl [Ht Hn]] _ IH]; [reflexivity|].
    cbn [fmap list_fmap List.filter].
    assert (Htruthy : Js.truthy (Js.Str w) && (Js.typeof (Js.Str w) =? "string") = true).
    { simpl. destruct w; [congruence|reflexivity]. }
    rewrite Htruthy. cbn [List.map List.filter Js.chars].
    rewrite Hl, Ht.
    assert (Hlen : (0 <? String.length w)%nat = true) by now apply nonempty_length.
    rewrite Hlen. f_equal. exact IH.
Qed.

Lemma triggerWords_normalised_witness :
  GuildConfig.set_triggerWords (Js.Array (Js.Str <$> ["daily"; "daily"]))
  = ["daily"; "daily"].
Proof.
  apply (proj2 triggerWords_normalised).
  repeat constructor; try reflexivity; discriminate.
Defined.

(** ** Streak.triggerWord: what the setter accepts *)

(** C9: [null], [undefined], every value that is not a string, and the empty
    string are refused; the test comes before the trimming, so a string of
    white space only passes it and is stored as the empty string. *)
Theorem triggerWord_setter :
  let refused := Throw (Error "Error" "Trigger word must be a non-empty string") in
  Streak.set_triggerWord Js.Null = refused
  /\ Streak.set_triggerWord Js.Undefined = refused
  /\ (forall value, Js.typeof value <> "string" -> Streak.set_triggerWord value = refused)
  /\ Streak.set_triggerWord (Js.Str "") = refused
  /\ Streak.set_triggerWord (Js.Str " ") = Ret ""
  /\ (forall s, s <> "" -> all_whitespace s = true ->
        Streak.set_triggerWord (Js.Str s) = Ret "").
Proof.
  cbv zeta. repeat split; try reflexivity.
  - intros value H. unfold Streak.set_triggerWord.
    apply String.eqb_neq in H. now rewrite H, orb_true_r.
  - intros s Hne Hws. unfold Streak.set_triggerWord.
    destruct s as [|c r]; [now contradiction Hne|].
    cbn [Js.truthy Js.typeof Js.chars negb orb String.eqb].
    change (negb (String c r =? "")) with true. cbn [negb orb].
    change ("string" =? "string") with true. cbn [negb orb].
    unfold Js.trim.
    now rewrite (trimStart_all_whitespace _ (all_whitespace_lower _ Hws)).
Qed.

Lemma triggerWord_setter_witness :
  Streak.set_triggerWord (Js.Number 7)
  = Throw (Error "Error" "Trigger word must be a non-empty string")
  /\ Streak.set_triggerWord (Js.Str (String (ascii_of_nat 9) " ")) = Ret "".
Proof.
  destruct triggerWord_setter as (_ & _ & Hother & _ & _ & Hspace).
  split.
  - apply Hother. discriminate.
  - apply Hspace; [discriminate|reflexivity].
Defined.

(** ** A fresh Streak *)

Lemma next_id_above rows r :
  In r rows -> (default 0 (Streak.id r) < Streak.next_id rows)%Z.
Proof.
  unfold Streak.next_id. induction rows as [|r0 rows IH]; [intros []|].
  cbn [List.fold_right]. intros [->|Hin]; [lia|]. specialize (IH Hin). lia.
Qed.

Lemma next_id_fresh rows v :
  Streak.violates rows (Streak.set_id v (Streak.next_id rows)) = false.
Proof.
  unfold Streak.violates.
  change (Streak.unique_keys Streak.definition) with [["id"]].
  cbn [existsb]. rewrite orb_false_r.
  apply not_true_is_false. intros H.
  apply List.existsb_exists in H as [r [Hr Heq]].
  apply bool_decide_eq_true in Heq. unfold Streak.key_of in Heq.
  cbn [List.map] in Heq. injection Heq as Heq.
  change (Streak.getDataValue r "id") with (SqlInt <$> Streak.id r) in Heq.
  change (Streak.getDataValue (Streak.set_id v (Streak.next_id rows)) "id")
    with (Some (SqlInt (Streak.next_id rows))) in Heq.
  pose proof (next_id_above rows r Hr) as Hlt.
  destruct (Streak.id r) as [n|]; [|discriminate].
  cbn in Heq, Hlt. injection Heq as Heq. lia.
Qed.

(** C8: creating a Streak with nothing but its key succeeds for every word
    the accessor accepts, and the record, appended to the table, has count 1,
    bestStreak 1, streakStreak 0 and no lastStreakDate. *)
Theorem fresh_streak_defaults now rows g u word :
  word <> "" ->
  exists s,
    Streak.create now rows g u (Js.Str word) Streak.nothing_given
    = Ret (Some (rows ++ [Streak.dataValues s], s))
    /\ Streak.count (Streak.dataValues s) = 1%Z
    /\ Streak.bestStreak (Streak.dataValues s) = 1%Z
    /\ Streak.streakStreak (Streak.dataValues s) = 0%Z
    /\ Streak.lastStreakDate (Streak.dataValues s) = None.
Proof.
  intros Hword. unfold Streak.create, Streak.build, Streak.set_triggerWord.
  assert (Hok : negb (Js.truthy (Js.Str word))
                || negb (Js.typeof (Js.Str word) =? "string") = false).
  { destruct word; [now contradiction Hword|reflexivity]. }
  rewrite Hok. unfold Streak.save, Streak.beforeSave.
  change (Streak.changed _ "count") with false. cbn [andb Streak.isNewRecord].
  unfold Streak.insert. cbn [Streak.dataValues Streak.id].
  rewrite next_id_fresh.
  match goal with |- exists s, Ret (Some (_, ?b)) = _ /\ _ => exists b end.
  split; [reflexivity|]. cbn. repeat split.
Qed.

Lemma fresh_streak_defaults_witness :
  exists s,
    Streak.create 0 [] "guild" "user" (Js.Str "Daily ") Streak.nothing_given
    = Ret (Some ([Streak.dataValues s], s))
    /\ Streak.count (Streak.dataValues s) = 1%Z
    /\ Streak.bestStreak (Streak.dataValues s) = 1%Z.
Proof.
  assert (Hword : "Daily " <> "") by discriminate.
  destruct (fresh_streak_defaults 0 [] "guild" "user" "Daily " Hword)
    as (s & Hcreate & Hcount & Hbest & _).
  exists s. split; [exact Hcreate|]. split; [exact Hcount|exact Hbest].
Defined.

(** ** Uniqueness in the Streaks table *)

(** C2, as stated, fails: the model declares no unique index over
    (guildId, userId, triggerWord), so creating a Streak twice for one guild,
    user and word stores two rows. *)
Lemma streak_triple_stored_twice :
  Streak.create 0 [] "guild" "user" (Js.Str "daily") Streak.nothing_given
  = Ret (Some ([daily 1], Streak.loaded (daily 1)))
  /\ Streak.create 0 [daily 1] "guild" "user" (Js.Str "daily") Streak.nothing_given
     = Ret (Some ([daily 1; daily 2], Streak.loaded (daily 2)))
  /\ triple_of (daily 1) = triple_of (daily 2)
  /\ daily 1 <> daily 2.
Proof. repeat split; discriminate. Qed.

Lemma update_ids rows streak :
  Streak.id <$> Streak.update rows streak = Streak.id <$> rows.
Proof.
  unfold Streak.update. induction rows as [|r rows IH]; [reflexivity|].
  cbn [List.map fmap list_fmap]. f_equal; [|exact IH].
  case_bool_decide; reflexivity.
Qed.

Lemma violates_id rows v :
  Streak.violates rows v = false -> Streak.id v ∉ (Streak.id <$> rows).
Proof.
  unfold Streak.violates.
  change (Streak.unique_keys Streak.definition) with [["id"]].
  cbn [existsb]. rewrite orb_false_r. intros H Hin.
  apply list_elem_of_fmap in Hin as [r [Hid Hr]].
  apply list_elem_of_In in Hr.
  assert (Hex : existsb (fun r => bool_decide (Streak.key_of ["id"] r = Streak.key_of ["id"] v))
                  rows = true).
  { apply List.existsb_exists. exists r. split; [exact Hr|].
    apply bool_decide_eq_true. unfold Streak.key_of. cbn [List.map].
    unfold Streak.getDataValue. cbn. now rewrite Hid. }
  congruence.
Qed.

Lemma save_ids rows s rows' s' :
  Streak.save rows s = Some (rows', s') ->
  NoDup (Streak.id <$> rows) -> NoDup (Streak.id <$> rows').
Proof.
  unfold Streak.save.
  destruct (Streak.isNewRecord (Streak.beforeSave s)).
  - destruct (Streak.insert rows (Streak.dataValues (Streak.beforeSave s)))
      as [[rows1 v1]|] eqn:Hins; [|discriminate].
    intros H. injection H as <- _. intros Hnd. revert Hins. unfold Streak.insert.
    match goal with |- context [Streak.violates ?a ?b] =>
      destruct (Streak.violates a b) eqn:Hv end; [discriminate|].
    intros H. injection H as <- _.
    rewrite fmap_app. apply NoDup_app. split; [exact Hnd|]. split.
    + intros x Hx Hx'. apply list_elem_of_singleton in Hx'. subst x.
      now apply violates_id in Hv.
    + apply NoDup_singleton.
  - intros H. injection H as <- _. now rewrite update_ids.
Qed.

(** C2, amended: the only uniqueness constraint of the Streaks table is its
    primary key: after any series of saves no two rows share an [id]. *)
Theorem streak_id_unique :
  Streak.unique_keys Streak.definition = [["id"]]
  /\ forall todo, NoDup (Streak.id <$> saves [] todo).
Proof.
  split; [reflexivity|].
  intros todo. assert (H : NoDup (Streak.id <$> [])) by constructor.
  revert H. generalize (@nil Streak.values).
  induction todo as [|s rest IH]; intros rows H; [exact H|].
  cbn [saves]. destruct (Streak.save rows s) as [[rows' s']|] eqn:E.
  - apply IH. now apply (save_ids _ _ _ _ E).
  - now apply IH.
Qed.

(** ** The raid's progressive bonus *)




(** ** withRetry *)

Lemma invocations_cons e log :
  invocations (e :: log)
  = ((match e with Invoked _ => 1 | _ => 0 end) + invocations log)%nat.
Proof. unfold invocations. cbn. now destruct e. Qed.

(** [retryOnError] answers true for the four connection errors and for no
    other error; it throws for a thrown [undefined]. *)
Lemma retryOnError_spec e :
  retryConfig.retryOnError e
  = match e with
    | Error name message => Ret (@transient unit unit (Throw e, tt))
    | ThrownUndefined =>
        Throw (Error "TypeError" "Cannot read properties of undefined (reading 'name')")
    end.
Proof.
  destruct e as [|name message]; [reflexivity|].
  unfold retryConfig.retryOnError, transient. cbn [error_name fst]. f_equal.
  case_bool_decide as Hin.
  - rewrite !elem_of_cons in Hin.
    destruct Hin as [->|[->|[->|[->|Hin]]]]; try reflexivity.
    now apply elem_of_nil in Hin.
  - rewrite !elem_of_cons in Hin.
    destruct (String.eqb_spec name "SequelizeConnectionError"); [tauto|].
    destruct (String.eqb_spec name "SequelizeConnectionRefusedError"); [tauto|].
    destruct (String.eqb_spec name "SequelizeHostNotFoundError"); [tauto|].
    destruct (String.eqb_spec name "SequelizeHostNotReachableError"); [tauto|].
    reflexivity.
Qed.

Lemma transient_outcome {S A} (e : thrown) (s : S) :
  @transient S A (Throw e, s) = @transient unit unit (Throw e, tt).
Proof. reflexivity. Qed.

Lemma retry_loop_spec {S A} (operation : S -> outcome A * S) maxRetries :
  forall remaining attempt lastError s r s' log,
    (attempt + remaining = maxRetries + 1)%nat -> (1 <= remaining)%nat ->
    retry_loop operation maxRetries attempt remaining lastError s = (r, s', log) ->
    let tries := attempts operation remaining s in
    (1 <= invocations log <= remaining)%nat
    /\ (exists last, tries !! (invocations log - 1)%nat = Some (last, s')
                     /\ r = handed_on last
                     /\ ((invocations log < remaining)%nat ->
                         transient (last, s') = false))
    /\ (forall j o, (j < invocations log - 1)%nat -> tries !! j = Some o ->
          transient o = true)
    /\ waits log
       = (fun j => (retryConfig.retryDelay * Z.of_nat j)%Z)
           <$> seq attempt (invocations log - 1).
Proof.
  induction remaining as [|k IH]; intros attempt lastError s r s' log Hsum Hpos;
    [lia|].
  cbn [retry_loop attempts]. destruct (operation s) as [[a|e] s1] eqn:Hop; cbn [snd].
  { intros H. injection H as <- <- <-. cbn.
    split; [lia|]. split; [|split; [intros j o Hj; lia|reflexivity]].
    exists (Ret a). split; [reflexivity|]. split; reflexivity. }
  rewrite retryOnError_spec. destruct e as [|name message].
  { intros H. injection H as <- <- <-. cbn.
    split; [lia|]. split; [|split; [intros j o Hj; lia|reflexivity]].
    exists (Throw ThrownUndefined). split; [reflexivity|]. split; reflexivity. }
  rewrite <- (transient_outcome (A := A) (Error name message) s1).
  destruct (transient (Throw (Error name message), s1)) eqn:Htransient; cycle 1.
  { intros H. injection H as <- <- <-. cbn.
    split; [lia|]. split; [|split; [intros j o Hj; lia|reflexivity]].
    exists (Throw (Error name message)). split; [reflexivity|].
    split; [reflexivity|]. intros _. exact Htransient. }
  destruct (Nat.ltb_spec attempt maxRetries) as [Hlt|Hge]; cycle 1.
  { intros H. injection H as <- <- <-. cbn.
    split; [lia|]. split; [|split; [intros j o Hj; lia|reflexivity]].
    exists (Throw (Error name message)). split; [reflexivity|].
    split; [reflexivity|]. intros Hlt. lia. }
  destruct (retry_loop operation maxRetries (attempt + 1) k (Error name message) s1)
    as [[r1 s2] log1] eqn:Hrec.
  intros H. injection H as <- <- <-.
  destruct (IH (attempt + 1)%nat (Error name message) s1 r1 s2 log1
              ltac:(lia) ltac:(lia) Hrec)
    as (Hinv & (last & Hlast & Hr & Hstop) & Hearlier & Hwaits).
  rewrite !invocations_cons, !Nat.add_0_l.
  replace (1 + invocations log1 - 1)%nat with (Datatypes.S (invocations log1 - 1)) by lia.
  split; [lia|]. split; [|split].
  - exists last. split; [exact Hlast|]. split; [exact Hr|].
    intros Hlt'. apply Hstop. lia.
  - intros [|j] o Hj Ho.
    + injection Ho as <-. exact Htransient.
    + apply (Hearlier j o); [lia|exact Ho].
  - cbn [waits omap list_omap]. fold (waits log1). rewrite Hwaits.
    replace (invocations log1) with (Datatypes.S (invocations log1 - 1)) at 2 by lia.
    cbn [seq fmap list_fmap]. rewrite Nat.add_1_r.
    replace (Datatypes.S (invocations log1 - 1) - 1)%nat with (invocations log1 - 1)%nat
      by lia.
    reflexivity.
Qed.

(** C7: [withRetry] invokes the operation at most [maxRetries] times, three
    as configured.  The failures it retries are the transient ones, those
    thrown under one of the four names of a connection error, and no others:
    every invocation but the last failed with such an error, and it stops
    before the last attempt only on a success or on a failure that is not
    transient.  What it hands to its caller is the outcome of the last
    invocation, after [maxRetries] transient failures the last error, thrown
    at once; only a thrown [undefined] is replaced, by the TypeError of
    reading its name, at once as well.  Between two attempts it waits
    [retryDelay], 1000 ms, times the number of the attempt that failed. *)
Theorem withRetry_bounded_linear :
  retryConfig.maxRetries = 3%nat /\ retryConfig.retryDelay = 1000%Z
  /\ (forall e, retryConfig.retryOnError e = Ret true <->
        exists name message,
          e = Error name message
          /\ In name ["SequelizeConnectionError"; "SequelizeConnectionRefusedError";
                      "SequelizeHostNotFoundError"; "SequelizeHostNotReachableError"])
  /\ forall (S A : Type) (operation : S -> outcome A * S) (maxRetries : nat) (s : S),
       (1 <= maxRetries)%nat ->
       let '(r, s', log) := withRetry operation maxRetries s in
       let tries := attempts operation maxRetries s in
       (1 <= invocations log <= maxRetries)%nat
       /\ (exists last, tries !! (invocations log - 1)%nat = Some (last, s')
                        /\ r = handed_on last
                        /\ ((invocations log < maxRetries)%nat ->
                            transient (last, s') = false))
       /\ (forall j o, (j < invocations log - 1)%nat -> tries !! j = Some o ->
             transient o = true)
       /\ waits log
          = (fun j => (retryConfig.retryDelay * Z.of_nat j)%Z)
              <$> seq 1 (invocations log - 1).
Proof.
  split; [reflexivity|]. split; [reflexivity|]. split.
  { intros e. rewrite retryOnError_spec. destruct e as [|name message].
    - split; [discriminate|]. intros (n & m & H & _). discriminate.
    - unfold transient. cbn [fst]. split.
      + intros H. injection H as H. apply bool_decide_eq_true in H.
        exists name, message. split; [reflexivity|]. now apply list_elem_of_In.
      + intros (n & m & H & Hin). injection H as -> ->. f_equal.
        apply bool_decide_eq_true. now apply list_elem_of_In. }
  intros S A operation maxRetries s Hpos. unfold withRetry.
  destruct (retry_loop operation maxRetries 1 maxRetries ThrownUndefined s)
    as [[r s'] log] eqn:Hrun.
  apply (retry_loop_spec operation maxRetries maxRetries 1%nat ThrownUndefined s r s' log);
    [lia|exact Hpos|exact Hrun].
Qed.

Lemma withRetry_bounded_linear_witness :
  let down (n : nat) := (@Throw unit (Error "SequelizeConnectionRefusedError" "down"), n) in
  waits (snd (withRetry down retryConfig.maxRetries 0%nat)) = [1000%Z; 2000%Z]
  /\ transient (down 0%nat) = true.
Proof.
  cbv zeta.
  assert (Hpos : (1 <= retryConfig.maxRetries)%nat) by (vm_compute; lia).
  assert (H := proj2 (proj2 (proj2 withRetry_bounded_linear)) nat unit
                 (fun n : nat => (@Throw unit (Error "SequelizeConnectionRefusedError" "down"), n))
                 retryConfig.maxRetries 0%nat Hpos).
  cbv beta iota zeta in H. split.
  - exact (proj2 (proj2 (proj2 H))).
  - apply (proj1 (proj2 (proj2 H)) 0%nat); [vm_compute; lia|reflexivity].
Defined.

(** ** The rules of the program logic *)

Lemma hoare_ret {A} (P : world -> Prop) (a : A) Q E :
  (forall w, P w -> Q a w) -> hoare P (ret a) Q E.
Proof. intros H w Hw. now apply H. Qed.

Lemma hoare_throw {A} (P : world -> Prop) e (Q : A -> world -> Prop) E :
  (forall w, P w -> E e w) -> hoare P (throw e) Q E.
Proof. intros H w Hw. now apply H. Qed.

Lemma hoare_bind {A B} P (m : M A) (f : A -> M B) R Q E :
  hoare P m R E -> (forall a, hoare (R a) (f a) Q E) -> hoare P (bind m f) Q E.
Proof.
  intros Hm Hf w Hw. unfold bind. specialize (Hm w Hw).
  destruct (m w) as [[a|e] w']; [now apply Hf|exact Hm].
Qed.

Lemma hoare_try {A} P (m : M A) handler Q R E :
  hoare P m Q R -> (forall e, hoare (R e) (handler e) Q E) ->
  hoare P (try_catch m handler) Q E.
Proof.
  intros Hm Hh w Hw. unfold try_catch. specialize (Hm w Hw).
  destruct (m w) as [[a|e] w']; [exact Hm|now apply Hh].
Qed.

Lemma hoare_weaken {A} (P P' : world -> Prop) (m : M A) (Q Q' : A -> world -> Prop)
  (E E' : thrown -> world -> Prop) :
  hoare P' m Q' E' ->
  (forall w, P w -> P' w) -> (forall a w, Q' a w -> Q a w) -> (forall e w, E' e w -> E e w) ->
  hoare P m Q E.
Proof.
  intros H HP HQ HE w Hw. specialize (H w (HP w Hw)).
  destruct (m w) as [[a|e] w']; auto.
Qed.

Lemma hoare_pre {A} (P P' : world -> Prop) (m : M A) Q E :
  hoare P' m Q E -> (forall w, P w -> P' w) -> hoare P m Q E.
Proof. intros H HP. eapply hoare_weaken; eauto. Qed.

(** A specification proved from each starting world serves any
    precondition. *)
Lemma hoare_from {A} (P : world -> Prop) (m : M A) Q E
  (Q0 : world -> A -> world -> Prop) (E0 : world -> thrown -> world -> Prop) :
  (forall w0, hoare (eq w0) m (Q0 w0) (E0 w0)) ->
  (forall w0 a w, P w0 -> Q0 w0 a w -> Q a w) ->
  (forall w0 e w, P w0 -> E0 w0 e w -> E e w) ->
  hoare P m Q E.
Proof.
  intros H HQ HE w Hw. specialize (H w w eq_refl).
  destruct (m w) as [[a|e] w']; eauto.
Qed.

Lemma hoare_get P Q E :
  (forall w, P w -> Q w w) -> hoare P get Q E.
Proof. intros H w Hw. now apply H. Qed.

(** A loop whose invariant records the items done so far. *)
Lemma hoare_for_of {X} (items : list X) (body : X -> M unit)
  (J : list X -> world -> Prop) E :
  (forall done x, In x items -> hoare (J done) (body x) (fun _ => J (x :: done)) E) ->
  forall done, hoare (J done) (for_of items body) (fun _ => J (rev items ++ done)) E.
Proof.
  induction items as [|x rest IH]; intros Hbody done.
  - apply hoare_ret. auto.
  - cbn [for_of]. eapply hoare_bind.
    + apply Hbody. now left.
    + intros []. eapply hoare_weaken.
      * apply (IH (fun d y Hy => Hbody d y (or_intror Hy)) (x :: done)).
      * auto.
      * intros [] w Hw. cbn [rev]. now rewrite <- app_assoc.
      * auto.
Qed.

(** *** What each primitive does *)

Lemma keeps_refl w : keeps w w.
Proof. repeat split. Qed.

Lemma tally_emit (p : event -> bool) w e :
  List.length (List.filter p (trace (snd (emit e w))))
  = (List.length (List.filter p (trace w)) + if p e then 1 else 0)%nat.
Proof.
  cbn. rewrite List.filter_app, List.length_app. cbn. now destruct (p e).
Qed.

Lemma emit_uncounted e w :
  is_addition e = false -> is_change e = false -> is_completion e = false ->
  keeps w (snd (emit e w)).
Proof.
  intros Ha Hc Hd. unfold keeps, same_counts, additions, changes, completions.
  rewrite !tally_emit, Ha, Hc, Hd, !Nat.add_0_r. repeat split.
Qed.

Lemma sp_console line w0 :
  is_completion (Console line) = false ->
  hoare (eq w0) (console line) (fun _ w => keeps w0 w) (fun _ _ => False).
Proof. intros H w Hw. subst w. now apply emit_uncounted. Qed.

Lemma sp_request w0 :
  hoare (eq w0) request (fun _ w => keeps w0 w) (fun _ w => keeps w0 w).
Proof.
  intros w Hw. subst w. unfold request.
  destruct (faults w0) as [|[e|] rest]; repeat split.
Qed.

Ltac run_primitive w0 :=
  let w := fresh "w" in
  let Hw := fresh "Hw" in
  intros w Hw; subst w;
  unfold begin_transaction, commit, rollback, checkTableExists, checkColumnExists,
    backupTable, query_in_transaction, query_committed, console,
    bind, try_catch, request, get, set_transaction, set_committed, emit, ret, throw;
  cbn [committed transaction trace faults].

Ltac counted :=
  unfold keeps, same_counts, additions, changes, completions;
  cbn [committed transaction trace faults];
  rewrite ?List.filter_app, ?List.length_app;
  cbn; rewrite ?Nat.add_0_r; repeat split; auto.

Lemma sp_begin w0 :
  hoare (eq w0) begin_transaction
    (fun _ w => committed w = committed w0 /\ transaction w = Open (committed w0)
                /\ same_counts w0 w)
    (fun _ w => keeps w0 w).
Proof. run_primitive w0. destruct (faults w0) as [|[e|] rest]; counted. Qed.

Lemma sp_checkTableExists tableName w0 :
  hoare (eq w0) (checkTableExists tableName)
    (fun b w => keeps w0 w /\ (b = true -> is_Some (committed w0 !! tableName)))
    (fun _ _ => False).
Proof.
  run_primitive w0. destruct (faults w0) as [|[e|] rest]; counted;
    try (intros H; now apply bool_decide_eq_true in H); discriminate.
Qed.

Lemma sp_checkColumnExists tableName columnName w0 :
  hoare (eq w0) (checkColumnExists tableName columnName)
    (fun b w => keeps w0 w /\ (b = true -> has_column (committed w0) tableName columnName))
    (fun _ _ => False).
Proof.
  run_primitive w0. unfold has_column.
  destruct (faults w0) as [|[e|] rest]; counted; try discriminate;
    destruct (committed w0 !! tableName) as [t|]; try discriminate;
    intros H; apply bool_decide_eq_true in H; eauto.
Qed.

Lemma sp_backupTable tableName w0 :
  hoare (eq w0) (backupTable tableName) (fun _ w => keeps w0 w) (fun _ w => keeps w0 w).
Proof.
  run_primitive w0.
  destruct (transaction w0) as [|view|]; cbn; try counted.
  destruct (faults w0) as [|[e|] rest]; cbn; try counted;
    destruct (view !! tableName); counted.
Qed.

Lemma sp_query_in_transaction statement done w0 :
  is_completion done = false ->
  hoare (eq w0) (query_in_transaction statement done)
    (fun _ w => exists view view',
       transaction w0 = Open view /\ statement view = Some view'
       /\ transaction w = Open view' /\ committed w = committed w0
       /\ completions w = completions w0
       /\ additions w = (additions w0 + if is_addition done then 1 else 0)%nat)
    (fun _ w => keeps w0 w).
Proof.
  intros Hdone. run_primitive w0.
  destruct (transaction w0) as [|view|] eqn:Ht; cbn; try counted.
  destruct (faults w0) as [|[e|] rest]; cbn; try counted;
    destruct (statement view) as [view'|] eqn:Hs; cbn; try counted;
    exists view, view'; counted;
    rewrite ?Hdone; cbn; try lia; destruct (is_addition done); cbn; lia.
Qed.

Lemma sp_commit w0 :
  hoare (eq w0) commit
    (fun _ w => exists view, transaction w0 = Open view /\ committed w = view
                             /\ transaction w = Finished /\ same_counts w0 w)
    (fun _ w => committed w = committed w0 /\ same_counts w0 w
                /\ (transaction w = Finished \/ transaction w = transaction w0)).
Proof.
  run_primitive w0.
  destruct (transaction w0) as [|view|] eqn:Ht; cbn; try counted.
  destruct (faults w0) as [|[e|] rest]; cbn; try counted; exists view; counted.
Qed.

Lemma sp_rollback w0 :
  hoare (eq w0) rollback
    (fun _ w => committed w = committed w0 /\ same_counts w0 w
                /\ transaction w = Finished)
    (fun _ w => committed w = committed w0 /\ same_counts w0 w
                /\ (transaction w = Finished \/ transaction w = transaction w0)).
Proof.
  run_primitive w0.
  destruct (transaction w0) as [|view|] eqn:Ht; cbn; try counted.
  destruct (faults w0) as [|[e|] rest]; cbn; counted.
Qed.

Lemma sp_query_committed statement done w0 :
  is_completion done = false -> is_addition done = false ->
  hoare (eq w0) (query_committed statement done)
    (fun _ w => exists db, statement (committed w0) = Some db /\ committed w = db
                           /\ transaction w = transaction w0
                           /\ completions w = completions w0
                           /\ additions w = additions w0)
    (fun _ w => keeps w0 w).
Proof.
  intros Hdone Hadd. run_primitive w0.
  destruct (faults w0) as [|[e|] rest]; cbn; try counted;
    destruct (statement (committed w0)) as [db|] eqn:Hs; cbn; try counted;
    exists db; counted; rewrite ?Hdone, ?Hadd; cbn; lia.
Qed.

(** ** Schemas *)

Lemma extends_refl db : extends db db.
Proof. intros t c H. exact H. Qed.

Lemma extends_trans db1 db2 db3 : extends db1 db2 -> extends db2 db3 -> extends db1 db3.
Proof. intros H12 H23 t c H. auto. Qed.

Lemma add_column_has tableName columnName type db db' :
  add_column tableName columnName type db = Some db' ->
  has_column db' tableName columnName.
Proof.
  unfold add_column, has_column.
  destruct (db !! tableName) as [t|]; [|discriminate].
  case_bool_decide as Hnew; [discriminate|]. intros Heq. injection Heq as <-.
  eexists. rewrite lookup_insert_eq. split; [reflexivity|].
  cbn. apply elem_of_app. right. apply list_elem_of_singleton. reflexivity.
Qed.

Lemma add_column_extends tableName columnName type db db' :
  add_column tableName columnName type db = Some db' -> extends db db'.
Proof.
  unfold add_column, extends, has_column.
  destruct (db !! tableName) as [t|] eqn:Ht; [|discriminate].
  case_bool_decide as Hnew; [discriminate|]. intros Heq. injection Heq as <-.
  intros t' c [tb [Htb Hc]].
  destruct (decide (tableName = t')) as [->|Hne].
  - rewrite Ht in Htb. injection Htb as <-.
    eexists. rewrite lookup_insert_eq. split; [reflexivity|].
    cbn. apply elem_of_app. now left.
  - exists tb. now rewrite lookup_insert_ne.
Qed.

Lemma add_column_present tableName columnName type db :
  has_column db tableName columnName -> add_column tableName columnName type db = None.
Proof.
  intros [t [Ht Hc]]. unfold add_column. rewrite Ht.
  case_bool_decide; [reflexivity|contradiction].
Qed.

Lemma update_bestStreak_extends db db' :
  update_bestStreak db = Some db' -> extends db db'.
Proof.
  unfold update_bestStreak, extends, has_column.
  destruct (db !! "Streaks") as [t|] eqn:Ht; [|discriminate].
  destruct (_ && _); [|discriminate]. intros H. injection H as <-.
  intros t' c [tb [Htb Hc]].
  destruct (decide ("Streaks" = t')) as [<-|Hne].
  - rewrite Ht in Htb. injection Htb as <-.
    eexists. rewrite lookup_insert_eq. split; [reflexivity|exact Hc].
  - exists tb. now rewrite lookup_insert_ne.
Qed.

Lemma fix_bestStreak_covers r : row_best_covers_count (fix_bestStreak r).
Proof.
  unfold fix_bestStreak, row_best_covers_count.
  destruct (r !! "bestStreak") as [[|b| | | |]|] eqn:Hb;
    try (intros b' c' H1 H2; congruence).
  destruct (r !! "count") as [[|c| | | |]|] eqn:Hc;
    try (intros b' c' H1 H2; congruence).
  destruct (Z.ltb_spec b c) as [Hlt|Hge]; intros b' c' H1 H2.
  - rewrite lookup_insert_eq in H1. rewrite lookup_insert_ne in H2 by discriminate.
    assert (b' = c) by congruence. assert (c' = c) by congruence. lia.
  - assert (b' = b) by congruence. assert (c' = c) by congruence. lia.
Qed.

Lemma update_bestStreak_fixed db db' :
  update_bestStreak db = Some db' -> streaks_fixed db'.
Proof.
  unfold update_bestStreak, streaks_fixed.
  destruct (db !! "Streaks") as [t|] eqn:Ht; [|discriminate].
  destruct (bool_decide ("bestStreak" ∈ columns t)) eqn:Hb; [|discriminate].
  destruct (bool_decide ("count" ∈ columns t)) eqn:Hc; [|discriminate].
  cbn. intros H. injection H as <-. intros t'. rewrite lookup_insert_eq.
  intros H. injection H as <-. cbn.
  apply bool_decide_eq_true in Hb, Hc. split; [exact Hb|]. split; [exact Hc|].
  apply List.Forall_forall. intros r Hr.
  apply list_elem_of_In, list_elem_of_fmap in Hr as [r0 [-> _]].
  apply fix_bestStreak_covers.
Qed.

Lemma add_column_fixed tableName columnName type db db' :
  add_column tableName columnName type db = Some db' ->
  streaks_fixed db -> streaks_fixed db'.
Proof.
  unfold add_column, streaks_fixed.
  destruct (db !! tableName) as [t|] eqn:Ht; [|discriminate].
  case_bool_decide as Hnew; [discriminate|]. intros Heq. injection Heq as <-.
  intros Hfix t'.
  destruct (decide (tableName = "Streaks")) as [->|Hne].
  - rewrite lookup_insert_eq. intros H. injection H as <-. cbn.
    destruct (Hfix t Ht) as (Hb & Hc & Hrows).
    split; [apply elem_of_app; now left|].
    split; [apply elem_of_app; now left|].
    apply List.Forall_forall. intros r Hr.
    apply list_elem_of_In, list_elem_of_fmap in Hr as [r0 [-> Hr0]].
    apply list_elem_of_In in Hr0.
    assert (H0 := proj1 (List.Forall_forall _ _) Hrows r0 Hr0).
    intros b c H1 H2.
    rewrite lookup_insert_ne in H1 by (intros ->; contradiction).
    rewrite lookup_insert_ne in H2 by (intros ->; contradiction).
    eauto.
  - rewrite lookup_insert_ne by exact Hne. apply Hfix.
Qed.

Lemma delete_from_extends tableName db db' :
  delete_from tableName db = Some db' -> extends db db' /\ extends db' db.
Proof.
  unfold delete_from, extends, has_column.
  destruct (db !! tableName) as [t|] eqn:Ht; [|discriminate].
  intros H. injection H as <-.
  split; intros t' c [tb [Htb Hc]];
    (destruct (decide (tableName = t')) as [<-|Hne];
     [|rewrite ?lookup_insert_ne in * by exact Hne; eauto]).
  - rewrite Ht in Htb. injection Htb as <-.
    eexists. rewrite lookup_insert_eq. split; [reflexivity|exact Hc].
  - rewrite lookup_insert_eq in Htb. injection Htb as <-. eauto.
Qed.

Lemma insert_into_extends tableName cols values db db' :
  insert_into tableName cols values db = Some db' -> extends db db' /\ extends db' db.
Proof.
  unfold insert_into, extends, has_column.
  destruct (db !! tableName) as [t|] eqn:Ht; [|discriminate].
  destruct (forallb _ _); [|discriminate].
  intros H. injection H as <-.
  split; intros t' c [tb [Htb Hc]];
    (destruct (decide (tableName = t')) as [<-|Hne];
     [|rewrite ?lookup_insert_ne in * by exact Hne; eauto]).
  - rewrite Ht in Htb. injection Htb as <-.
    eexists. rewrite lookup_insert_eq. split; [reflexivity|exact Hc].
  - rewrite lookup_insert_eq in Htb. injection Htb as <-. eauto.
Qed.

(** ** Invariants of a run *)

Lemma preserves_ret {A} I (a : A) : preserves I (ret a).
Proof. apply hoare_ret. auto. Qed.

Lemma preserves_throw {A} I e : preserves I (@throw A e).
Proof. apply hoare_throw. auto. Qed.

Lemma preserves_bind {A B} I (m : M A) (f : A -> M B) :
  preserves I m -> (forall a, preserves I (f a)) -> preserves I (bind m f).
Proof. intros Hm Hf. eapply hoare_bind; [exact Hm|exact Hf]. Qed.

Lemma preserves_try {A} I (m : M A) handler :
  preserves I m -> (forall e, preserves I (handler e)) -> preserves I (try_catch m handler).
Proof. intros Hm Hh. eapply hoare_try; [exact Hm|exact Hh]. Qed.

Lemma preserves_for_of {X} I (items : list X) body :
  (forall x, In x items -> preserves I (body x)) -> preserves I (for_of items body).
Proof.
  intros H. unfold preserves.
  apply (hoare_for_of items body (fun _ => I) (fun _ => I) (fun d x Hx => H x Hx) []).
Qed.

Lemma preserves_from {A} (I : world -> Prop) (m : M A)
  (Q0 : world -> A -> world -> Prop) (E0 : world -> thrown -> world -> Prop) :
  (forall w0, hoare (eq w0) m (Q0 w0) (E0 w0)) ->
  (forall w0 a w, I w0 -> Q0 w0 a w -> I w) ->
  (forall w0 e w, I w0 -> E0 w0 e w -> I w) ->
  preserves I m.
Proof. intros H HQ HE. eapply hoare_from; eauto. Qed.

Lemma restored_refl w : restored w w.
Proof. repeat split. Qed.

Lemma restored_keeps w0 w1 w : restored w0 w1 -> keeps w1 w -> restored w0 w.
Proof.
  intros (Ht & Ha & Hc) (Hdb & Ht' & Ha' & _ & Hc').
  unfold restored. rewrite Ht', Ha', Hc'. auto.
Qed.

(** A statement that the server reads with what it makes of spliced text. *)
Lemma sp_query_server
  (statement : (string -> gmap string table -> option (gmap string table)) ->
               gmap string table -> option (gmap string table)) done w0 :
  is_completion done = false -> is_addition done = false ->
  hoare (eq w0) (w <- get ;; query_committed (statement (server w)) done)
    (fun _ w => exists db, statement (server w0) (committed w0) = Some db
                           /\ committed w = db
                           /\ transaction w = transaction w0
                           /\ completions w = completions w0
                           /\ additions w = additions w0)
    (fun _ w => keeps w0 w).
Proof.
  intros Hdone Hadd w <-. unfold bind, get.
  exact (sp_query_committed (statement (server w0)) done w0 Hdone Hadd w0 eq_refl).
Qed.

Lemma sp_restoreFromBackup backup tableName w0 :
  hoare (eq w0) (restoreFromBackup backup tableName)
    (fun _ w => restored w0 w) (fun _ w => restored w0 w).
Proof.
  eapply hoare_weaken with (P' := restored w0);
    [|intros w <-; apply restored_refl|intros a w H; exact H|intros e w H; exact H].
  unfold restoreFromBackup. apply preserves_try.
  - apply preserves_bind.
    + eapply preserves_from; [intros w1; apply sp_query_committed; reflexivity| |].
      * intros w1 [] w (Ht & Ha & Hc) (db & _ & _ & Ht' & Hc' & Ha').
        unfold restored. rewrite Ht', Ha', Hc'. auto.
      * intros w1 e w H1 Hk. eapply restored_keeps; eauto.
    + intros []. destruct backup as [|first rest]; [apply preserves_ret|].
      eapply preserves_from;
        [intros w1;
         apply (sp_query_server
                  (fun srv => insert_spliced srv tableName (keys first) _));
         reflexivity| |].
      * intros w1 [] w (Ht & Ha & Hc) (db & _ & _ & Ht' & Hc' & Ha').
        unfold restored. rewrite Ht', Ha', Hc'. auto.
      * intros w1 e w H1 Hk. eapply restored_keeps; eauto.
  - intros e. apply preserves_bind; [|intros []; apply preserves_throw].
    eapply preserves_from; [intros w1; apply sp_console| |].
    + reflexivity.
    + intros w1 [] w H1 Hk. eapply restored_keeps; eauto.
    + intros w1 e' w H1 [].
Qed.

(** *** A schema that is already migrated stays as it is *)

Lemma settled_keeps a0 w0 w : settled a0 w0 -> keeps w0 w -> settled a0 w.
Proof.
  intros (Ha & Hview) (Hdb' & Ht' & Ha' & _). unfold settled.
  rewrite Ht', Ha'. auto.
Qed.

Lemma migrated_extends db db' : migrated db -> extends db db' -> migrated db'.
Proof. intros H He t c Hin. auto. Qed.

Lemma settled_console a0 line : preserves (settled a0) (console line).
Proof.
  intros w (Ha & Hview). unfold console, emit. cbn.
  repeat split; auto. unfold additions in *. cbn.
  rewrite List.filter_app, List.length_app. cbn. lia.
Qed.

Lemma settled_checkTableExists a0 tableName :
  preserves (settled a0) (checkTableExists tableName).
Proof.
  eapply preserves_from; [intros w0; apply sp_checkTableExists| |].
  - intros w0 b w H [Hk _]. eapply settled_keeps; eauto.
  - intros w0 e w _ [].
Qed.

Lemma settled_checkColumnExists a0 tableName columnName :
  preserves (settled a0) (checkColumnExists tableName columnName).
Proof.
  eapply preserves_from; [intros w0; apply sp_checkColumnExists| |].
  - intros w0 b w H [Hk _]. eapply settled_keeps; eauto.
  - intros w0 e w _ [].
Qed.

Lemma settled_backupTable a0 tableName : preserves (settled a0) (backupTable tableName).
Proof.
  eapply preserves_from; [intros w0; apply sp_backupTable| |];
    intros w0 x w H Hk; eapply settled_keeps; eauto.
Qed.

(** ADD COLUMN for a column that is there is refused. *)
Lemma settled_add_column a0 tableName columnName type :
  In (tableName, columnName) all_columns ->
  preserves (settled a0)
    (query_in_transaction (add_column tableName columnName type)
       (AddedColumn tableName columnName)).
Proof.
  intros Hin. eapply preserves_from; [intros w0; apply sp_query_in_transaction| |].
  - reflexivity.
  - intros w0 [] w (Ha & Hview) (view & view' & Ht & Hs & _).
    rewrite (add_column_present _ _ _ _ (Hview view Ht _ _ Hin)) in Hs. discriminate.
  - intros w0 e w. apply settled_keeps.
Qed.

Lemma settled_update a0 :
  preserves (settled a0) (query_in_transaction update_bestStreak UpdatedBestStreak).
Proof.
  eapply preserves_from; [intros w0; apply sp_query_in_transaction| |].
  - reflexivity.
  - intros w0 [] w (Ha & Hview) (view & view' & Ht & Hs & Ht' & Hdb' & _ & Ha').
    unfold settled. rewrite Ht', Ha'. cbn. split; [lia|].
    intros v Hv. injection Hv as <-.
    eapply migrated_extends; [exact (Hview view Ht)|].
    now apply update_bestStreak_extends.
  - intros w0 e w. apply settled_keeps.
Qed.

Lemma settled_commit a0 : preserves (settled a0) commit.
Proof.
  eapply preserves_from; [apply sp_commit| |].
  - intros w0 [] w (Ha & Hview) (view & Ht & Hdb' & Ht' & Ha' & _).
    unfold settled. rewrite Ht', Ha'. split; [exact Ha|]. discriminate.
  - intros w0 e w (Ha & Hview) (Hdb' & (Ha' & _) & Ht').
    unfold settled. rewrite Ha'. split; [exact Ha|].
    destruct Ht' as [-> | ->]; [discriminate|exact Hview].
Qed.

Lemma settled_rollback a0 : preserves (settled a0) rollback.
Proof.
  eapply preserves_from; [apply sp_rollback| |].
  - intros w0 [] w (Ha & Hview) (Hdb' & (Ha' & _) & Ht').
    unfold settled. rewrite Ha', Ht'. split; [exact Ha|]. discriminate.
  - intros w0 e w (Ha & Hview) (Hdb' & (Ha' & _) & Ht').
    unfold settled. rewrite Ha'. split; [exact Ha|].
    destruct Ht' as [-> | ->]; [discriminate|exact Hview].
Qed.

(** A restore runs outside the transaction and adds no column of its own. *)
Lemma settled_restoreFromBackup a0 backup tableName :
  preserves (settled a0) (restoreFromBackup backup tableName).
Proof.
  eapply preserves_from; [intros w0; apply sp_restoreFromBackup| |];
    intros w0 x w (Ha & Hview) (Ht' & Ha' & _);
    unfold settled; rewrite Ht', Ha'; auto.
Qed.

Ltac settle :=
  repeat match goal with
    | |- preserves _ (bind _ _) => apply preserves_bind; [|intro]
    | |- preserves _ (try_catch _ _) => apply preserves_try; [|intro]
    | |- preserves _ (ret _) => apply preserves_ret
    | |- preserves _ (throw _) => apply preserves_throw
    | |- preserves _ (console _) => apply settled_console
    | |- preserves _ (checkTableExists _) => apply settled_checkTableExists
    | |- preserves _ (checkColumnExists _ _) => apply settled_checkColumnExists
    | |- preserves _ (backupTable _) => apply settled_backupTable
    | |- preserves _ (query_in_transaction update_bestStreak _) => apply settled_update
    | |- preserves _ commit => apply settled_commit
    | |- preserves _ rollback => apply settled_rollback
    | |- preserves _ (restoreFromBackup _ _) => apply settled_restoreFromBackup
    | |- preserves _ (query_in_transaction (add_column _ _ _) _) =>
        apply settled_add_column; cbn; tauto
    | |- preserves _ (if ?b then _ else _) => destruct b
    end.

Lemma settled_migrate_tables a0 : preserves (settled a0) migrate_tables.
Proof.
  unfold migrate_tables. settle.
  - apply preserves_for_of. intros column Hin.
    cbn in Hin. repeat destruct Hin as [<-|Hin]; [..|contradiction]; cbn [name sql_type];
      settle.
  - apply preserves_for_of. intros [columnName columnType] Hin.
    cbn in Hin. repeat destruct Hin as [Heq|Hin]; [..|contradiction];
      injection Heq as <- <-; settle.
Qed.

(** A run enters its [try] with a fresh transaction, whatever was left of an
    earlier one. *)
Lemma begin_then_settled a0 (rest : M unit) :
  preserves (settled a0) rest ->
  hoare (fun w => additions w = a0 /\ migrated (committed w))
    (begin_transaction ;; rest)
    (fun _ w => additions w = a0) (fun _ w => additions w = a0).
Proof.
  intros Hrest. eapply hoare_bind with (R := fun _ => settled a0).
  - eapply hoare_from; [apply sp_begin| |].
    + intros w0 [] w [Ha Hm] (Hdb' & Ht' & Ha' & _). unfold settled.
      rewrite Ht', Ha'. split; [exact Ha|].
      intros view Hv. injection Hv as <-. exact Hm.
    + intros w0 e w [Ha _] (_ & _ & Ha' & _). congruence.
  - intros []. eapply hoare_weaken; [exact Hrest|auto| |]; intros x w H; apply H.
Qed.

(** *** What a completed run has achieved *)

Lemma unfinished_keeps n0 w0 w : unfinished n0 w0 -> keeps w0 w -> unfinished n0 w.
Proof. intros H (_ & _ & _ & _ & Hc). unfold unfinished. now rewrite Hc. Qed.

Lemma underway_keeps n0 ensured fixed w0 w :
  underway n0 ensured fixed w0 -> keeps w0 w -> underway n0 ensured fixed w.
Proof.
  intros (Hn & view & Ht & Hrest) (Hdb & Ht' & _ & _ & Hc). unfold underway.
  rewrite Hdb, Ht', Hc. eauto.
Qed.

Lemma underway_unfinished n0 ensured fixed w :
  underway n0 ensured fixed w -> unfinished n0 w.
Proof. now intros [H _]. Qed.

Lemma unfinished_console n0 line :
  is_completion (Console line) = false -> preserves (unfinished n0) (console line).
Proof.
  intros Hl. eapply preserves_from; [intros w0; now apply sp_console| |].
  - intros w0 [] w. apply unfinished_keeps.
  - intros w0 e w _ [].
Qed.

Lemma unfinished_rollback n0 : preserves (unfinished n0) rollback.
Proof.
  eapply preserves_from; [apply sp_rollback| |];
    intros w0 x w H (_ & (_ & _ & Hc) & _); unfold unfinished; now rewrite Hc.
Qed.

Lemma unfinished_restoreFromBackup n0 backup tableName :
  preserves (unfinished n0) (restoreFromBackup backup tableName).
Proof.
  eapply preserves_from; [intros w0; apply sp_restoreFromBackup| |];
    intros w0 x w H (_ & _ & Hc); unfold unfinished; now rewrite Hc.
Qed.

Lemma unfinished_rollback_and_restore n0 b1 b2 :
  preserves (unfinished n0) (rollback_and_restore b1 b2).
Proof.
  unfold rollback_and_restore.
  repeat match goal with
    | |- preserves _ (bind _ _) => apply preserves_bind; [|intro]
    | |- preserves _ (try_catch _ _) => apply preserves_try; [|intro]
    | |- preserves _ (console _) => apply unfinished_console; reflexivity
    | |- preserves _ rollback => apply unfinished_rollback
    | |- preserves _ (restoreFromBackup _ _) => apply unfinished_restoreFromBackup
    end.
Qed.

Lemma underway_console n0 ensured fixed line E :
  is_completion (Console line) = false ->
  hoare (underway n0 ensured fixed) (console line)
    (fun _ => underway n0 ensured fixed) E.
Proof.
  intros Hl. eapply hoare_from; [intros w0; now apply sp_console| |].
  - intros w0 [] w. apply underway_keeps.
  - intros w0 e w _ [].
Qed.

Lemma underway_checkTableExists n0 ensured fixed tableName E :
  hoare (underway n0 ensured fixed) (checkTableExists tableName)
    (fun _ => underway n0 ensured fixed) E.
Proof.
  eapply hoare_from; [intros w0; apply sp_checkTableExists| |].
  - intros w0 b w H [Hk _]. eapply underway_keeps; eauto.
  - intros w0 e w _ [].
Qed.

Lemma underway_backupTable n0 ensured fixed tableName :
  hoare (underway n0 ensured fixed) (backupTable tableName)
    (fun _ => underway n0 ensured fixed) (fun _ => unfinished n0).
Proof.
  eapply hoare_from; [intros w0; apply sp_backupTable| |].
  - intros w0 b w H Hk. eapply underway_keeps; eauto.
  - intros w0 e w H Hk. eapply unfinished_keeps; eauto using underway_unfinished.
Qed.

(** After the check and the conditional ADD COLUMN the view has the column. *)
Lemma underway_ensure n0 ensured fixed tableName columnName type line :
  is_completion (Console line) = false ->
  hoare (underway n0 ensured fixed)
    (exists_ <- checkColumnExists tableName columnName ;;
     if negb exists_ then
       query_in_transaction (add_column tableName columnName type)
         (AddedColumn tableName columnName) ;;
       console line
     else ret tt)
    (fun _ => underway n0 ((tableName, columnName) :: ensured) fixed)
    (fun _ => unfinished n0).
Proof.
  intros Hl.
  eapply hoare_bind with
    (R := fun b w => underway n0 ensured fixed w
                     /\ (b = true -> has_column (committed w) tableName columnName)).
  { eapply hoare_from; [intros w0; apply sp_checkColumnExists| |].
    - intros w0 b w H [Hk Hb]. split; [eapply underway_keeps; eauto|].
      destruct Hk as [-> _]. exact Hb.
    - intros w0 e w _ []. }
  intros [|]; cbn [negb].
  - apply hoare_ret. intros w [(Hn & view & Ht & Hext & Hens & Hfix) Hb].
    split; [exact Hn|]. exists view.
    split; [exact Ht|]. split; [exact Hext|]. split; [|exact Hfix].
    intros t c [Heq|Hin]; [|auto]. injection Heq as <- <-.
    apply Hext, Hb. reflexivity.
  - eapply hoare_bind with
      (R := fun _ => underway n0 ((tableName, columnName) :: ensured) fixed).
    + eapply hoare_from; [intros w0; apply sp_query_in_transaction; reflexivity| |].
      * intros w0 [] w [(Hn & view & Ht & Hext & Hens & Hfix) _]
          (v & view' & Hv & Hs & Ht' & Hdb' & Hc' & _).
        rewrite Ht in Hv. injection Hv as <-.
        split; [congruence|]. exists view'. rewrite Hdb'.
        assert (Hx := add_column_extends _ _ _ _ _ Hs).
        split; [exact Ht'|]. split; [|split].
        -- eapply extends_trans; eauto.
        -- intros t c [Heq|Hin]; [|auto].
           injection Heq as <- <-. eapply add_column_has; eauto.
        -- intros Hf. eapply add_column_fixed; eauto.
      * intros w0 e w [H _] Hk. eapply unfinished_keeps; eauto using underway_unfinished.
    + intros []. now apply underway_console.
Qed.

Lemma underway_update n0 ensured fixed :
  hoare (underway n0 ensured fixed)
    (query_in_transaction update_bestStreak UpdatedBestStreak)
    (fun _ => underway n0 ensured true) (fun _ => unfinished n0).
Proof.
  eapply hoare_from; [intros w0; apply sp_query_in_transaction; reflexivity| |].
  - intros w0 [] w (Hn & view & Ht & Hext & Hens & Hfix)
      (v & view' & Hv & Hs & Ht' & Hdb' & Hc' & _).
    rewrite Ht in Hv. injection Hv as <-.
    split; [congruence|]. exists view'. rewrite Hdb'.
    assert (Hx := update_bestStreak_extends _ _ Hs).
    split; [exact Ht'|]. split; [|split].
    + eapply extends_trans; eauto.
    + intros t c Hin. auto.
    + intros _. eapply update_bestStreak_fixed; eauto.
  - intros w0 e w H Hk. eapply unfinished_keeps; eauto using underway_unfinished.
Qed.

Lemma underway_commit n0 ensured fixed :
  hoare (underway n0 ensured fixed) commit
    (fun _ w => completions w = n0
                /\ (forall t c, In (t, c) ensured -> has_column (committed w) t c)
                /\ (fixed = true -> streaks_fixed (committed w)))
    (fun _ => unfinished n0).
Proof.
  eapply hoare_from; [apply sp_commit| |].
  - intros w0 [] w (Hn & view & Ht & Hext & Hens & Hfix)
      (v & Hv & Hdb' & _ & _ & _ & Hc').
    rewrite Ht in Hv. injection Hv as <-. rewrite Hdb'.
    split; [congruence|]. auto.
  - intros w0 e w (Hn & _) (_ & (_ & _ & Hc') & _). unfold unfinished. congruence.
Qed.

Lemma console_committed (P : gmap string table -> Prop) line E :
  hoare (fun w => P (committed w)) (console line) (fun _ w => P (committed w)) E.
Proof. intros w Hw. exact Hw. Qed.

Lemma hoare_assoc {A B C} P (m : M A) (f : A -> M B) (g : B -> M C) Q E :
  hoare P (bind (bind m f) g) Q E -> hoare P (bind m (fun a => bind (f a) g)) Q E.
Proof.
  intros H w Hw. specialize (H w Hw). unfold bind in *.
  destruct (m w) as [[a|e] w']; exact H.
Qed.

Lemma all_columns_ensured t c :
  In (t, c) all_columns ->
  In (t, c)
    (((fun c => ("Streaks", fst c)) <$> rev requiredColumns)
     ++ ((fun c => ("Streaks", name c)) <$> rev columnsToAdd)
     ++ [("GuildConfigs", "streakStreakEnabled")]).
Proof.
  intros Hin. cbn in Hin.
  repeat destruct Hin as [Heq|Hin]; [..|contradiction];
    injection Heq as <- <-; cbn; tauto.
Qed.

(** The inner [try]: when it returns, the committed database is migrated and
    its Streaks rows satisfy the invariant; when it throws, the completion
    has not been logged. *)
Lemma migrate_tables_completes n0 :
  hoare (underway n0 [] false) migrate_tables
    (fun _ w => good (committed w)) (fun _ => unfinished n0).
Proof.
  unfold migrate_tables.
  eapply hoare_bind; [now apply underway_console|intros []].
  apply hoare_assoc.
  eapply hoare_bind; [now apply underway_ensure|intros []].
  eapply hoare_bind; [now apply underway_console|intros []].
  eapply hoare_bind.
  { refine (hoare_for_of columnsToAdd _
              (fun done => underway n0
                 (((fun c => ("Streaks", name c)) <$> done)
                  ++ [("GuildConfigs", "streakStreakEnabled")]) false)
              (fun _ => unfinished n0) _ []).
    intros done column _. now apply underway_ensure. }
  intros []. rewrite app_nil_r.
  eapply hoare_bind; [now apply underway_console|intros []].
  eapply hoare_bind; [apply underway_update|intros []].
  eapply hoare_bind.
  { refine (hoare_for_of requiredColumns _
              (fun done => underway n0
                 (((fun c => ("Streaks", fst c)) <$> done)
                  ++ ((fun c => ("Streaks", name c)) <$> rev columnsToAdd)
                  ++ [("GuildConfigs", "streakStreakEnabled")]) true)
              (fun _ => unfinished n0) _ []).
    intros done [columnName columnType] _. now apply underway_ensure. }
  intros []. rewrite app_nil_r.
  eapply hoare_bind; [apply underway_commit|intros []].
  eapply hoare_weaken;
    [apply (console_committed good _ (fun _ => unfinished n0))| |auto|auto].
  intros w (_ & Hcols & Hfix). split; [|now apply Hfix].
  intros t c Hin. now apply Hcols, all_columns_ensured.
Qed.

(** A run either leaves the completion unlogged or ends on a migrated
    database whose Streaks rows satisfy the invariant. *)
Lemma migrateDatabase_completes n0 :
  hoare (unfinished n0) migrateDatabase
    (fun _ => completed_or_unfinished n0) (fun _ => completed_or_unfinished n0).
Proof.
  unfold migrateDatabase.
  eapply hoare_bind with (R := fun _ => underway n0 [] false).
  { eapply hoare_from; [apply sp_begin| |].
    - intros w0 [] w Hn (Hdb & Ht & _ & _ & Hc).
      split; [unfold unfinished in Hn; congruence|].
      exists (committed w0). rewrite Hdb.
      split; [exact Ht|]. split; [apply extends_refl|]. split; [intros t c []|discriminate].
    - intros w0 e w Hn Hk. left. eapply unfinished_keeps; eauto. }
  intros []. eapply hoare_try with (R := fun _ => unfinished n0).
  - eapply hoare_bind; [now apply underway_console|intros []].
    eapply hoare_bind; [apply underway_checkTableExists|intros guildConfigExists].
    eapply hoare_bind; [apply underway_checkTableExists|intros streaksExists].
    destruct (negb guildConfigExists || negb streaksExists).
    + eapply hoare_bind; [now apply underway_console|intros []].
      eapply hoare_weaken; [apply (underway_commit n0 [] false)| | |].
      * intros w H. exact H.
      * intros [] w (Hn & _). now left.
      * intros e w H. exact H.
    + eapply hoare_bind; [now apply underway_console|intros []].
      eapply hoare_bind; [apply underway_backupTable|intros guildConfigBackup].
      eapply hoare_bind; [apply underway_backupTable|intros streaksBackup].
      eapply hoare_try with (R := fun _ => unfinished n0).
      * eapply hoare_weaken; [apply migrate_tables_completes| | |].
        -- intros w H. exact H.
        -- intros [] w H. now right.
        -- intros e w H. exact H.
      * intros e. eapply hoare_weaken;
          [apply (unfinished_rollback_and_restore n0)| | |].
        -- intros w H. exact H.
        -- intros [] w Hn. now left.
        -- intros e' w H. exact H.
  - intros e.
    eapply hoare_weaken with (P' := unfinished n0) (Q' := fun _ => unfinished n0)
      (E' := fun _ => unfinished n0); [|auto|intros a w H; now left|intros x w H; now left].
    apply preserves_bind; [now apply unfinished_console|intros []].
    apply preserves_bind; [apply unfinished_rollback|intros []].
    apply preserves_throw.
Qed.

(** ** The migration, run twice *)

Lemma migrated_run_adds_nothing w :
  migrated (committed w) -> additions (snd (migrateDatabase w)) = additions w.
Proof.
  intros Hdb.
  assert (H : hoare (fun w' => additions w' = additions w /\ migrated (committed w'))
                migrateDatabase
                (fun _ w' => additions w' = additions w)
                (fun _ w' => additions w' = additions w)).
  { unfold migrateDatabase, rollback_and_restore. apply begin_then_settled.
    settle. apply settled_migrate_tables. }
  specialize (H w (conj eq_refl Hdb)).
  destruct (migrateDatabase w) as [[[]|e] w']; exact H.
Qed.

Lemma completed_run_is_good w :
  completions (snd (migrateDatabase w)) <> completions w ->
  good (committed (snd (migrateDatabase w))).
Proof.
  intros Hc. pose proof (migrateDatabase_completes (completions w) w eq_refl) as H.
  destruct (migrateDatabase w) as [[[]|e] w']; cbn [snd] in *;
    destruct H as [H|H]; congruence || exact H.
Qed.

(** C3: on a schema that has every column the migration looks for, a run
    adds no column, whatever the server answers; and a run that logged its
    completion leaves such a schema, so a second run right after it adds
    none. *)
Theorem migration_idempotent :
  (forall w, migrated (committed w) ->
     additions (snd (migrateDatabase w)) = additions w)
  /\ (forall w script,
        let w1 := snd (migrateDatabase w) in
        completions w1 <> completions w ->
        migrated (committed w1)
        /\ additions (snd (migrateDatabase (with_faults script w1))) = additions w1).
Proof.
  split; [exact migrated_run_adds_nothing|].
  intros w script w1 Hc. destruct (completed_run_is_good w Hc) as [Hm _].
  split; [exact Hm|]. now rewrite migrated_run_adds_nothing.
Qed.

Lemma migration_idempotent_witness :
  additions (snd (migrateDatabase world_old_guildConfigs)) = 1%nat
  /\ additions (snd (migrateDatabase
                       (with_faults [] (snd (migrateDatabase world_old_guildConfigs)))))
     = additions (snd (migrateDatabase world_old_guildConfigs)).
Proof.
  split; [reflexivity|].
  apply (proj2 migration_idempotent world_old_guildConfigs []).
  vm_compute. discriminate.
Defined.

(** ** bestStreak and count *)

(** C1, as stated, fails: the hook raises bestStreak only when count has
    changed.  A Streak loaded with count 5 and bestStreak 5, its bestStreak
    set to 3 and saved, is stored with bestStreak 3 below count 5. *)
Lemma lowered_bestStreak_is_stored :
  Streak.save [streak_5_5] (Streak.set_bestStreak (Streak.loaded streak_5_5) 3)
  = Some ([streak_5_3], Streak.loaded streak_5_3)
  /\ ~ best_covers_count streak_5_3.
Proof. split; [reflexivity|]. unfold best_covers_count. cbn. lia. Qed.

Lemma changed_count_set_bestStreak streak n :
  Streak.changed (Streak.set_bestStreak streak n) "count" = Streak.changed streak "count".
Proof.
  unfold Streak.changed, Streak.set_bestStreak, Streak.mark. cbn [Streak._changed].
  destruct (n =? _)%Z; [reflexivity|].
  cbn [existsb]. change ("count" =? "bestStreak") with false. reflexivity.
Qed.

Lemma beforeSave_covers streak :
  Streak.changed streak "count" = true \/ best_covers_count (Streak.dataValues streak) ->
  best_covers_count (Streak.dataValues (Streak.beforeSave streak)).
Proof.
  unfold Streak.beforeSave, best_covers_count.
  destruct (Streak.changed streak "count") eqn:Hch; cbn [andb].
  - intros _. destruct (Z.gtb_spec (Streak.count (Streak.dataValues streak))
                          (Streak.bestStreak (Streak.dataValues streak))); cbn; lia.
  - intros [H|H]; [discriminate|exact H].
Qed.

Lemma insert_covers rows v rows' v' :
  Streak.insert rows v = Some (rows', v') -> best_covers_count v ->
  best_covers_count v' /\ (Forall best_covers_count rows -> Forall best_covers_count rows').
Proof.
  unfold Streak.insert.
  match goal with |- context [Streak.violates ?a ?b] =>
    destruct (Streak.violates a b) end; [discriminate|].
  intros H Hcov. injection H as <- <-.
  assert (Hcov' : best_covers_count
                    match Streak.id v with
                    | Some _ => v
                    | None => Streak.set_id v (Streak.next_id rows)
                    end) by (destruct (Streak.id v); exact Hcov).
  split; [exact Hcov'|]. intros Hrows. apply List.Forall_app. split; [exact Hrows|].
  constructor; [exact Hcov'|constructor].
Qed.

(** The hook leaves an instance in step with its table. *)
Lemma beforeSave_in_step rows streak :
  in_step rows streak -> in_step rows (Streak.beforeSave streak).
Proof.
  intros Hstep. unfold Streak.beforeSave.
  destruct (Streak.changed streak "count"
            && (Streak.count (Streak.dataValues streak)
                >? Streak.bestStreak (Streak.dataValues streak))%Z) eqn:Hfire;
    [|exact Hstep].
  apply andb_prop in Hfire as [_ Hgt]. apply Z.gtb_lt in Hgt.
  intros r Hr Hid. rewrite changed_count_set_bestStreak.
  split; [exact (proj1 (Hstep r Hr Hid))|].
  unfold Streak.changed, Streak.set_bestStreak, Streak.mark. cbn [Streak._changed].
  destruct (Z.eqb_spec (Streak.count (Streak.dataValues streak))
              (Streak.bestStreak (Streak.dataValues streak))) as [Heq|_]; [lia|].
  cbn [existsb]. rewrite String.eqb_refl. discriminate.
Qed.

Lemma written_covers s r :
  ((Streak.changed s "count" = false ->
    Streak.count r = Streak.count (Streak.dataValues s))
   /\ (Streak.changed s "bestStreak" = false ->
       Streak.bestStreak r = Streak.bestStreak (Streak.dataValues s))) ->
  best_covers_count (Streak.dataValues s) -> best_covers_count (Streak.written s r).
Proof.
  intros [Hc Hb] Hcov. unfold best_covers_count, Streak.written in *.
  cbn [Streak.count Streak.bestStreak].
  destruct (Streak.changed s "count"); destruct (Streak.changed s "bestStreak");
    rewrite ?Hc, ?Hb by reflexivity; exact Hcov.
Qed.

Lemma save_covers rows streak rows' s' :
  Streak.save rows streak = Some (rows', s') ->
  Streak.isNewRecord streak = true \/ in_step rows streak ->
  best_covers_count (Streak.dataValues (Streak.beforeSave streak)) ->
  best_covers_count (Streak.dataValues s')
  /\ (Forall best_covers_count rows -> Forall best_covers_count rows').
Proof.
  unfold Streak.save. intros H Hstep Hcov. revert H.
  destruct (Streak.isNewRecord (Streak.beforeSave streak)) eqn:Hnew.
  - destruct (Streak.insert rows (Streak.dataValues (Streak.beforeSave streak)))
      as [[rows1 v1]|] eqn:Hins; [|discriminate].
    intros H. injection H as <- <-. cbn [Streak.dataValues].
    eapply insert_covers; eauto.
  - intros H. injection H as <- <-. split; [exact Hcov|].
    assert (Hstep' : in_step rows (Streak.beforeSave streak)).
    { apply beforeSave_in_step. destruct Hstep as [Hn|Hstep]; [|exact Hstep].
      unfold Streak.beforeSave in Hnew.
      destruct (_ && _) in Hnew; cbn in Hnew; congruence. }
    intros Hrows. unfold Streak.update. apply List.Forall_forall. intros r Hr.
    apply List.in_map_iff in Hr as [r0 [<- Hr0]].
    case_bool_decide as Hid.
    + apply written_covers; [|exact Hcov]. exact (Hstep' r0 Hr0 Hid).
    + exact (proj1 (List.Forall_forall _ _) Hrows r0 Hr0).
Qed.

(** The hypothesis that the instance is in step is needed: [save] writes the
    changed attributes only.  A row that another writer has brought to count
    10, bestStreak 10, saved from an instance loaded at count 5, bestStreak 5
    with its bestStreak set to 7, is stored with count 10 over bestStreak
    7. *)
Lemma stale_instance_is_stored :
  option_map fst (Streak.save [streak_10_10]
                    (Streak.set_bestStreak (Streak.loaded streak_5_5) 7))
  = Some [streak_10_7]
  /\ best_covers_count
       (Streak.dataValues (Streak.set_bestStreak (Streak.loaded streak_5_5) 7))
  /\ ~ best_covers_count streak_10_7.
Proof.
  split; [reflexivity|]. unfold best_covers_count. cbn. lia.
Qed.

(** C1, amended: a save of a new instance, or of one that is in step with
    its row, in which count has changed, or whose values already have
    bestStreak >= count, stores a record with bestStreak >= count and keeps
    a table of such records one; the data fix-up of the migration leaves
    every row of Streaks with bestStreak >= count, and so does a migration
    run that logs its completion. *)
Theorem bestStreak_covers_count :
  (forall rows streak rows' s',
     Streak.save rows streak = Some (rows', s') ->
     Streak.isNewRecord streak = true \/ in_step rows streak ->
     Streak.changed streak "count" = true
     \/ best_covers_count (Streak.dataValues streak) ->
     best_covers_count (Streak.dataValues s')
     /\ (Forall best_covers_count rows -> Forall best_covers_count rows'))
  /\ (forall db db' t,
        update_bestStreak db = Some db' -> db' !! "Streaks" = Some t ->
        Forall row_best_covers_count (rows t))
  /\ (forall w t,
        let w1 := snd (migrateDatabase w) in
        completions w1 <> completions w ->
        committed w1 !! "Streaks" = Some t ->
        Forall row_best_covers_count (rows t)).
Proof.
  split; [|split].
  - intros rows streak rows' s' Hsave Hstep Hpre.
    eapply save_covers; [exact Hsave|exact Hstep|]. now apply beforeSave_covers.
  - intros db db' t Hup Ht. now apply (update_bestStreak_fixed _ _ Hup t Ht).
  - intros w t w1 Hc Ht. destruct (completed_run_is_good w Hc) as [_ Hfix].
    now apply (Hfix t Ht).
Qed.

Lemma bestStreak_covers_count_witness :
  best_covers_count
    (Streak.dataValues (Streak.beforeSave (Streak.set_count (Streak.loaded streak_5_5) 9)))
  /\ (forall t,
        committed (snd (migrateDatabase world_old_guildConfigs)) !! "Streaks" = Some t ->
        Forall row_best_covers_count (rows t)).
Proof.
  destruct bestStreak_covers_count as (Hsave & _ & Hrun). split.
  - apply (Hsave [streak_5_5] (Streak.set_count (Streak.loaded streak_5_5) 9) _ _ eq_refl).
    + right. intros r [<-|[]] _. split; [discriminate|reflexivity].
    + left. reflexivity.
  - intros t. apply (Hrun world_old_guildConfigs t). vm_compute. discriminate.
Defined.

(** ** The migration without its tables *)

Lemma untouched_keeps db0 c0 w0 w : untouched db0 c0 w0 -> keeps w0 w -> untouched db0 c0 w.
Proof. intros [Hdb Hc] (Hdb' & _ & _ & Hc' & _). split; congruence. Qed.

Lemma untouched_open_keeps db0 c0 w0 w :
  untouched_open db0 c0 w0 -> keeps w0 w -> untouched_open db0 c0 w.
Proof.
  intros [Hu Ht] Hk. split; [eapply untouched_keeps; eauto|].
  destruct Hk as (_ & Ht' & _). congruence.
Qed.

Lemma skip_commits db0 c0 :
  hoare (untouched_open db0 c0)
    (console "Tables do not exist, skipping migration" ;; commit)
    (fun _ => untouched db0 c0) (fun _ => untouched db0 c0).
Proof.
  eapply hoare_bind with (R := fun _ => untouched_open db0 c0).
  { eapply hoare_from; [intros w0; now apply sp_console| |].
    - intros w0 [] w. apply untouched_open_keeps.
    - intros w0 e w _ []. }
  intros []. eapply hoare_from; [apply sp_commit| |].
  - intros w0 [] w Hpre (view & Hv & Hdb' & _ & (_ & Hc' & _)).
    destruct Hpre as [[Hdb Hc] Ht]. split; congruence.
  - intros w0 e w Hpre (Hdb' & (_ & Hc' & _) & _).
    destruct Hpre as [[Hdb Hc] Ht]. split; congruence.
Qed.

Lemma skip_without_tables db0 c0 :
  db0 !! "GuildConfigs" = None \/ db0 !! "Streaks" = None ->
  hoare (untouched db0 c0) migrateDatabase
    (fun _ => untouched db0 c0) (fun _ => untouched db0 c0).
Proof.
  intros Hmissing. unfold migrateDatabase.
  eapply hoare_bind with (R := fun _ => untouched_open db0 c0).
  { eapply hoare_from; [apply sp_begin| |].
    - intros w0 [] w [Hdb Hc] (Hdb' & Ht' & _ & Hc' & _).
      repeat split; congruence.
    - intros w0 e w. apply untouched_keeps. }
  intros []. eapply hoare_try with (R := fun _ => untouched db0 c0).
  - eapply hoare_bind with (R := fun _ => untouched_open db0 c0).
    { eapply hoare_from; [intros w0; now apply sp_console| |].
      - intros w0 [] w. apply untouched_open_keeps.
      - intros w0 e w _ []. }
    intros [].
    eapply hoare_bind with
      (R := fun b w => untouched_open db0 c0 w
                       /\ (b = true -> is_Some (db0 !! "GuildConfigs"))).
    { eapply hoare_from; [intros w0; apply sp_checkTableExists| |].
      - intros w0 b w H [Hk Hb]. split; [eapply untouched_open_keeps; eauto|].
        destruct H as [[<- _] _]. exact Hb.
      - intros w0 e w _ []. }
    intros guildConfigExists.
    eapply hoare_bind with
      (R := fun b w => untouched_open db0 c0 w
                       /\ (guildConfigExists = true -> is_Some (db0 !! "GuildConfigs"))
                       /\ (b = true -> is_Some (db0 !! "Streaks"))).
    { eapply hoare_from; [intros w0; apply sp_checkTableExists| |].
      - intros w0 b w [H Hg] [Hk Hb]. split; [eapply untouched_open_keeps; eauto|].
        split; [exact Hg|]. destruct H as [[<- _] _]. exact Hb.
      - intros w0 e w _ []. }
    intros streaksExists.
    destruct guildConfigExists, streaksExists; cbn [negb orb].
    + intros w (_ & Hg & Hs). exfalso.
      destruct Hmissing as [Hm|Hm]; rewrite Hm in *;
        [destruct (Hg eq_refl)|destruct (Hs eq_refl)]; discriminate.
    + eapply hoare_pre; [apply skip_commits|tauto].
    + eapply hoare_pre; [apply skip_commits|tauto].
    + eapply hoare_pre; [apply skip_commits|tauto].
  - intros e. apply preserves_bind.
    { eapply preserves_from; [intros w0; now apply sp_console| |].
      - intros w0 [] w. apply untouched_keeps.
      - intros w0 e' w _ []. }
    intros []. apply preserves_bind; [|intros []; apply preserves_throw].
    eapply preserves_from; [apply sp_rollback| |];
      intros w0 x w [Hdb Hc] (Hdb' & (_ & Hc' & _) & _); split; congruence.
Qed.

Lemma skip_returns w :
  committed w !! "GuildConfigs" = None \/ committed w !! "Streaks" = None ->
  refused (faults w) 0 = false -> refused (faults w) 3 = false ->
  fst (migrateDatabase w) = Ret tt
  /\ transaction (snd (migrateDatabase w)) = Finished
  /\ exists lines,
       trace (snd (migrateDatabase w))
       = trace w ++ Began :: Console "Starting database migration..." :: lines
                 ++ [Console "Tables do not exist, skipping migration"; Committed].
Proof.
  intros Hmissing H0 H3. destruct w as [db tx fs tr]. cbn in Hmissing, H0, H3.
  assert (Hskip : forall b1 b2,
            negb (b1 && bool_decide (is_Some (db !! "GuildConfigs")))
            || negb (b2 && bool_decide (is_Some (db !! "Streaks"))) = true).
  { intros b1 b2. destruct Hmissing as [Hm|Hm]; rewrite Hm.
    - rewrite bool_decide_eq_false_2; [now rewrite andb_false_r|].
      intros [x Hx]. discriminate.
    - rewrite (bool_decide_eq_false_2 (is_Some None));
        [now rewrite andb_false_r, orb_true_r|].
      intros [x Hx]. discriminate. }
  pose proof (Hskip true true) as Htt. pose proof (Hskip true false) as Htf.
  pose proof (Hskip false true) as Hft. cbn [andb negb orb] in Htt, Htf, Hft.
  unfold migrateDatabase, begin_transaction, checkTableExists, commit, console,
    bind, try_catch, request, get, set_transaction, set_committed, emit, ret, throw.
  destruct fs as [|[e0|] [|[e1|] [|[e2|] [|[e3|] rest]]]]; try discriminate;
    cbn [faults committed transaction trace negb orb];
    rewrite ?Htt, ?Htf, ?Hft; cbn [faults committed transaction trace fst snd];
    (split; [reflexivity|]); (split; [reflexivity|]);
    rewrite <- ?app_assoc; cbn [app]; eexists; repeat f_equal;
    match goal with
    | |- ?l = ?e ++ _ => first [ instantiate (1 := []); reflexivity
                               | instantiate (1 := [_]); reflexivity
                               | instantiate (1 := [_; _]); reflexivity ]
    end.
Qed.

(** C10: when GuildConfigs or Streaks does not exist, a run leaves the
    committed database as it was and carries out no statement that changes
    the schema or the data, whatever the server answers; and unless the
    server refuses to begin or to commit the transaction, the run commits
    and returns, having logged that it skips the migration. *)
Theorem migration_skipped_without_tables w :
  committed w !! "GuildConfigs" = None \/ committed w !! "Streaks" = None ->
  committed (snd (migrateDatabase w)) = committed w
  /\ changes (snd (migrateDatabase w)) = changes w
  /\ (refused (faults w) 0 = false -> refused (faults w) 3 = false ->
        fst (migrateDatabase w) = Ret tt
        /\ transaction (snd (migrateDatabase w)) = Finished
        /\ exists lines,
             trace (snd (migrateDatabase w))
             = trace w ++ Began :: Console "Starting database migration..." :: lines
                       ++ [Console "Tables do not exist, skipping migration";
                           Committed]).
Proof.
  intros Hmissing.
  pose proof (skip_without_tables (committed w) (changes w) Hmissing w
                (conj eq_refl eq_refl)) as H.
  split; [|split].
  - destruct (migrateDatabase w) as [[[]|e] w']; apply H.
  - destruct (migrateDatabase w) as [[[]|e] w']; apply H.
  - now apply skip_returns.
Qed.

Lemma migration_skipped_without_tables_witness :
  committed (snd (migrateDatabase world_without_streaks))
  = committed world_without_streaks
  /\ fst (migrateDatabase world_without_streaks) = Ret tt.
Proof.
  assert (H : committed world_without_streaks !! "GuildConfigs" = None
              \/ committed world_without_streaks !! "Streaks" = None)
    by (right; reflexivity).
  destruct (migration_skipped_without_tables world_without_streaks H) as (Hdb & _ & Hrun).
  split; [exact Hdb|]. apply Hrun; reflexivity.
Defined.

(** ** A failure in the middle of the migration *)

(** C4 is not what the code does.  When ALTER TABLE fails, the inner [catch]
    rolls back and attempts the restore, and then falls through:
    [migrateDatabase] returns, and [initializeDatabase] goes on to [sync]
    and returns as well.  The restore itself fails here, on the INSERT that
    it writes for a row with a null and a Date in it, after its DELETE has
    emptied the table; that error is logged and dropped too, and so is the
    error of a DELETE that the server refuses. *)
Theorem migration_failure_is_swallowed :
  (fst (migrateDatabase world_alter_fails) = Ret tt
   /\ fst (initializeDatabase world_alter_fails) = Ret tt
   /\ console_lines (snd (initializeDatabase world_alter_fails))
      = ["Starting database initialization..."; "Starting database migration...";
         "Creating backups..."; "Migrating GuildConfigs table...";
         "Migrating Streaks table..."; "Migration failed, rolling back changes:";
         "Error restoring table Streaks from backup:";
         "Failed to restore from backups:"; "Database synchronized successfully"]
   /\ rows <$> committed (snd (initializeDatabase world_alter_fails)) !! "Streaks"
      = Some [])
  /\ (fst (migrateDatabase world_restore_fails) = Ret tt
      /\ fst (initializeDatabase world_restore_fails) = Ret tt
      /\ console_lines (snd (initializeDatabase world_restore_fails))
         = ["Starting database initialization..."; "Starting database migration...";
            "Creating backups..."; "Migrating GuildConfigs table...";
            "Migrating Streaks table..."; "Migration failed, rolling back changes:";
            "Error restoring table GuildConfigs from backup:";
            "Failed to restore from backups:"; "Database synchronized successfully"]).
Proof. repeat split; vm_compute; reflexivity. Qed.

(** ** Accessors, read back *)

Lemma stored_words_normalised value :
  Forall normalised (GuildConfig.set_triggerWords value).
Proof.
  destruct value as [| | | | |items|]; try constructor.
  unfold GuildConfig.set_triggerWords.
  apply List.Forall_forall. intros w Hw.
  apply List.filter_In in Hw as [Hin Hlen].
  apply List.in_map_iff in Hin as [x [<- _]].
  apply normalised_trim_lower. now apply nonempty_length.
Qed.

Lemma normalised_word_kept w :
  normalised w -> Js.truthy (Js.Str w) && (Js.typeof (Js.Str w) =? "string") = true.
Proof. intros (_ & _ & Hne). simpl. destruct w; [congruence|reflexivity]. Qed.

Lemma normalised_words_stored words :
  Forall normalised words ->
  GuildConfig.set_triggerWords (Js.Array (Js.Str <$> words)) = words.
Proof.
  intros H. unfold GuildConfig.set_triggerWords.
  induction H as [|w ws Hw _ IH]; [reflexivity|].
  cbn [fmap list_fmap List.filter]. rewrite (normalised_word_kept w Hw).
  cbn [List.map List.filter Js.chars].
  destruct Hw as (Hl & Ht & Hn). rewrite Hl, Ht.
  assert (Hlen : (0 <? String.length w)%nat = true) by now apply nonempty_length.
  rewrite Hlen. f_equal. exact IH.
Qed.

(** X1: what the getter of [triggerWords] returns for a list the setter
    stored is that list, word for word: its filter drops nothing the setter
    keeps. *)
Theorem triggerWords_read_back value :
  GuildConfig.get_triggerWords (Js.Array (Js.Str <$> GuildConfig.set_triggerWords value))
  = Js.Str <$> GuildConfig.set_triggerWords value.
Proof.
  unfold GuildConfig.get_triggerWords.
  pose proof (stored_words_normalised value) as H.
  induction H as [|w ws Hw _ IH]; [reflexivity|].
  cbn [fmap list_fmap List.filter]. rewrite (normalised_word_kept w Hw).
  f_equal. exact IH.
Qed.

(** X2: the setter of [triggerWords] is idempotent: writing back the list it
    stored stores the same list. *)
Theorem triggerWords_set_twice value :
  GuildConfig.set_triggerWords
    (Js.Array (Js.Str <$> GuildConfig.set_triggerWords value))
  = GuildConfig.set_triggerWords value.
Proof. apply normalised_words_stored, stored_words_normalised. Qed.

(** X3: whatever the setter of [Streak.triggerWord] stores is lower-cased
    and trimmed; a stored word that is not empty is stored unchanged when it
    is set again; and a word and its lower-cased form are stored alike. *)
Theorem triggerWord_stored_form :
  (forall value w, Streak.set_triggerWord value = Ret w ->
     Js.toLowerCase w = w /\ Js.trim w = w
     /\ (w <> "" -> Streak.set_triggerWord (Js.Str w) = Ret w))
  /\ (forall s, Streak.set_triggerWord (Js.Str (Js.toLowerCase s))
                = Streak.set_triggerWord (Js.Str s)).
Proof.
  split.
  - intros value w. unfold Streak.set_triggerWord.
    destruct (negb (Js.truthy value) || negb (Js.typeof value =? "string"));
      [discriminate|].
    intros H. injection H as <-.
    assert (Hl : Js.toLowerCase (Js.trim (Js.toLowerCase (Js.chars value)))
                 = Js.trim (Js.toLowerCase (Js.chars value)))
      by apply trim_lower, toLowerCase_idem.
    split; [exact Hl|]. split; [apply trim_idem|].
    intros Hne.
    destruct (Js.trim (Js.toLowerCase (Js.chars value))) as [|c r] eqn:Hw;
      [now contradiction Hne|].
    cbn [Js.truthy Js.typeof Js.chars]. change (negb (String c r =? "")) with true.
    change ("string" =? "string") with true. cbn [negb orb].
    rewrite Hl. rewrite <- Hw. now rewrite trim_idem.
  - intros s. unfold Streak.set_triggerWord. cbn [Js.truthy Js.typeof Js.chars].
    rewrite toLowerCase_idem. now destruct s.
Qed.

Lemma triggerWord_stored_form_witness :
  Streak.set_triggerWord (Js.Str "daily") = Ret "daily".
Proof.
  apply (proj1 triggerWord_stored_form (Js.Str " Daily ") "daily");
    [reflexivity|discriminate].
Defined.

Lemma values_eta (v : Streak.values) :
  v = {| Streak.id := Streak.id v; Streak.guildId := Streak.guildId v;
         Streak.userId := Streak.userId v; Streak.triggerWord := Streak.triggerWord v;
         Streak.count := Streak.count v; Streak.bestStreak := Streak.bestStreak v;
         Streak.streakStreak := Streak.streakStreak v;
         Streak.lastStreakDate := Streak.lastStreakDate v;
         Streak.lastUpdated := Streak.lastUpdated v |}.
Proof. now destruct v. Qed.

(** X4: the [beforeSave] hook never lowers bestStreak and changes nothing
    else: count, the other values and [isNewRecord] stay, bestStreak becomes
    the larger of itself and count when count has changed; and running the
    hook a second time changes nothing more. *)
Theorem beforeSave_only_raises streak :
  let s := Streak.beforeSave streak in
  let v := Streak.dataValues streak in
  Streak.dataValues s
  = {| Streak.id := Streak.id v; Streak.guildId := Streak.guildId v;
       Streak.userId := Streak.userId v; Streak.triggerWord := Streak.triggerWord v;
       Streak.count := Streak.count v;
       Streak.bestStreak :=
         if Streak.changed streak "count"
         then Z.max (Streak.bestStreak v) (Streak.count v)
         else Streak.bestStreak v;
       Streak.streakStreak := Streak.streakStreak v;
       Streak.lastStreakDate := Streak.lastStreakDate v;
       Streak.lastUpdated := Streak.lastUpdated v |}
  /\ (Streak.bestStreak v <= Streak.bestStreak (Streak.dataValues s))%Z
  /\ Streak.isNewRecord s = Streak.isNewRecord streak
  /\ Streak.beforeSave s = s.
Proof.
  cbv zeta.
  assert (Hcc : forall c, (c >? c)%Z = false)
    by (intros c; rewrite Z.gtb_ltb; apply Z.ltb_irrefl).
  assert (Hs : (Streak.changed streak "count" = true
                /\ (Streak.bestStreak (Streak.dataValues streak)
                    < Streak.count (Streak.dataValues streak))%Z
                /\ Streak.beforeSave streak
                   = Streak.set_bestStreak streak (Streak.count (Streak.dataValues streak)))
               \/ ((Streak.changed streak "count" = false
                    \/ (Streak.count (Streak.dataValues streak)
                        <= Streak.bestStreak (Streak.dataValues streak))%Z)
                   /\ Streak.beforeSave streak = streak)).
  { unfold Streak.beforeSave. destruct (Streak.changed streak "count"); cbn [andb].
    - destruct (Z.gtb_spec (Streak.count (Streak.dataValues streak))
                  (Streak.bestStreak (Streak.dataValues streak))); [left|right]; auto.
    - right. auto. }
  destruct Hs as [(Hch & Hlt & ->)|(Hno & ->)].
  - rewrite Hch.
    cbn [Streak.set_bestStreak Streak.dataValues Streak.bestStreak Streak.isNewRecord].
    rewrite Z.max_r by lia. split; [reflexivity|]. split; [lia|]. split; [reflexivity|].
    unfold Streak.beforeSave. rewrite changed_count_set_bestStreak, Hch.
    cbn [Streak.set_bestStreak Streak.dataValues Streak.bestStreak Streak.count andb].
    now rewrite Hcc.
  - split; [|split; [lia|split; [reflexivity|]]].
    + destruct (Streak.changed streak "count"); [|apply values_eta].
      destruct Hno as [Hno|Hno]; [discriminate|].
      rewrite Z.max_l by lia. apply values_eta.
    + unfold Streak.beforeSave. destruct Hno as [->|Hle]; [reflexivity|].
      destruct (Z.gtb_spec (Streak.count (Streak.dataValues streak))
                  (Streak.bestStreak (Streak.dataValues streak))); [lia|].
      now rewrite andb_false_r.
Qed.

(** ** The helpers of the migration, one request at a time *)

Lemma request_accepted w :
  refused (faults w) 0 = false -> request w = (Ret tt, advance w).
Proof.
  unfold refused, request, advance. destruct w as [db tx fs tr]. cbn.
  destruct fs as [|[e|] rest]; cbn; intros H; [reflexivity|discriminate|reflexivity].
Qed.

Lemma request_refused w :
  refused (faults w) 0 = true -> exists e, request w = (Throw e, advance w).
Proof.
  unfold refused, request, advance. destruct w as [db tx fs tr]. cbn.
  destruct fs as [|[e|] rest]; cbn; intros H; try discriminate. now exists e.
Qed.

Lemma refused_advance w i : refused (faults (advance w)) i = refused (faults w) (S i).
Proof. unfold refused, advance. cbn. now destruct (faults w). Qed.

(** X5: [checkTableExists] and [checkColumnExists] never throw and change
    neither the database nor the transaction; when the server answers, the
    result is whether the table, or the column, exists in the committed
    database; when the server fails, the result is [false] even for a table
    or column that exists. *)
Theorem checks_never_throw tableName columnName w :
  (exists b, fst (checkTableExists tableName w) = Ret b
     /\ b = negb (refused (faults w) 0)
            && bool_decide (is_Some (committed w !! tableName)))
  /\ (exists b, fst (checkColumnExists tableName columnName w) = Ret b
        /\ b = negb (refused (faults w) 0)
               && match committed w !! tableName with
                  | Some t => bool_decide (columnName ∈ columns t)
                  | None => false
                  end)
  /\ committed (snd (checkTableExists tableName w)) = committed w
  /\ transaction (snd (checkTableExists tableName w)) = transaction w
  /\ committed (snd (checkColumnExists tableName columnName w)) = committed w
  /\ transaction (snd (checkColumnExists tableName columnName w)) = transaction w.
Proof.
  unfold checkTableExists, checkColumnExists, bind, try_catch, get, ret, console, emit.
  destruct (refused (faults w) 0) eqn:Hr.
  - destruct (request_refused w Hr) as [e ->]. cbn. repeat split; eexists; eauto.
  - rewrite (request_accepted w Hr). cbn. repeat split; eexists; eauto.
Qed.

(** X6: [backupTable] changes neither the database nor the transaction; the
    rows it returns are those the table has in the transaction's view; and
    it throws, rather than return an empty snapshot, when the transaction is
    not open, when the server fails, and when the view has no such table. *)
Theorem backupTable_snapshot tableName w :
  committed (snd (backupTable tableName w)) = committed w
  /\ transaction (snd (backupTable tableName w)) = transaction w
  /\ (forall snapshot, fst (backupTable tableName w) = Ret snapshot <->
        exists view t, transaction w = Open view /\ refused (faults w) 0 = false
                       /\ view !! tableName = Some t /\ snapshot = rows t).
Proof.
  unfold backupTable, bind, try_catch, get, ret, throw, console, emit.
  destruct (transaction w) as [|view|] eqn:Ht; cbn.
  - repeat split; try discriminate; try assumption. intros (v & t & Hv & _). discriminate.
  - destruct (refused (faults w) 0) eqn:Hr.
    + destruct (request_refused w Hr) as [e ->]. cbn.
      repeat split; try discriminate; try assumption.
      intros (v & t & _ & Hv & _). discriminate.
    + rewrite (request_accepted w Hr). cbn.
      destruct (view !! tableName) as [t|] eqn:Hv; cbn.
      * repeat split; auto.
        -- intros H. injection H as <-. exists view, t. auto.
        -- intros (v & t' & Hopen & _ & Hv' & ->). injection Hopen as <-.
           rewrite Hv in Hv'. now injection Hv' as <-.
      * repeat split; try discriminate; try assumption.
        intros (v & t' & Hopen & _ & Hv' & _). injection Hopen as <-. congruence.
  - repeat split; try discriminate; try assumption. intros (v & t & Hv & _). discriminate.
Qed.

Lemma backupTable_snapshot_witness :
  fst (backupTable "Streaks"
         (snd (begin_transaction world_old_guildConfigs)))
  = Ret (rows streaks_full).
Proof.
  apply backupTable_snapshot. exists (committed world_old_guildConfigs), streaks_full.
  repeat split.
Defined.

(** *** Restoring *)

Lemma keys_spec (r : gmap string sql_value) k : k ∈ keys r <-> is_Some (r !! k).
Proof.
  unfold keys. rewrite list_elem_of_fmap. split.
  - intros [[k' v] [-> Hin]]. apply elem_of_map_to_list in Hin. now exists v.
  - intros [v Hv]. exists (k, v). split; [reflexivity|]. now apply elem_of_map_to_list.
Qed.

Lemma lookup_row_of (cols : list string) (f : string -> sql_value) k :
  row_of cols (f <$> cols) !! k = if bool_decide (k ∈ cols) then Some (f k) else None.
Proof.
  unfold row_of. induction cols as [|c cols IH].
  - cbn. rewrite bool_decide_eq_false_2; [apply lookup_empty|apply not_elem_of_nil].
  - cbn [fmap list_fmap zip zip_with]. rewrite list_to_map_cons.
    destruct (decide (c = k)) as [->|Hne].
    + rewrite lookup_insert_eq, bool_decide_eq_true_2; [reflexivity|].
      apply elem_of_cons. now left.
    + rewrite lookup_insert_ne by exact Hne. rewrite IH.
      case_bool_decide as Hin.
      * rewrite bool_decide_eq_true_2; [reflexivity|]. apply elem_of_cons. now right.
      * rewrite bool_decide_eq_false_2; [reflexivity|].
        rewrite elem_of_cons. intros [->|H]; [now contradiction Hne|contradiction].
Qed.

(** A row that has a value under each key of the first row, and no other
    key, is the row its values make. *)
Lemma row_of_values (first row : gmap string sql_value) :
  (forall k, is_Some (row !! k) -> is_Some (first !! k)) ->
  (forall k, is_Some (first !! k) -> is_Some (row !! k)) ->
  row_of (keys first) ((fun col => default SqlNull (row !! col)) <$> keys first) = row.
Proof.
  intros Hsub Hsup. apply map_eq. intros k.
  rewrite (lookup_row_of (keys first) (fun col => default SqlNull (row !! col))).
  case_bool_decide as Hin.
  - apply keys_spec, Hsup in Hin as [v Hv]. now rewrite Hv.
  - destruct (row !! k) as [v|] eqn:Hk; [|reflexivity].
    exfalso. apply Hin, keys_spec, Hsub. now exists v.
Qed.

Lemma keys_nonempty (first : gmap string sql_value) : first <> ∅ -> keys first <> [].
Proof.
  intros Hne Hnil. apply Hne. apply map_empty. intros k.
  destruct (first !! k) as [v|] eqn:Hk; [|reflexivity].
  assert (Hin : k ∈ keys first) by (apply keys_spec; now exists v).
  rewrite Hnil in Hin. now apply elem_of_nil in Hin.
Qed.

(** The statement a restore writes for plain rows reads as the rows. *)
Lemma plain_rows_readable first rest :
  plain_rows (first :: rest) ->
  readable (keys first)
    ((fun row => (fun col => default SqlNull (row !! col)) <$> keys first)
       <$> (first :: rest)) = true.
Proof.
  intros [Hne Hall]. unfold readable.
  destruct (keys first) as [|c cols] eqn:Hkeys; [now apply keys_nonempty in Hne|].
  rewrite <- Hkeys. apply forallb_forall. intros vals Hvals.
  apply List.in_map_iff in Hvals as [row [<- Hrow]].
  apply forallb_forall. intros v Hv.
  apply List.in_map_iff in Hv as [col [<- Hcol]].
  rewrite List.Forall_forall in Hall.
  destruct (Hall row Hrow col) as (v & -> & Hplain); [|exact Hplain].
  apply keys_spec. now apply list_elem_of_In.
Qed.

Lemma restored_rows (backup : list (gmap string sql_value)) first :
  Forall (fun row => forall k, is_Some (row !! k) -> is_Some (first !! k)) backup ->
  Forall (fun row => forall k, is_Some (first !! k) ->
                       exists v, row !! k = Some v /\ plain v = true) backup ->
  row_of (keys first)
    <$> ((fun row => (fun col => default SqlNull (row !! col)) <$> keys first) <$> backup)
  = backup.
Proof.
  intros Hsub Hsup. induction backup as [|row rest IH]; [reflexivity|].
  apply Forall_cons in Hsub as [Hrow Hsub]. apply Forall_cons in Hsup as [Hrow' Hsup].
  cbn [fmap list_fmap]. f_equal; [|now apply IH].
  apply row_of_values; [exact Hrow|].
  intros k Hk. destruct (Hrow' k Hk) as (v & -> & _). eauto.
Qed.

Lemma insert_into_fits tableName cols values db t :
  db !! tableName = Some t -> (forall c, c ∈ cols -> c ∈ columns t) ->
  insert_into tableName cols values db
  = Some (<[tableName := with_rows t (rows t ++ values)]> db).
Proof.
  intros Ht Hcols. unfold insert_into. rewrite Ht.
  assert (Hall : forallb (fun c => bool_decide (c ∈ columns t)) cols = true).
  { apply forallb_forall. intros c Hc. apply bool_decide_eq_true, Hcols.
    now apply list_elem_of_In. }
  now rewrite Hall.
Qed.

(** The server refuses an INSERT that names a column the table lacks,
    whatever the values. *)
Lemma insert_spliced_misfit srv tableName cols values db t c :
  db !! tableName = Some t -> c ∈ cols -> c ∉ columns t ->
  insert_spliced srv tableName cols values db = None.
Proof.
  intros Ht Hc Hnot. unfold insert_spliced. rewrite Ht.
  destruct (forallb _ cols) eqn:Hall; [|reflexivity].
  rewrite forallb_forall in Hall. apply list_elem_of_In in Hc.
  specialize (Hall c Hc). apply bool_decide_eq_true in Hall. contradiction.
Qed.

(** Plain values under columns of the table are inserted as they are. *)
Lemma insert_spliced_fits srv tableName cols values db t :
  db !! tableName = Some t -> (forall c, c ∈ cols -> c ∈ columns t) ->
  readable cols values = true ->
  insert_spliced srv tableName cols values db
  = Some (<[tableName := with_rows t (rows t ++ (row_of cols <$> values))]> db).
Proof.
  intros Ht Hcols Hread. unfold insert_spliced. rewrite Ht, Hread.
  assert (Hall : forallb (fun c => bool_decide (c ∈ columns t)) cols = true).
  { apply forallb_forall. intros c Hc. apply bool_decide_eq_true, Hcols.
    now apply list_elem_of_In. }
  rewrite Hall. now apply insert_into_fits.
Qed.

Lemma query_committed_accepted statement done w db :
  refused (faults w) 0 = false -> statement (committed w) = Some db ->
  query_committed statement done w
  = (Ret tt, {| committed := db; transaction := transaction w;
               faults := tail (faults w); trace := trace w ++ [done]; server := server w |}).
Proof.
  intros Hr Hs. unfold query_committed, bind, get, set_committed, emit.
  rewrite (request_accepted w Hr). cbn [committed advance]. now rewrite Hs.
Qed.

Lemma query_committed_failed statement done w :
  refused (faults w) 0 = true \/ statement (committed w) = None ->
  exists e, query_committed statement done w = (Throw e, advance w).
Proof.
  intros H. unfold query_committed, bind, get, set_committed, emit, throw.
  destruct (refused (faults w) 0) eqn:Hr.
  - destruct (request_refused w Hr) as [e ->]. now exists e.
  - destruct H as [H|H]; [discriminate|].
    rewrite (request_accepted w Hr). cbn [committed advance]. rewrite H. eauto.
Qed.

Lemma delete_from_found tableName db t :
  db !! tableName = Some t ->
  delete_from tableName db = Some (<[tableName := with_rows t []]> db).
Proof. intros Ht. unfold delete_from. now rewrite Ht. Qed.

(** X7: when the server carries out its statements, [restoreFromBackup]
    replaces the rows of the table by the snapshot, for a snapshot of plain
    values, numbers, booleans and strings without a quote, whose rows have
    the keys of its first row, all of them columns of the table;
    restoring such a table from a snapshot of itself therefore leaves the
    database as it was, and an empty snapshot leaves the table empty. *)
Theorem restore_replaces_rows backup tableName t w :
  committed w !! tableName = Some t ->
  uniform_rows backup -> plain_rows backup -> fits backup t ->
  refused (faults w) 0 = false -> refused (faults w) 1 = false ->
  fst (restoreFromBackup backup tableName w) = Ret tt
  /\ committed (snd (restoreFromBackup backup tableName w))
     = <[tableName := with_rows t backup]> (committed w)
  /\ transaction (snd (restoreFromBackup backup tableName w)) = transaction w
  /\ (backup = rows t ->
      committed (snd (restoreFromBackup backup tableName w)) = committed w).
Proof.
  intros Ht Huni Hplain Hfits H0 H1.
  assert (Hrun : exists w',
            restoreFromBackup backup tableName w = (Ret tt, w')
            /\ committed w' = <[tableName := with_rows t backup]> (committed w)
            /\ transaction w' = transaction w).
  { unfold restoreFromBackup, try_catch. unfold bind at 1.
    rewrite (query_committed_accepted _ _ w _ H0 (delete_from_found _ _ _ Ht)).
    destruct backup as [|first rest]; [eexists; split; [reflexivity|]; now cbn|].
    unfold bind, get.
    match goal with |- context [query_committed (insert_spliced ?srv _ ?cols ?vals) _ ?w1] =>
      assert (Hins : insert_spliced srv tableName cols vals (committed w1)
                     = Some (<[tableName := with_rows t (first :: rest)]> (committed w)));
      [|assert (H1' : refused (faults w1) 0 = false)]
    end.
    { cbn [committed].
      erewrite insert_spliced_fits;
        [|apply lookup_insert_eq|intros c Hc; apply Hfits; now apply keys_spec
         |now apply plain_rows_readable].
      rewrite insert_insert_eq. unfold with_rows. cbn [columns rows app].
      now rewrite (restored_rows (first :: rest) first Huni (proj2 Hplain)). }
    { cbn [faults]. revert H1. unfold refused. now destruct (faults w). }
    rewrite (query_committed_accepted _ _ _ _ H1' Hins).
    eexists. split; [reflexivity|]. now cbn. }
  destruct Hrun as (w' & -> & Hdb & Htx). cbn [fst snd]. repeat split; auto.
  intros ->. rewrite Hdb. apply insert_id. rewrite Ht. now destruct t.
Qed.

Lemma restore_replaces_rows_witness :
  committed (snd (restoreFromBackup [counter_row] "Counters"
                    (world_of {[ "Counters" := counter_table ]} [])))
  = committed (world_of {[ "Counters" := counter_table ]} []).
Proof.
  apply (restore_replaces_rows [counter_row] "Counters" counter_table
           (world_of {[ "Counters" := counter_table ]} [])); try reflexivity.
  - constructor; [intros k Hk; exact Hk|constructor].
  - split; [apply insert_non_empty|].
    constructor; [|constructor]. intros k Hk. unfold counter_row in *.
    destruct (decide (k = "count")) as [->|Hne].
    + exists (SqlInt 7). split; [apply lookup_singleton_eq|reflexivity].
    + rewrite lookup_singleton_ne in Hk by congruence. now destruct Hk.
  - unfold fits, counter_row, counter_table. cbn [columns]. intros k Hk.
    destruct (decide (k = "count")) as [->|Hne].
    + apply list_elem_of_singleton. reflexivity.
    + rewrite lookup_singleton_ne in Hk by congruence. now destruct Hk.
Defined.

Lemma restore_insert_fails first rest tableName t w :
  committed w !! tableName = Some t ->
  refused (faults w) 0 = false ->
  (refused (faults w) 1 = true \/ exists k, is_Some (first !! k) /\ k ∉ columns t) ->
  (exists e, fst (restoreFromBackup (first :: rest) tableName w) = Throw e)
  /\ committed (snd (restoreFromBackup (first :: rest) tableName w))
     = <[tableName := with_rows t []]> (committed w).
Proof.
  intros Ht H0 Hfail.
  assert (Hrun : exists e w',
            restoreFromBackup (first :: rest) tableName w = (Throw e, w')
            /\ committed w' = <[tableName := with_rows t []]> (committed w)).
  { unfold restoreFromBackup, try_catch. unfold bind at 1.
    rewrite (query_committed_accepted _ _ w _ H0 (delete_from_found _ _ _ Ht)).
    unfold bind, get.
    match goal with |- context [query_committed ?st ?ev ?w1] =>
      destruct (query_committed_failed st ev w1) as [e ->] end.
    - destruct Hfail as [Hr|(k & Hk & Hnot)].
      + left. cbn [faults]. revert Hr. unfold refused. now destruct (faults w).
      + right. cbn [committed]. eapply insert_spliced_misfit;
          [apply lookup_insert_eq|apply keys_spec; exact Hk|exact Hnot].
    - cbn. eexists _, _. split; reflexivity. }
  destruct Hrun as (e & w' & -> & Hdb). split; [now exists e|exact Hdb].
Qed.

Lemma restore_without_delete backup tableName w :
  refused (faults w) 0 = true \/ committed w !! tableName = None ->
  (exists e, fst (restoreFromBackup backup tableName w) = Throw e)
  /\ committed (snd (restoreFromBackup backup tableName w)) = committed w.
Proof.
  intros H. unfold restoreFromBackup, bind, try_catch.
  match goal with |- context [query_committed ?st ?ev ?w1] =>
    destruct (query_committed_failed st ev w1) as [e ->] end.
  - destruct H as [H|H]; [now left|right]. unfold delete_from. now rewrite H.
  - cbn. split; [now exists e|reflexivity].
Qed.

(** X8: [restoreFromBackup] is not atomic: once the DELETE is carried out, a
    failure of the INSERT, because the server fails or because the snapshot
    has a key that is no column of the table, leaves the table empty, and
    the error is thrown; when the DELETE itself fails or the table does not
    exist, it throws with the database as it was. *)
Theorem restore_can_empty_table :
  (forall first rest tableName t w,
     committed w !! tableName = Some t ->
     refused (faults w) 0 = false ->
     (refused (faults w) 1 = true \/ exists k, is_Some (first !! k) /\ k ∉ columns t) ->
     (exists e, fst (restoreFromBackup (first :: rest) tableName w) = Throw e)
     /\ committed (snd (restoreFromBackup (first :: rest) tableName w))
        = <[tableName := with_rows t []]> (committed w))
  /\ (forall backup tableName w,
        refused (faults w) 0 = true \/ committed w !! tableName = None ->
        (exists e, fst (restoreFromBackup backup tableName w) = Throw e)
        /\ committed (snd (restoreFromBackup backup tableName w)) = committed w).
Proof. split; [exact restore_insert_fails|exact restore_without_delete]. Qed.

Lemma restore_can_empty_table_witness :
  committed (snd (restoreFromBackup [counter_row] "Counters"
                    (world_of {[ "Counters" := counter_table ]}
                       [None; Some statement_refused])))
  = {[ "Counters" := with_rows counter_table [] ]}.
Proof.
  assert (Ht : committed (world_of {[ "Counters" := counter_table ]}
                            [None; Some statement_refused]) !! "Counters"
               = Some counter_table) by apply lookup_singleton_eq.
  destruct (proj1 restore_can_empty_table counter_row [] "Counters" counter_table
              (world_of {[ "Counters" := counter_table ]} [None; Some statement_refused])
              Ht eq_refl (or_introl eq_refl)) as [_ H].
  rewrite H. cbn [committed world_of]. apply insert_singleton_eq.
Defined.

(** ** How a run of the migration can end *)

Lemma altered_extends db db' : altered db db' -> extends db db'.
Proof.
  induction 1 as [|db1 db2 t c ty _ IH Hs|db1 db2 _ IH Hs]; [apply extends_refl| |].
  - eapply extends_trans; [exact IH|]. eapply add_column_extends; eauto.
  - eapply extends_trans; [exact IH|]. now apply update_bestStreak_extends.
Qed.

Lemma rewritten_same_schema db db' : rewritten db db' -> same_schema db db'.
Proof.
  induction 1 as [|db1 db2 t _ [IH1 IH2] Hs|db1 db2 t cols vals _ [IH1 IH2] Hs].
  - split; apply extends_refl.
  - apply delete_from_extends in Hs as [H1 H2].
    split; eapply extends_trans; eauto.
  - apply insert_into_extends in Hs as [H1 H2].
    split; eapply extends_trans; eauto.
Qed.

(** *** Sharper specifications of the primitives *)

Lemma sp_console_any line w0 :
  hoare (eq w0) (console line)
    (fun _ w => committed w = committed w0 /\ transaction w = transaction w0
                /\ completions w
                   = (completions w0 + if is_completion (Console line) then 1 else 0)%nat)
    (fun _ _ => False).
Proof.
  intros w Hw. subst w. unfold console, emit, completions.
  cbn [fst snd committed transaction trace].
  split; [reflexivity|split; [reflexivity|]].
  rewrite List.filter_app, List.length_app. cbn [List.filter].
  destruct (is_completion (Console line)); reflexivity.
Qed.

Lemma sp_begin_sharp w0 :
  hoare (eq w0) begin_transaction
    (fun _ w => committed w = committed w0 /\ transaction w = Open (committed w0)
                /\ completions w = completions w0 /\ refused (faults w0) 0 = false)
    (fun _ w => committed w = committed w0 /\ transaction w = transaction w0
                /\ completions w = completions w0 /\ refused (faults w0) 0 = true).
Proof.
  intros w Hw. subst w. unfold begin_transaction, bind.
  destruct (refused (faults w0) 0) eqn:Hr.
  - destruct (request_refused w0 Hr) as [e ->]. now cbn.
  - rewrite (request_accepted w0 Hr). cbn. repeat split.
    unfold completions. cbn. rewrite List.filter_app, List.length_app. cbn. lia.
Qed.

Lemma sp_commit_sharp w0 :
  hoare (eq w0) commit
    (fun _ w => exists view, transaction w0 = Open view /\ committed w = view
                             /\ transaction w = Finished
                             /\ completions w = completions w0)
    (fun _ w => committed w = committed w0 /\ completions w = completions w0
                /\ (transaction w0 <> NoTransaction -> transaction w = Finished)).
Proof.
  intros w Hw. subst w.
  unfold commit, bind, get, set_transaction, set_committed, emit, throw.
  destruct (transaction w0) as [|view|] eqn:Ht; cbn [committed transaction faults trace].
  - cbn. rewrite Ht. repeat split. congruence.
  - match goal with |- context [request ?w1] =>
      destruct (refused (faults w1) 0) eqn:Hr;
      [destruct (request_refused w1 Hr) as [e ->]|rewrite (request_accepted w1 Hr)]
    end; cbn; [repeat split|exists view; repeat split].
    unfold completions. cbn. rewrite List.filter_app, List.length_app. cbn. lia.
  - cbn. rewrite Ht. repeat split.
Qed.

Lemma sp_rollback_sharp w0 :
  hoare (eq w0) rollback
    (fun _ w => committed w = committed w0 /\ completions w = completions w0
                /\ transaction w = Finished)
    (fun _ w => committed w = committed w0 /\ completions w = completions w0
                /\ (transaction w0 <> NoTransaction -> transaction w = Finished)).
Proof.
  intros w Hw. subst w.
  unfold rollback, bind, get, set_transaction, emit, throw.
  destruct (transaction w0) as [|view|] eqn:Ht; cbn [committed transaction faults trace].
  - cbn. rewrite Ht. repeat split. congruence.
  - match goal with |- context [request ?w1] =>
      destruct (refused (faults w1) 0) eqn:Hr;
      [destruct (request_refused w1 Hr) as [e ->]|rewrite (request_accepted w1 Hr)]
    end; cbn; repeat split.
    unfold completions. cbn. rewrite List.filter_app, List.length_app. cbn. lia.
  - cbn. rewrite Ht. repeat split.
Qed.

Lemma after_restore_refl meant w : after_restore meant w w.
Proof. repeat split. intros _. constructor. Qed.

Lemma after_restore_keeps meant w0 w1 w :
  after_restore meant w0 w1 -> keeps w1 w -> after_restore meant w0 w.
Proof.
  intros (Hr & Ht & Hc) (Hdb & Ht' & _ & _ & Hc'). unfold after_restore.
  rewrite Hdb, Ht', Hc'. auto.
Qed.

(** A readable statement is the INSERT of its rows. *)
Lemma insert_spliced_readable srv tableName cols values db db' :
  readable cols values = true ->
  insert_spliced srv tableName cols values db = Some db' ->
  insert_into tableName cols (row_of cols <$> values) db = Some db'.
Proof.
  intros Hread. unfold insert_spliced. rewrite Hread.
  destruct (db !! tableName) as [t|]; [|discriminate].
  destruct (forallb _ cols); [auto|discriminate].
Qed.

Lemma sp_restore_rewrites backup tableName w0 :
  hoare (eq w0) (restoreFromBackup backup tableName)
    (fun _ w => after_restore (plain_rows backup) w0 w)
    (fun _ w => after_restore (plain_rows backup) w0 w).
Proof.
  eapply hoare_weaken with (P' := after_restore (plain_rows backup) w0);
    [|intros w <-; apply after_restore_refl|intros a w H; exact H|intros e w H; exact H].
  unfold restoreFromBackup. apply preserves_try.
  - apply preserves_bind.
    + eapply preserves_from; [intros w1; apply sp_query_committed; reflexivity| |].
      * intros w1 [] w (Hr & Ht & Hc) (db & Hs & Hdb & Ht' & Hc' & _).
        unfold after_restore. rewrite Hdb, Ht', Hc'. repeat split; auto.
        intros Hplain. eapply rewritten_delete; eauto.
      * intros w1 e w H1 Hk. eapply after_restore_keeps; eauto.
    + intros []. destruct backup as [|first rest]; [apply preserves_ret|].
      eapply preserves_from;
        [intros w1;
         apply (sp_query_server
                  (fun srv => insert_spliced srv tableName (keys first) _));
         reflexivity| |].
      * intros w1 [] w (Hr & Ht & Hc) (db & Hs & Hdb & Ht' & Hc' & _).
        unfold after_restore. rewrite Hdb, Ht', Hc'. repeat split; auto.
        intros Hplain. eapply rewritten_insert; [now apply Hr|].
        eapply insert_spliced_readable; [|exact Hs].
        now apply plain_rows_readable.
      * intros w1 e w H1 Hk. eapply after_restore_keeps; eauto.
  - intros e. apply preserves_bind; [|intros []; apply preserves_throw].
    eapply preserves_from; [intros w1; apply sp_console| |].
    + reflexivity.
    + intros w1 [] w H1 Hk. eapply after_restore_keeps; eauto.
    + intros w1 e' w H1 [].
Qed.

(** A snapshot is the rows of its table in the transaction's view. *)
Lemma sp_backupTable_sharp tableName w0 :
  hoare (eq w0) (backupTable tableName)
    (fun snapshot w =>
       keeps w0 w
       /\ exists view t, transaction w0 = Open view /\ view !! tableName = Some t
                         /\ snapshot = rows t)
    (fun _ w => keeps w0 w).
Proof.
  run_primitive w0.
  destruct (transaction w0) as [|view|] eqn:Ht; cbn; [counted| |counted].
  destruct (faults w0) as [|[e|] rest]; cbn; [|counted|];
    (destruct (view !! tableName) as [t|] eqn:Hv; cbn;
     [split; [counted|exists view, t; auto]|counted]).
Qed.

(** *** The stages of a run *)

Lemma begun_altering db0 n0 w : begun db0 n0 w -> altering db0 n0 w.
Proof. intros (Hdb & Hn & Ht). repeat split; auto. exists db0. split; [exact Ht|constructor]. Qed.

Lemma altering_failing db0 n0 w : altering db0 n0 w -> failing db0 n0 w.
Proof. intros (Hdb & Hn & view & Ht & _). repeat split; auto. rewrite Ht. discriminate. Qed.

Lemma thrown_back_failing db0 n0 w : thrown_back db0 n0 w -> failing db0 n0 w.
Proof. intros (Hdb & Hn & Ht). repeat split; auto. rewrite Ht. discriminate. Qed.

Lemma thrown_back_swallowed meant db0 n0 w :
  thrown_back db0 n0 w -> swallowed meant db0 n0 w.
Proof.
  intros (Hdb & Hn & Ht). repeat split; auto. intros _. rewrite Hdb. constructor.
Qed.

Lemma begun_keeps db0 n0 w0 w : begun db0 n0 w0 -> keeps w0 w -> begun db0 n0 w.
Proof.
  intros (Hdb & Hn & Ht) (Hdb' & Ht' & _ & _ & Hc). unfold begun.
  rewrite Hdb', Ht', Hc. auto.
Qed.

Lemma altering_keeps db0 n0 w0 w : altering db0 n0 w0 -> keeps w0 w -> altering db0 n0 w.
Proof.
  intros (Hdb & Hn & Hv) (Hdb' & Ht' & _ & _ & Hc). unfold altering.
  rewrite Hdb', Ht', Hc. auto.
Qed.

Lemma swallowed_keeps meant db0 n0 w0 w :
  swallowed meant db0 n0 w0 -> keeps w0 w -> swallowed meant db0 n0 w.
Proof.
  intros (Hn & Hr & Ht) (Hdb' & Ht' & _ & _ & Hc). unfold swallowed.
  rewrite Hdb', Ht', Hc. auto.
Qed.

Lemma failing_keeps db0 n0 w0 w : failing db0 n0 w0 -> keeps w0 w -> failing db0 n0 w.
Proof.
  intros (Hdb & Hn & Ht) (Hdb' & Ht' & _ & _ & Hc). unfold failing.
  rewrite Hdb', Ht', Hc. auto.
Qed.

Lemma begun_console db0 n0 line E :
  is_completion (Console line) = false ->
  hoare (begun db0 n0) (console line) (fun _ => begun db0 n0) E.
Proof.
  intros Hl. eapply hoare_from; [intros w0; now apply sp_console| |].
  - intros w0 [] w. apply begun_keeps.
  - intros w0 e w _ [].
Qed.

Lemma altering_console db0 n0 line E :
  is_completion (Console line) = false ->
  hoare (altering db0 n0) (console line) (fun _ => altering db0 n0) E.
Proof.
  intros Hl. eapply hoare_from; [intros w0; now apply sp_console| |].
  - intros w0 [] w. apply altering_keeps.
  - intros w0 e w _ [].
Qed.

Lemma begun_checkTableExists db0 n0 tableName E :
  hoare (begun db0 n0) (checkTableExists tableName) (fun _ => begun db0 n0) E.
Proof.
  eapply hoare_from; [intros w0; apply sp_checkTableExists| |].
  - intros w0 b w H [Hk _]. eapply begun_keeps; eauto.
  - intros w0 e w _ [].
Qed.

Lemma begun_backupTable db0 n0 tableName :
  hoare (begun db0 n0) (backupTable tableName)
    (fun snapshot w =>
       begun db0 n0 w /\ exists t, db0 !! tableName = Some t /\ snapshot = rows t)
    (fun _ => failing db0 n0).
Proof.
  eapply hoare_from; [intros w0; apply sp_backupTable_sharp| |].
  - intros w0 b w H (Hk & view & t & Hv & Ht & Hb). split; [eapply begun_keeps; eauto|].
    destruct H as (_ & _ & Htx). rewrite Htx in Hv. injection Hv as <-. eauto.
  - intros w0 e w H Hk. eapply altering_failing, altering_keeps; eauto using begun_altering.
Qed.

Lemma altering_statement db0 n0 statement done :
  is_completion done = false ->
  (forall view view', altered db0 view -> statement view = Some view' ->
                      altered db0 view') ->
  hoare (altering db0 n0) (query_in_transaction statement done)
    (fun _ => altering db0 n0) (fun _ => failing db0 n0).
Proof.
  intros Hdone Hstep.
  eapply hoare_from; [intros w0; now apply sp_query_in_transaction| |].
  - intros w0 [] w (Hdb & Hn & view & Ht & Halt)
      (v & view' & Hv & Hs & Ht' & Hdb' & Hc' & _).
    rewrite Ht in Hv. injection Hv as <-. unfold altering.
    rewrite Hdb', Hc', Ht'. repeat split; auto. exists view'. split; [reflexivity|].
    eauto.
  - intros w0 e w H Hk. eapply altering_failing, altering_keeps; eauto.
Qed.

Lemma altering_ensure db0 n0 tableName columnName type line :
  is_completion (Console line) = false ->
  hoare (altering db0 n0)
    (exists_ <- checkColumnExists tableName columnName ;;
     if negb exists_ then
       query_in_transaction (add_column tableName columnName type)
         (AddedColumn tableName columnName) ;;
       console line
     else ret tt)
    (fun _ => altering db0 n0) (fun _ => failing db0 n0).
Proof.
  intros Hl. eapply hoare_bind with (R := fun _ => altering db0 n0).
  { eapply hoare_from; [intros w0; apply sp_checkColumnExists| |].
    - intros w0 b w H [Hk _]. eapply altering_keeps; eauto.
    - intros w0 e w _ []. }
  intros [|]; cbn [negb]; [apply hoare_ret; auto|].
  eapply hoare_bind with (R := fun _ => altering db0 n0).
  - apply altering_statement; [reflexivity|].
    intros view view' Halt Hs. eapply altered_add; eauto.
  - intros []. now apply altering_console.
Qed.

Lemma altering_migrate_tables db0 n0 :
  hoare (altering db0 n0) migrate_tables
    (fun _ => completed db0 n0) (fun _ => failing db0 n0).
Proof.
  unfold migrate_tables.
  eapply hoare_bind; [now apply altering_console|intros []].
  apply hoare_assoc.
  eapply hoare_bind; [now apply altering_ensure|intros []].
  eapply hoare_bind; [now apply altering_console|intros []].
  eapply hoare_bind.
  { refine (hoare_for_of columnsToAdd _ (fun _ => altering db0 n0)
              (fun _ => failing db0 n0) _ []).
    intros done column _. now apply altering_ensure. }
  intros [].
  eapply hoare_bind; [now apply altering_console|intros []].
  eapply hoare_bind.
  { apply altering_statement; [reflexivity|].
    intros view view' Halt Hs. eapply altered_update; eauto. }
  intros [].
  eapply hoare_bind.
  { refine (hoare_for_of requiredColumns _ (fun _ => altering db0 n0)
              (fun _ => failing db0 n0) _ []).
    intros done [columnName columnType] _. now apply altering_ensure. }
  intros [].
  eapply hoare_bind with
    (R := fun _ w => completions w = n0 /\ altered db0 (committed w)
                     /\ transaction w = Finished).
  - eapply hoare_from; [apply sp_commit_sharp| |].
    + intros w0 [] w (Hdb & Hn & view & Ht & Halt) (v & Hv & Hdb' & Ht' & Hc').
      rewrite Ht in Hv. injection Hv as <-. rewrite Hdb', Hc'. auto.
    + intros w0 e w (Hdb & Hn & view & Ht & Halt) (Hdb' & Hc' & Ht').
      unfold failing. rewrite Hdb', Hc'. repeat split; auto.
      rewrite Ht'; [discriminate|]. rewrite Ht. discriminate.
  - intros []. eapply hoare_from; [intros w0; apply sp_console_any| |].
    + intros w0 [] w (Hn & Halt & Ht) (Hdb' & Ht' & Hc'). unfold completed.
      rewrite Hdb', Ht', Hc', Hn. cbn. repeat split; auto. lia.
    + intros w0 e w _ [].
Qed.

Lemma failing_rollback db0 n0 :
  hoare (failing db0 n0) rollback
    (fun _ => thrown_back db0 n0) (fun _ => thrown_back db0 n0).
Proof.
  eapply hoare_from; [apply sp_rollback_sharp| |].
  - intros w0 [] w (Hdb & Hn & Ht) (Hdb' & Hc' & Ht'). unfold thrown_back.
    rewrite Hdb', Hc'. auto.
  - intros w0 e w (Hdb & Hn & Ht) (Hdb' & Hc' & Ht'). unfold thrown_back.
    rewrite Hdb', Hc'. auto.
Qed.

Lemma swallowed_console meant db0 n0 line E :
  is_completion (Console line) = false ->
  hoare (swallowed meant db0 n0) (console line) (fun _ => swallowed meant db0 n0) E.
Proof.
  intros Hl. eapply hoare_from; [intros w0; now apply sp_console| |].
  - intros w0 [] w. apply swallowed_keeps.
  - intros w0 e w _ [].
Qed.

Lemma rewritten_trans db0 db1 db2 :
  rewritten db0 db1 -> rewritten db1 db2 -> rewritten db0 db2.
Proof.
  intros H1 H2. induction H2; [exact H1| |].
  - eapply rewritten_delete; eauto.
  - eapply rewritten_insert; eauto.
Qed.

Lemma swallowed_restore (meant : Prop) db0 n0 backup tableName :
  (meant -> plain_rows backup) ->
  preserves (swallowed meant db0 n0) (restoreFromBackup backup tableName).
Proof.
  intros Hplain.
  eapply preserves_from; [intros w0; apply sp_restore_rewrites| |];
    intros w0 x w (Hn & Hr & Ht) (Hr' & Ht' & Hc'); unfold swallowed;
    rewrite Ht', Hc'; repeat split; auto;
    intros Hm; eapply rewritten_trans; eauto.
Qed.

Lemma failing_rollback_and_restore (meant : Prop) db0 n0 b1 b2 :
  (meant -> plain_rows b1) -> (meant -> plain_rows b2) ->
  hoare (failing db0 n0) (rollback_and_restore b1 b2)
    (fun _ => swallowed meant db0 n0) (fun _ => thrown_back db0 n0).
Proof.
  intros Hb1 Hb2. unfold rollback_and_restore.
  eapply hoare_bind with (R := fun _ => swallowed meant db0 n0).
  { eapply hoare_weaken with (Q' := fun _ => thrown_back db0 n0);
      [apply failing_rollback|intros w H; exact H| |intros e w H; exact H].
    intros [] w. apply thrown_back_swallowed. }
  intros [].
  eapply hoare_bind; [now apply swallowed_console|intros []].
  eapply hoare_try with (R := fun _ => swallowed meant db0 n0).
  - eapply hoare_bind; [now apply swallowed_restore|intros []].
    eapply hoare_bind; [now apply swallowed_restore|intros []].
    now apply swallowed_console.
  - intros e. now apply swallowed_console.
Qed.

(** Once the transaction has begun, a run ends completed or with the failure
    swallowed, or throws with the database as it was and the transaction
    finished. *)
Lemma begun_migration db0 n0 (rest : M unit) :
  rest = try_catch
           (console "Starting database migration..." ;;
            guildConfigExists <- checkTableExists "GuildConfigs" ;;
            streaksExists <- checkTableExists "Streaks" ;;
            if negb guildConfigExists || negb streaksExists then
              console "Tables do not exist, skipping migration" ;; commit
            else
              console "Creating backups..." ;;
              guildConfigBackup <- backupTable "GuildConfigs" ;;
              streaksBackup <- backupTable "Streaks" ;;
              try_catch migrate_tables
                (fun error => rollback_and_restore guildConfigBackup streaksBackup))
           (fun error => console "Migration failed:" ;; rollback ;; throw error) ->
  hoare (begun db0 n0) rest
    (fun _ w => completed db0 n0 w \/ swallowed (restorable db0) db0 n0 w)
    (fun _ => thrown_back db0 n0).
Proof.
  intros ->. eapply hoare_try with (R := fun _ => failing db0 n0).
  - eapply hoare_bind; [now apply begun_console|intros []].
    eapply hoare_bind; [apply begun_checkTableExists|intros guildConfigExists].
    eapply hoare_bind; [apply begun_checkTableExists|intros streaksExists].
    destruct (negb guildConfigExists || negb streaksExists).
    + eapply hoare_bind; [now apply begun_console|intros []].
      eapply hoare_from; [apply sp_commit_sharp| |].
      * intros w0 [] w (Hdb & Hn & Ht) (v & Hv & Hdb' & Ht' & Hc').
        rewrite Ht in Hv. injection Hv as <-. right. unfold swallowed.
        rewrite Hdb', Hc'. repeat split; auto. intros _. constructor.
      * intros w0 e w (Hdb & Hn & Ht) (Hdb' & Hc' & Ht'). unfold failing.
        rewrite Hdb', Hc'. repeat split; auto.
        rewrite Ht'; [discriminate|]. rewrite Ht. discriminate.
    + eapply hoare_bind; [now apply begun_console|intros []].
      eapply hoare_bind; [apply begun_backupTable|intros guildConfigBackup].
      eapply hoare_bind with
        (R := fun streaksBackup w =>
                begun db0 n0 w
                /\ (restorable db0 -> plain_rows guildConfigBackup)
                /\ (restorable db0 -> plain_rows streaksBackup)).
      { intros w Hw. destruct Hw as (Hb & t1 & Ht1 & ->).
        pose proof (begun_backupTable db0 n0 "Streaks" w Hb) as H.
        destruct (backupTable "Streaks" w) as [[b2|e] w']; [|exact H].
        destruct H as (Hb' & t2 & Ht2 & ->). split; [exact Hb'|].
        split; intros Hres; [apply (Hres "GuildConfigs" t1)|apply (Hres "Streaks" t2)];
          cbn; auto. }
      intros streaksBackup.
      intros w Hw. destruct Hw as (Hb & Hp1 & Hp2). revert w Hb.
      change (hoare (begun db0 n0)
                (try_catch migrate_tables
                   (fun error => rollback_and_restore guildConfigBackup streaksBackup))
                (fun _ w => completed db0 n0 w \/ swallowed (restorable db0) db0 n0 w)
                (fun _ => failing db0 n0)).
      eapply hoare_try with (R := fun _ => failing db0 n0).
      * eapply hoare_weaken; [apply altering_migrate_tables| | |].
        -- apply begun_altering.
        -- intros [] w H. now left.
        -- intros e w H. exact H.
      * intros e. eapply hoare_weaken;
          [apply (failing_rollback_and_restore (restorable db0)); assumption| | |].
        -- intros w H. exact H.
        -- intros [] w H. now right.
        -- intros e' w. apply thrown_back_failing.
  - intros e.
    eapply hoare_bind with (R := fun _ => failing db0 n0).
    { eapply hoare_from; [intros w0; now apply sp_console| |].
      - intros w0 [] w. apply failing_keeps.
      - intros w0 e' w _ []. }
    intros []. eapply hoare_bind; [apply failing_rollback|intros []].
    apply hoare_throw. auto.
Qed.

Lemma migrateDatabase_ends w :
  run_ended w (fst (migrateDatabase w)) (snd (migrateDatabase w)).
Proof.
  assert (H : hoare (eq w) migrateDatabase
                (fun a w' => run_ended w (Ret a) w')
                (fun e w' => run_ended w (Throw e) w')).
  { unfold migrateDatabase.
    eapply hoare_bind with
      (R := fun _ w' => begun (committed w) (completions w) w'
                        /\ refused (faults w) 0 = false).
    - eapply hoare_from; [apply sp_begin_sharp| |].
      + intros w0 [] w' <- (Hdb & Ht & Hc & Hr). repeat split; auto.
      + intros w0 e w' <- (Hdb & Ht & Hc & Hr). unfold run_ended. rewrite Hr.
        repeat split; eauto.
    - intros []. intros w1 [Hb Hr].
      pose proof (begun_migration (committed w) (completions w) _ eq_refl w1 Hb) as H.
      unfold run_ended. rewrite Hr.
      match type of H with match ?run with _ => _ end =>
        destruct run as [[[]|e] w2] end.
      + destruct H as [(Hn & Ha & Ht)|(Hn & Hw & Ht)]; split; auto.
      + destruct H as (Hdb & Hn & Ht). split; auto. }
  specialize (H w eq_refl). destruct (migrateDatabase w) as [[[]|e] w']; exact H.
Qed.

(** *** What the statements keep *)

Lemma same_tables_refl db : same_tables db db.
Proof. intros n. reflexivity. Qed.

Lemma same_tables_trans db1 db2 db3 :
  same_tables db1 db2 -> same_tables db2 db3 -> same_tables db1 db3.
Proof. intros H12 H23 n. rewrite (H12 n). apply H23. Qed.

Lemma same_tables_insert (db : gmap string table) tableName t t' :
  db !! tableName = Some t -> same_tables db (<[tableName := t']> db).
Proof.
  intros Ht n. destruct (decide (tableName = n)) as [<-|Hne].
  - rewrite lookup_insert_eq, Ht. split; eauto.
  - now rewrite lookup_insert_ne.
Qed.

Lemma add_column_tables tableName columnName type db db' :
  add_column tableName columnName type db = Some db' -> same_tables db db'.
Proof.
  unfold add_column. destruct (db !! tableName) as [t|] eqn:Ht; [|discriminate].
  case_bool_decide as Hnew; [discriminate|]. intros H. injection H as <-.
  eapply same_tables_insert; eauto.
Qed.

Lemma update_bestStreak_tables db db' :
  update_bestStreak db = Some db' -> same_tables db db'.
Proof.
  unfold update_bestStreak. destruct (db !! "Streaks") as [t|] eqn:Ht; [|discriminate].
  destruct (_ && _); [|discriminate]. intros H. injection H as <-.
  eapply same_tables_insert; eauto.
Qed.

Lemma delete_from_tables tableName db db' :
  delete_from tableName db = Some db' -> same_tables db db'.
Proof.
  unfold delete_from. destruct (db !! tableName) as [t|] eqn:Ht; [|discriminate].
  intros H. injection H as <-. eapply same_tables_insert; eauto.
Qed.

Lemma insert_into_tables tableName cols values db db' :
  insert_into tableName cols values db = Some db' -> same_tables db db'.
Proof.
  unfold insert_into. destruct (db !! tableName) as [t|] eqn:Ht; [|discriminate].
  destruct (forallb _ _); [|discriminate].
  intros H. injection H as <-. eapply same_tables_insert; eauto.
Qed.

Lemma altered_tables db db' : altered db db' -> same_tables db db'.
Proof.
  induction 1 as [|db1 db2 t c ty _ IH Hs|db1 db2 _ IH Hs]; [apply same_tables_refl| |].
  - eapply same_tables_trans; [exact IH|]. eapply add_column_tables; eauto.
  - eapply same_tables_trans; [exact IH|]. now apply update_bestStreak_tables.
Qed.

Lemma rewritten_tables db db' : rewritten db db' -> same_tables db db'.
Proof.
  induction 1 as [|db1 db2 t _ IH Hs|db1 db2 t cols vals _ IH Hs];
    [apply same_tables_refl| |].
  - eapply same_tables_trans; [exact IH|]. eapply delete_from_tables; eauto.
  - eapply same_tables_trans; [exact IH|]. eapply insert_into_tables; eauto.
Qed.

Lemma row_kept_refl cols r : row_kept cols r r.
Proof. intros k _. now left. Qed.

Lemma row_kept_trans cols cols' r0 r1 r2 :
  (forall c, c ∈ cols -> c ∈ cols') ->
  row_kept cols r0 r1 -> row_kept cols' r1 r2 -> row_kept cols r0 r2.
Proof.
  intros Hsub H01 H12 k Hk.
  destruct (H01 k Hk) as [E1|(Hb & a & b & Ha & Hb1 & Hle1)];
    destruct (H12 k (Hsub k Hk)) as [E2|(Hb' & b' & c & Hb2 & Hc & Hle2)].
  - left. congruence.
  - right. split; [exact Hb'|]. exists b', c. rewrite <- E1. auto.
  - right. split; [exact Hb|]. exists a, b. rewrite E2. auto.
  - right. split; [exact Hb|]. exists a, c. rewrite Hb1 in Hb2. injection Hb2 as <-.
    repeat split; auto. lia.
Qed.

Lemma rows_kept_refl cols (l : list (gmap string sql_value)) :
  Forall2 (row_kept cols) l l.
Proof. induction l; constructor; auto using row_kept_refl. Qed.

Lemma keeps_data_refl db : keeps_data db db.
Proof.
  intros n t Ht. exists t. split; [exact Ht|]. split; [auto|apply rows_kept_refl].
Qed.

Lemma keeps_data_trans db0 db1 db2 :
  keeps_data db0 db1 -> keeps_data db1 db2 -> keeps_data db0 db2.
Proof.
  intros H01 H12 n t0 Ht0.
  destruct (H01 n t0 Ht0) as (t1 & Ht1 & Hc1 & Hr1).
  destruct (H12 n t1 Ht1) as (t2 & Ht2 & Hc2 & Hr2).
  exists t2. split; [exact Ht2|]. split; [auto|].
  revert Hr1 Hr2. generalize (rows t0) (rows t1) (rows t2).
  intros l0 l1 l2 Hr1. revert l2.
  induction Hr1 as [|r0 r1 l0 l1 Hrow _ IH]; intros l2 Hr2; inversion Hr2; subst;
    constructor; eauto using row_kept_trans.
Qed.

(** A statement that replaces one table keeps the data when the new table
    has the old one's columns and keeps its rows. *)
Lemma keeps_data_insert (db : gmap string table) tableName t t' :
  db !! tableName = Some t ->
  (forall c, c ∈ columns t -> c ∈ columns t') ->
  Forall2 (row_kept (columns t)) (rows t) (rows t') ->
  keeps_data db (<[tableName := t']> db).
Proof.
  intros Ht Hc Hr n t0 Ht0. destruct (decide (tableName = n)) as [<-|Hne].
  - rewrite Ht in Ht0. injection Ht0 as <-. exists t'.
    rewrite lookup_insert_eq. auto.
  - exists t0. rewrite lookup_insert_ne by exact Hne. split; [exact Ht0|].
    split; [auto|apply rows_kept_refl].
Qed.

Lemma add_column_keeps_data tableName columnName type db db' :
  add_column tableName columnName type db = Some db' -> keeps_data db db'.
Proof.
  unfold add_column. destruct (db !! tableName) as [t|] eqn:Ht; [|discriminate].
  case_bool_decide as Hnew; [discriminate|]. intros H. injection H as <-.
  eapply keeps_data_insert; [exact Ht| |]; cbn [columns rows].
  - intros c Hc. apply elem_of_app. now left.
  - apply Forall2_fmap_r, Forall2_same_length_lookup. split; [reflexivity|].
    intros i r r' H1 H2. rewrite H1 in H2. injection H2 as <-.
    intros k Hk. left. apply lookup_insert_ne. intros ->. contradiction.
Qed.

Lemma fix_bestStreak_kept cols r : row_kept cols r (fix_bestStreak r).
Proof.
  unfold fix_bestStreak.
  destruct (r !! "bestStreak") as [[|b| | | |]|] eqn:Hb; try apply row_kept_refl.
  destruct (r !! "count") as [[|c| | | |]|] eqn:Hc; try apply row_kept_refl.
  destruct (Z.ltb_spec b c) as [Hlt|Hge]; [|apply row_kept_refl].
  intros k _. destruct (decide (k = "bestStreak")) as [->|Hne].
  - right. split; [reflexivity|]. exists b, c. rewrite lookup_insert_eq.
    repeat split; auto. lia.
  - left. now rewrite lookup_insert_ne.
Qed.

Lemma update_bestStreak_keeps_data db db' :
  update_bestStreak db = Some db' -> keeps_data db db'.
Proof.
  unfold update_bestStreak. destruct (db !! "Streaks") as [t|] eqn:Ht; [|discriminate].
  destruct (_ && _); [|discriminate]. intros H. injection H as <-.
  eapply keeps_data_insert; [exact Ht| |]; cbn [columns rows]; [auto|].
  apply Forall2_fmap_r, Forall2_same_length_lookup. split; [reflexivity|].
  intros i r r' H1 H2. rewrite H1 in H2. injection H2 as <-.
  apply fix_bestStreak_kept.
Qed.

Lemma altered_keeps_data db db' : altered db db' -> keeps_data db db'.
Proof.
  induction 1 as [|db1 db2 t c ty _ IH Hs|db1 db2 _ IH Hs]; [apply keeps_data_refl| |].
  - eapply keeps_data_trans; [exact IH|]. eapply add_column_keeps_data; eauto.
  - eapply keeps_data_trans; [exact IH|]. now apply update_bestStreak_keeps_data.
Qed.

(** ** Every run of the migration *)

Lemma restorable_drops_nothing w :
  restorable (committed w) ->
  extends (committed w) (committed (snd (migrateDatabase w)))
  /\ same_tables (committed w) (committed (snd (migrateDatabase w))).
Proof.
  intros Hres. pose proof (migrateDatabase_ends w) as [H _].
  destruct (migrateDatabase w) as [[[]|e] w']; cbn [fst snd] in *.
  - destruct H as [[_ H]|[_ H]].
    + split; [now apply altered_extends|now apply altered_tables].
    + specialize (H Hres).
      split; [now apply (rewritten_same_schema _ _ H)|now apply rewritten_tables].
  - destruct H as [_ ->]. split; [apply extends_refl|apply same_tables_refl].
Qed.

Lemma empty_tables_restorable guildConfigs streaks :
  rows guildConfigs = [] -> rows streaks = [] ->
  restorable {[ "GuildConfigs" := guildConfigs; "Streaks" := streaks ]}.
Proof.
  intros Hg Hs tableName t Hin Ht. cbn in Hin.
  destruct Hin as [<-|[<-|[]]].
  - rewrite lookup_insert_eq in Ht. injection Ht as <-. now rewrite Hg.
  - rewrite lookup_insert_ne, lookup_singleton_eq in Ht by discriminate.
    injection Ht as <-. now rewrite Hs.
Qed.

(** X9: for a database whose GuildConfigs and Streaks rows are plain, so that
    a restore writes statements the server reads as they are meant, and in
    particular when both tables are empty: whatever the server answers and
    however the run ends, the committed database afterwards has every column
    of every table it had before, and the same tables.  [migrateDatabase]
    then drops nothing and creates no table. *)
Theorem migration_drops_nothing w :
  restorable (committed w) ->
  extends (committed w) (committed (snd (migrateDatabase w)))
  /\ same_tables (committed w) (committed (snd (migrateDatabase w))).
Proof. apply restorable_drops_nothing. Qed.

Lemma migration_drops_nothing_witness :
  fst (migrateDatabase world_alter_fails_empty) = Ret tt
  /\ same_tables (committed world_alter_fails_empty)
       (committed (snd (migrateDatabase world_alter_fails_empty))).
Proof.
  split; [reflexivity|].
  apply (migration_drops_nothing world_alter_fails_empty).
  apply empty_tables_restorable; reflexivity.
Defined.

(** X10: when [migrateDatabase] throws, the committed database is the one the
    run started from and no completion has been logged: an error that
    reaches the caller never comes with a half-done migration. *)
Theorem migration_throw_changes_nothing w e :
  fst (migrateDatabase w) = Throw e ->
  committed (snd (migrateDatabase w)) = committed w
  /\ completions (snd (migrateDatabase w)) = completions w.
Proof.
  intros Hthrow. pose proof (migrateDatabase_ends w) as [H _].
  rewrite Hthrow in H. destruct H as [Hc Hdb]. auto.
Qed.

Lemma migration_throw_changes_nothing_witness :
  fst (migrateDatabase world_backup_fails) = Throw statement_refused
  /\ committed (snd (migrateDatabase world_backup_fails)) = committed world_backup_fails.
Proof.
  split; [reflexivity|].
  apply (migration_throw_changes_nothing world_backup_fails statement_refused).
  reflexivity.
Defined.

(** X11: the transaction of a run never stays open.  When the server refuses
    to begin it, [migrateDatabase] throws with the transaction state as it
    was; otherwise the transaction is finished when the run ends, returning
    or throwing. *)
Theorem migration_finishes_transaction w :
  if refused (faults w) 0
  then (exists e, fst (migrateDatabase w) = Throw e)
       /\ transaction (snd (migrateDatabase w)) = transaction w
  else transaction (snd (migrateDatabase w)) = Finished.
Proof.
  pose proof (migrateDatabase_ends w) as [_ H]. exact H.
Qed.

(** X12: for a database whose GuildConfigs and Streaks rows are plain, in
    particular with both tables empty, a run that does not log its
    completion leaves every table with exactly the columns it had: the
    schema changes only in a run that commits and reports success. *)
Theorem schema_changes_only_on_completion w :
  restorable (committed w) ->
  completions (snd (migrateDatabase w)) = completions w ->
  same_schema (committed w) (committed (snd (migrateDatabase w))).
Proof.
  intros Hres Hn. pose proof (migrateDatabase_ends w) as [H _].
  destruct (migrateDatabase w) as [[[]|e] w']; cbn [fst snd] in *.
  - destruct H as [[Hc _]|[_ H]]; [lia|]. now apply rewritten_same_schema, H.
  - destruct H as [_ ->]. split; apply extends_refl.
Qed.

Lemma schema_changes_only_on_completion_witness :
  same_schema (committed world_alter_fails_empty)
    (committed (snd (migrateDatabase world_alter_fails_empty))).
Proof.
  apply (schema_changes_only_on_completion world_alter_fails_empty);
    [apply empty_tables_restorable|]; reflexivity.
Defined.

(** X13: a run that logs its completion keeps the data: every table is still
    there with the columns it had and as many rows, in their order, and each
    row has the values it had in those columns, but for a bestStreak, which
    may have been raised. *)
Theorem completed_run_keeps_data w :
  completions (snd (migrateDatabase w)) = Datatypes.S (completions w) ->
  keeps_data (committed w) (committed (snd (migrateDatabase w))).
Proof.
  intros Hn. pose proof (migrateDatabase_ends w) as [H _].
  destruct (migrateDatabase w) as [[[]|e] w']; cbn [fst snd] in *.
  - destruct H as [[_ H]|[Hc _]]; [|lia]. now apply altered_keeps_data.
  - destruct H as [Hc _]. lia.
Qed.

Lemma completed_run_keeps_data_witness :
  keeps_data (committed world_old_guildConfigs)
    (committed (snd (migrateDatabase world_old_guildConfigs))).
Proof. apply (completed_run_keeps_data world_old_guildConfigs). reflexivity. Defined.

(** ** initializeDatabase *)

(** The three ways through [initializeDatabase]. *)
Lemma initializeDatabase_steps w :
  initializeDatabase w
  = match migrateDatabase (logged "Starting database initialization..." w) with
    | (Ret _, w2) =>
        match sync w2 with
        | (Ret _, w3) => (Ret tt, logged "Database synchronized successfully" w3)
        | (Throw e, w3) => (Throw e, logged "Error initializing database:" w3)
        end
    | (Throw e, w2) => (Throw e, logged "Error initializing database:" w2)
    end.
Proof.
  unfold initializeDatabase, try_catch, bind, logged, console, emit, throw.
  cbn [snd].
  destruct (migrateDatabase _) as [[[]|e] w2]; [|reflexivity].
  destruct (sync w2) as [[[]|e] w3]; reflexivity.
Qed.

Lemma create_if_missing_extends tableName m db :
  extends db (create_if_missing tableName m db).
Proof.
  unfold create_if_missing. destruct (db !! tableName) as [t|] eqn:Ht;
    [apply extends_refl|].
  intros t' c (tb & Htb & Hc). exists tb. split; [|exact Hc].
  rewrite lookup_insert_ne; [exact Htb|]. intros <-. congruence.
Qed.

Lemma create_if_missing_there tableName m db :
  is_Some (create_if_missing tableName m db !! tableName).
Proof.
  unfold create_if_missing. destruct (db !! tableName) as [t|] eqn:Ht; [eauto|].
  rewrite lookup_insert_eq. eauto.
Qed.

Lemma create_if_missing_keeps tableName m db other :
  is_Some (db !! other) -> is_Some (create_if_missing tableName m db !! other).
Proof.
  unfold create_if_missing. destruct (db !! tableName) as [t|] eqn:Ht; [auto|].
  intros H. destruct (decide (tableName = other)) as [<-|Hne].
  - rewrite lookup_insert_eq. eauto.
  - now rewrite lookup_insert_ne.
Qed.

Lemma synced_extends db : extends db (synced db).
Proof.
  unfold synced. eapply extends_trans; apply create_if_missing_extends.
Qed.

Lemma synced_tables db :
  is_Some (synced db !! "GuildConfigs") /\ is_Some (synced db !! "Streaks").
Proof.
  unfold synced. split; [|apply create_if_missing_there].
  apply create_if_missing_keeps, create_if_missing_there.
Qed.

(** What [sync] does for one model: when it returns, the table is there,
    created if it was missing; when it throws, the table may have been
    created all the same. *)
Lemma sp_sync_model tableName m w0 :
  hoare (eq w0) (sync_model tableName m)
    (fun _ w => committed w = create_if_missing tableName m (committed w0)
                /\ transaction w = transaction w0
                /\ additions w = additions w0 /\ completions w = completions w0)
    (fun _ w => (committed w = committed w0
                 \/ committed w = create_if_missing tableName m (committed w0))
                /\ transaction w = transaction w0
                /\ additions w = additions w0 /\ completions w = completions w0).
Proof.
  intros w <-. destruct w0 as [db tx fs tr srv].
  assert (Hthere : forall t, db !! tableName = Some t ->
                             db = create_if_missing tableName m db).
  { intros t Ht. unfold create_if_missing. now rewrite Ht. }
  unfold sync_model, query_committed, bind, request, get, set_committed,
    emit, ret, throw. cbn [faults committed transaction trace].
  destruct fs as [|[e0|] fs]; cbn [faults committed transaction trace];
    destruct (db !! tableName) as [t|] eqn:Ht; cbn [faults committed transaction trace];
    try (destruct fs as [|[e1|] fs]; cbn [faults committed transaction trace]);
    try (destruct fs as [|[e2|] fs]; cbn [faults committed transaction trace]);
    unfold additions, completions; cbn [trace];
    rewrite ?List.filter_app, ?List.length_app; cbn [List.filter is_addition
      is_completion List.length];
    rewrite ?Nat.add_0_r;
    repeat split; eauto.
Qed.

Lemma sp_sync w0 :
  hoare (eq w0) sync
    (fun _ w => committed w = synced (committed w0)
                /\ transaction w = transaction w0
                /\ additions w = additions w0 /\ completions w = completions w0)
    (fun _ w => (committed w = committed w0
                 \/ committed w
                    = create_if_missing "GuildConfigs" GuildConfig.definition
                        (committed w0)
                 \/ committed w = synced (committed w0))
                /\ transaction w = transaction w0
                /\ additions w = additions w0 /\ completions w = completions w0).
Proof.
  intros w <-. unfold sync, bind.
  pose proof (sp_sync_model "GuildConfigs" GuildConfig.definition w0 w0 eq_refl) as H1.
  destruct (sync_model "GuildConfigs" GuildConfig.definition w0) as [[[]|e] w1].
  - destruct H1 as (Hdb1 & Ht1 & Ha1 & Hc1).
    pose proof (sp_sync_model "Streaks" Streak.definition w1 w1 eq_refl) as H.
    destruct (sync_model "Streaks" Streak.definition w1) as [[[]|e] w2].
    + destruct H as (Hdb & Ht & Ha & Hc). unfold synced. rewrite Hdb, Hdb1.
      repeat split; congruence.
    + destruct H as (Hdb & Ht & Ha & Hc). split; [|repeat split; congruence].
      destruct Hdb as [Hdb|Hdb]; rewrite Hdb, Hdb1; [right; left|right; right];
        reflexivity.
  - destruct H1 as (Hdb1 & Ht1 & Ha1 & Hc1). split; [|auto].
    destruct Hdb1 as [->| ->]; auto.
Qed.

(** X14: when [initializeDatabase] returns, both model tables exist.  For a
    database whose GuildConfigs and Streaks rows are plain, so that a
    restore writes statements the server reads as they are meant, the
    committed database has every column of every table it had before,
    however the call ends; [sync] may have created one table or both also
    when the call throws. *)
Theorem initializeDatabase_tables w :
  (fst (initializeDatabase w) = Ret tt ->
   is_Some (committed (snd (initializeDatabase w)) !! "GuildConfigs")
   /\ is_Some (committed (snd (initializeDatabase w)) !! "Streaks"))
  /\ (restorable (committed w) ->
      extends (committed w) (committed (snd (initializeDatabase w)))).
Proof.
  rewrite initializeDatabase_steps.
  pose proof (restorable_drops_nothing
                (logged "Starting database initialization..." w)) as Hext.
  change (committed (logged "Starting database initialization..." w))
    with (committed w) in Hext.
  destruct (migrateDatabase _) as [[[]|e] w2]; cbn [fst snd] in *;
    [|split; [discriminate|intros Hres; now apply Hext]].
  pose proof (sp_sync w2 w2 eq_refl) as Hs.
  destruct (sync w2) as [[[]|e] w3]; cbn [fst snd logged console emit committed].
  - destruct Hs as (Hdb & _). rewrite Hdb. split; [intros _; apply synced_tables|].
    intros Hres. eapply extends_trans; [now apply Hext|apply synced_extends].
  - destruct Hs as (Hdb & _). split; [discriminate|]. intros Hres.
    eapply extends_trans; [now apply Hext|].
    destruct Hdb as [->|[->| ->]];
      [apply extends_refl|apply create_if_missing_extends|apply synced_extends].
Qed.

Lemma initializeDatabase_tables_witness :
  is_Some (committed (snd (initializeDatabase world_alter_fails_empty)) !! "Streaks")
  /\ extends (committed world_alter_fails_empty)
       (committed (snd (initializeDatabase world_alter_fails_empty))).
Proof.
  destruct (initializeDatabase_tables world_alter_fails_empty) as [Hret Hext].
  split; [apply Hret; reflexivity|].
  apply Hext. apply empty_tables_restorable; reflexivity.
Defined.

Lemma first_refusal_nil n : first_refusal n [] = None.
Proof. now destruct n. Qed.

Lemma first_refusal_add a b script :
  first_refusal (a + b) script
  = match first_refusal a script with
    | Some e => Some e
    | None => first_refusal b (drop a script)
    end.
Proof.
  revert script. induction a as [|a IH]; intros script; [reflexivity|].
  destruct script as [|[e|] rest]; cbn [Nat.add first_refusal drop].
  - now rewrite !first_refusal_nil.
  - reflexivity.
  - apply IH.
Qed.

(** [sync] for one model throws the first refusal among its requests, and
    returns when there is none, the table then being there. *)
Lemma sync_model_outcome tableName m w :
  let n := model_requests (committed w) tableName in
  fst (sync_model tableName m w)
  = match first_refusal n (faults w) with
    | Some e => Throw e
    | None => Ret tt
    end
  /\ (fst (sync_model tableName m w) = Ret tt ->
      faults (snd (sync_model tableName m w)) = drop n (faults w)
      /\ committed (snd (sync_model tableName m w))
         = create_if_missing tableName m (committed w)).
Proof.
  destruct w as [db tx fs tr srv].
  unfold model_requests, sync_model, query_committed, bind, request, get,
    set_committed, emit, ret, throw, create_if_missing.
  cbn [faults committed transaction trace].
  destruct (db !! tableName) as [t|] eqn:Ht;
    destruct fs as [|[e0|] [|[e1|] [|[e2|] fs]]];
    cbn [faults committed transaction trace fst snd first_refusal drop];
    rewrite ?Ht; cbn [faults committed transaction trace fst snd];
    (split; [reflexivity|]); try discriminate; intros _;
    (split; [reflexivity|]); rewrite ?Ht; reflexivity.
Qed.

Lemma create_if_missing_other tableName m db other :
  tableName <> other -> create_if_missing tableName m db !! other = db !! other.
Proof.
  intros Hne. unfold create_if_missing.
  destruct (db !! tableName); [reflexivity|]. now rewrite lookup_insert_ne.
Qed.

(** [sync] throws the first refusal among its requests, and returns when
    there is none. *)
Lemma sync_outcome w :
  fst (sync w)
  = match first_refusal (sync_requests (committed w)) (faults w) with
    | Some e => Throw e
    | None => Ret tt
    end.
Proof.
  unfold sync_requests. rewrite first_refusal_add.
  destruct (sync_model_outcome "GuildConfigs" GuildConfig.definition w) as [H1 H1'].
  cbv zeta in H1, H1'. unfold sync, bind.
  destruct (sync_model "GuildConfigs" GuildConfig.definition w) as [[[]|e1] w1];
    cbn [fst snd] in *.
  - destruct (first_refusal _ (faults w)); [discriminate|].
    destruct (H1' eq_refl) as [Hfs Hdb].
    destruct (sync_model_outcome "Streaks" Streak.definition w1) as [H2 _].
    cbv zeta in H2. rewrite H2, Hfs. unfold model_requests at 1.
    rewrite Hdb, create_if_missing_other by discriminate. reflexivity.
  - destruct (first_refusal _ (faults w)); [exact H1|discriminate].
Qed.

(** X15: [initializeDatabase] throws an error exactly when [migrateDatabase]
    throws it, or [migrateDatabase] returns and the server answers a request
    of [sync] with it, the first that it refuses: [sync] asks for each model
    whether its table exists and for its indexes, and creates the table
    between the two when it is missing.  An error of [migrateDatabase] is
    thrown on with the committed database as it was before the call. *)
Theorem initializeDatabase_throws w e :
  let run := migrateDatabase (logged "Starting database initialization..." w) in
  (fst (initializeDatabase w) = Throw e <->
     fst run = Throw e
     \/ (fst run = Ret tt
         /\ first_refusal (sync_requests (committed (snd run))) (faults (snd run))
            = Some e))
  /\ (fst run = Throw e -> committed (snd (initializeDatabase w)) = committed w).
Proof.
  cbv zeta. rewrite initializeDatabase_steps.
  pose proof (migrateDatabase_ends (logged "Starting database initialization..." w))
    as [Hend _].
  destruct (migrateDatabase _) as [[[]|e'] w2]; cbn [fst snd] in *.
  - split; [|discriminate].
    pose proof (sync_outcome w2) as Hs.
    destruct (sync w2) as [[[]|e'] w3]; cbn [fst] in *;
      destruct (first_refusal _ (faults w2)) as [e2|]; try discriminate.
    + split; [discriminate|]. intros [H|[_ H]]; discriminate.
    + injection Hs as ->.
      split; [intros H; injection H as <-; now right|].
      intros [H|[_ H]]; [discriminate|now injection H as <-].
  - split.
    + split; [auto|]. intros [H|[H _]]; [exact H|discriminate].
    + intros _. apply Hend.
Qed.

Lemma initializeDatabase_throws_witness :
  fst (initializeDatabase world_backup_fails) = Throw statement_refused
  /\ committed (snd (initializeDatabase world_backup_fails))
     = committed world_backup_fails.
Proof.
  split; [reflexivity|].
  apply (proj2 (initializeDatabase_throws world_backup_fails statement_refused)).
  reflexivity.
Defined.

(** *** A first start *)

Lemma refused_drop script n i : refused (drop n script) i = refused script (n + i).
Proof. unfold refused. now rewrite lookup_drop. Qed.

(** With a table missing and the transaction begun and committed, the run
    consumes four answers of the script and returns. *)
Lemma skip_run w :
  committed w !! "GuildConfigs" = None \/ committed w !! "Streaks" = None ->
  refused (faults w) 0 = false -> refused (faults w) 3 = false ->
  fst (migrateDatabase w) = Ret tt
  /\ committed (snd (migrateDatabase w)) = committed w
  /\ faults (snd (migrateDatabase w)) = drop 4 (faults w)
  /\ additions (snd (migrateDatabase w)) = additions w.
Proof.
  intros Hmissing H0 H3. destruct w as [db tx fs tr]. cbn in Hmissing, H0, H3.
  assert (Hskip : forall b1 b2,
            negb (b1 && bool_decide (is_Some (db !! "GuildConfigs")))
            || negb (b2 && bool_decide (is_Some (db !! "Streaks"))) = true).
  { intros b1 b2. destruct Hmissing as [Hm|Hm]; rewrite Hm.
    - rewrite bool_decide_eq_false_2; [now rewrite andb_false_r|].
      intros [x Hx]. discriminate.
    - rewrite (bool_decide_eq_false_2 (is_Some None));
        [now rewrite andb_false_r, orb_true_r|].
      intros [x Hx]. discriminate. }
  pose proof (Hskip true true) as Htt. pose proof (Hskip true false) as Htf.
  pose proof (Hskip false true) as Hft. cbn [andb negb orb] in Htt, Htf, Hft.
  unfold migrateDatabase, begin_transaction, checkTableExists, commit, console,
    bind, try_catch, request, get, set_transaction, set_committed, emit, ret, throw,
    additions.
  destruct fs as [|[e0|] [|[e1|] [|[e2|] [|[e3|] rest]]]]; try discriminate;
    cbn [faults committed transaction trace negb orb];
    rewrite ?Htt, ?Htf, ?Hft; cbn [faults committed transaction trace fst snd];
    (split; [reflexivity|]); (split; [reflexivity|]); (split; [reflexivity|]);
    rewrite ?List.filter_app, ?List.length_app; cbn; lia.
Qed.

Lemma synced_fresh db :
  db !! "GuildConfigs" = None -> db !! "Streaks" = None -> migrated (synced db).
Proof.
  intros Hg Hs. unfold synced, create_if_missing. rewrite Hg.
  rewrite lookup_insert_ne by discriminate. rewrite Hs.
  intros t c Hin. unfold has_column.
  unfold all_columns in Hin. cbn in Hin.
  repeat (destruct Hin as [Hin|Hin];
          [injection Hin as <- <-;
           first [ rewrite lookup_insert_eq | rewrite lookup_insert_ne by discriminate;
                                               rewrite lookup_insert_eq ];
           eexists; split; [reflexivity|]; cbn; set_solver|]).
  destruct Hin.
Qed.

(** With the table missing and its three requests let through, [sync]
    creates the table of a model. *)
Lemma sync_model_missing tableName m w :
  committed w !! tableName = None ->
  refused (faults w) 0 = false -> refused (faults w) 1 = false ->
  refused (faults w) 2 = false ->
  exists w',
    sync_model tableName m w = (Ret tt, w')
    /\ committed w' = create_if_missing tableName m (committed w)
    /\ faults w' = drop 3 (faults w)
    /\ additions w' = additions w.
Proof.
  intros Hmissing H0 H1 H2. unfold sync_model. unfold bind at 1.
  rewrite (request_accepted w H0). unfold bind at 1. unfold get.
  cbn [committed advance]. rewrite Hmissing. unfold bind.
  rewrite (query_committed_accepted _ _ (advance w)
             (create_if_missing tableName m (committed w)));
    [|now rewrite refused_advance|reflexivity].
  rewrite request_accepted.
  - eexists. split; [reflexivity|]. cbn [committed faults advance].
    split; [reflexivity|]. split; [now destruct (faults w) as [|a [|b [|c l]]]|].
    unfold additions. cbn [trace advance].
    rewrite List.filter_app, List.length_app. cbn. lia.
  - cbn [faults advance]. revert H2. unfold refused.
    now destruct (faults w) as [|a [|b l]].
Qed.

(** X16: a first start.  When neither table exists and the server refuses
    neither the transaction nor any of the six requests of [sync],
    [initializeDatabase] returns, having created both tables from the models
    and changed nothing else; the tables so created have every column the
    migration looks for, so the migration of the next start adds none,
    whatever the server answers then. *)
Theorem first_start_creates_tables w :
  committed w !! "GuildConfigs" = None -> committed w !! "Streaks" = None ->
  refused (faults w) 0 = false -> refused (faults w) 3 = false ->
  (forall i, (4 <= i <= 9)%nat -> refused (faults w) i = false) ->
  let w' := snd (initializeDatabase w) in
  fst (initializeDatabase w) = Ret tt
  /\ committed w' = synced (committed w)
  /\ additions w' = additions w
  /\ migrated (committed w')
  /\ forall script,
       additions (snd (migrateDatabase (with_faults script w'))) = additions w'.
Proof.
  intros Hg Hs H0 H3 Hsync. cbv zeta. rewrite initializeDatabase_steps.
  destruct (skip_run (logged "Starting database initialization..." w))
    as (Hret & Hdb & Hfs & Hadd); [now left|exact H0|exact H3|].
  destruct (migrateDatabase _) as [r w2]. cbn [fst snd] in *. subst r.
  cbn [logged console emit snd faults committed] in Hfs, Hdb.
  assert (Hr : forall i, (i <= 5)%nat -> refused (faults w2) i = false).
  { intros i Hi. rewrite Hfs, refused_drop. apply Hsync. lia. }
  assert (Hsynced : exists w4,
            sync w2 = (Ret tt, w4) /\ committed w4 = synced (committed w)
            /\ additions w4 = additions w2).
  { unfold sync. unfold bind.
    destruct (sync_model_missing "GuildConfigs" GuildConfig.definition w2)
      as (w3 & -> & Hdb3 & Hfs3 & Hadd3);
      [now rewrite Hdb|apply Hr; lia|apply Hr; lia|apply Hr; lia|].
    destruct (sync_model_missing "Streaks" Streak.definition w3)
      as (w4 & -> & Hdb4 & Hfs4 & Hadd4).
    { rewrite Hdb3, Hdb. unfold create_if_missing. rewrite Hg.
      now rewrite lookup_insert_ne by discriminate. }
    { rewrite Hfs3, refused_drop. apply Hr. lia. }
    { rewrite Hfs3, refused_drop. apply Hr. lia. }
    { rewrite Hfs3, refused_drop. apply Hr. lia. }
    exists w4. split; [reflexivity|]. split; [|congruence].
    rewrite Hdb4, Hdb3, Hdb. reflexivity. }
  destruct Hsynced as (w4 & -> & Hdb' & Hadd').
  assert (Hm : migrated (synced (committed w))) by now apply synced_fresh.
  assert (Hw' : committed (logged "Database synchronized successfully" w4)
                = synced (committed w)) by exact Hdb'.
  cbn [fst snd]. rewrite Hw'.
  split; [reflexivity|]. split; [reflexivity|]. split.
  { unfold additions in *. cbn [trace logged console emit snd] in *.
    rewrite !List.filter_app, !List.length_app in *. cbn in *. lia. }
  split; [exact Hm|].
  intros script. rewrite migrated_run_adds_nothing; [reflexivity|].
  cbn [with_faults committed]. now rewrite Hw'.
Qed.

Lemma first_start_creates_tables_witness :
  fst (initializeDatabase (world_of ∅ [])) = Ret tt
  /\ migrated (committed (snd (initializeDatabase (world_of ∅ [])))).
Proof.
  destruct (first_start_creates_tables (world_of ∅ []))
    as (Hret & _ & _ & Hm & _); try reflexivity.
  split; [exact Hret|exact Hm].
Defined.

(** ** What withRetry logs and how long it waits *)

Lemma wait_sum d a k :
  (2 * fold_right Z.add 0 ((fun j => d * Z.of_nat j) <$> seq a k)
   = d * Z.of_nat k * (2 * Z.of_nat a + Z.of_nat k - 1))%Z.
Proof.
  revert a. induction k as [|k IH]; intros a; [cbn; lia|].
  cbn [seq fmap list_fmap fold_right].
  change (list_fmap nat Z (fun j => (d * Z.of_nat j)%Z) (seq (Datatypes.S a) k))
    with ((fun j => (d * Z.of_nat j)%Z) <$> seq (Datatypes.S a) k).
  specialize (IH (Datatypes.S a)). nia.
Qed.

Lemma warnings_cons e log :
  warnings (e :: log)
  = match e with
    | Warned attempt maxRetries => (attempt, maxRetries) :: warnings log
    | _ => warnings log
    end.
Proof. now destruct e. Qed.

Lemma retry_loop_warnings {S A} (operation : S -> outcome A * S) maxRetries :
  forall remaining attempt lastError s r s' log,
    (attempt + remaining = maxRetries + 1)%nat -> (1 <= remaining)%nat ->
    retry_loop operation maxRetries attempt remaining lastError s = (r, s', log) ->
    (1 <= invocations log)%nat
    /\ warnings log
       = (fun j => (j, maxRetries))
           <$> seq attempt (if transient (r, s') then invocations log
                            else invocations log - 1).
Proof.
  induction remaining as [|k IH]; intros attempt lastError s r s' log Hsum Hpos;
    [lia|].
  cbn [retry_loop]. destruct (operation s) as [[a|e] s1] eqn:Hop.
  { intros H. injection H as <- <- <-. cbn. split; [lia|reflexivity]. }
  rewrite retryOnError_spec. destruct e as [|name message].
  { intros H. injection H as <- <- <-. cbn. split; [lia|reflexivity]. }
  rewrite <- (transient_outcome (A := A) (Error name message) s1).
  destruct (transient (Throw (Error name message), s1)) eqn:Htransient; cycle 1.
  { intros H. injection H as <- <- <-. rewrite Htransient. cbn.
    split; [lia|reflexivity]. }
  destruct (Nat.ltb_spec attempt maxRetries) as [Hlt|Hge]; cycle 1.
  { intros H. injection H as <- <- <-. rewrite Htransient. cbn.
    split; [lia|reflexivity]. }
  destruct (retry_loop operation maxRetries (attempt + 1) k (Error name message) s1)
    as [[r1 s2] log1] eqn:Hrec.
  intros H. injection H as <- <- <-.
  destruct (IH (attempt + 1)%nat (Error name message) s1 r1 s2 log1
              ltac:(lia) ltac:(lia) Hrec)
    as (Hinv & Hwarn).
  rewrite !invocations_cons, !warnings_cons, !Nat.add_0_l. split; [lia|].
  rewrite Hwarn, Nat.add_1_r.
  destruct (transient (r1, s2)).
  - reflexivity.
  - replace (1 + invocations log1 - 1)%nat
      with (Datatypes.S (invocations log1 - 1)) by lia.
    reflexivity.
Qed.

(** X17: what [withRetry] logs and how long it waits.  With [maxRetries] 0
    it throws [undefined] without invoking the operation.  Otherwise it
    warns once for each transient failure, naming the attempt and the bound,
    and for no other; after [n] invocations it has waited
    [retryDelay * n * (n - 1) / 2] milliseconds in all, at most
    [retryDelay * maxRetries * (maxRetries - 1) / 2], three seconds as
    configured. *)
Theorem withRetry_waits_and_warns {S A : Type} (operation : S -> outcome A * S)
  (maxRetries : nat) (s : S) :
  withRetry operation 0 s = (Throw ThrownUndefined, s, [])
  /\ (retryConfig.retryDelay * Z.of_nat retryConfig.maxRetries
      * (Z.of_nat retryConfig.maxRetries - 1) = 2 * 3000)%Z
  /\ let '(r, s', log) := withRetry operation maxRetries s in
     let n := Z.of_nat (invocations log) in
     (2 * total_wait log = retryConfig.retryDelay * n * (n - 1))%Z
     /\ (2 * total_wait log
         <= retryConfig.retryDelay * Z.of_nat maxRetries * (Z.of_nat maxRetries - 1))%Z
     /\ warnings log
        = (fun j => (j, maxRetries))
            <$> seq 1 (if transient (r, s') then invocations log
                       else invocations log - 1).
Proof.
  split; [reflexivity|]. split; [reflexivity|].
  destruct maxRetries as [|m]; [cbn; repeat split; lia|].
  unfold withRetry.
  destruct (retry_loop operation (Datatypes.S m) 1 (Datatypes.S m) ThrownUndefined s)
    as [[r s'] log] eqn:Hrun.
  destruct (retry_loop_spec operation (Datatypes.S m) (Datatypes.S m) 1%nat
              ThrownUndefined s r s' log ltac:(lia) ltac:(lia) Hrun)
    as (Hinv & _ & _ & Hwaits).
  destruct (retry_loop_warnings operation (Datatypes.S m) (Datatypes.S m) 1%nat
              ThrownUndefined s r s' log ltac:(lia) ltac:(lia) Hrun)
    as (_ & Hwarn).
  cbv zeta. unfold total_wait. rewrite Hwaits, wait_sum.
  unfold retryConfig.retryDelay.
  split; [|split; [|exact Hwarn]].
  - replace (Z.of_nat (invocations log - 1)) with (Z.of_nat (invocations log) - 1)%Z
      by lia. lia.
  - replace (Z.of_nat (invocations log - 1)) with (Z.of_nat (invocations log) - 1)%Z
      by lia. nia.
Qed.

(** ** The refresh command *)

Lemma map_get_set_eq key c cache :
  Refresh.map_get key (Refresh.map_set key c cache) = Some c.
Proof.
  induction cache as [|[k c'] rest IH]; cbn.
  - now rewrite String.eqb_refl.
  - destruct (String.eqb_spec k key) as [->|Hne]; cbn.
    + now rewrite String.eqb_refl.
    + now destruct (String.eqb_spec k key).
Qed.

Lemma map_get_set_ne key key' c cache :
  key <> key' ->
  Refresh.map_get key' (Refresh.map_set key c cache) = Refresh.map_get key' cache.
Proof.
  intros Hne. induction cache as [|[k c'] rest IH]; cbn.
  - now destruct (String.eqb_spec key key').
  - destruct (String.eqb_spec k key) as [->|Hk]; cbn.
    + now destruct (String.eqb_spec key key').
    + now rewrite IH.
Qed.

Lemma map_set_keys key c cache :
  fst <$> Refresh.map_set key c cache
  = if bool_decide (key ∈ fst <$> cache) then fst <$> cache else (fst <$> cache) ++ [key].
Proof.
  induction cache as [|[k c'] rest IH]; cbn.
  - rewrite bool_decide_eq_false_2; [reflexivity|]. apply not_elem_of_nil.
  - destruct (String.eqb_spec k key) as [->|Hk]; cbn.
    + rewrite bool_decide_eq_true_2; [reflexivity|]. apply elem_of_cons. now left.
    + rewrite IH. case_bool_decide as Hin.
      * rewrite bool_decide_eq_true_2; [reflexivity|]. apply elem_of_cons. now right.
      * rewrite bool_decide_eq_false_2; [reflexivity|].
        rewrite elem_of_cons. intros [->|H]; contradiction.
Qed.

Lemma map_set_NoDup key c cache :
  NoDup (fst <$> cache) -> NoDup (fst <$> Refresh.map_set key c cache).
Proof.
  intros H. rewrite map_set_keys. case_bool_decide as Hin; [exact H|].
  apply NoDup_app. split; [exact H|]. split; [|apply NoDup_singleton].
  intros k Hk Hk'. apply list_elem_of_singleton in Hk'. now subst.
Qed.

Lemma filled_snoc found kc cache :
  Refresh.filled (found ++ [kc]) cache
  = Refresh.map_set (fst kc) (snd kc) (Refresh.filled found cache).
Proof. unfold Refresh.filled. now rewrite fold_left_app. Qed.

Lemma filled_NoDup found cache :
  NoDup (fst <$> cache) -> NoDup (fst <$> Refresh.filled found cache).
Proof.
  intros H. induction found as [|kc found IH] using rev_ind; [exact H|].
  rewrite filled_snoc. now apply map_set_NoDup.
Qed.

Lemma filled_get found cache key :
  Refresh.map_get key (Refresh.filled found cache)
  = match Refresh.map_get key (rev found) with
    | Some c => Some c
    | None => Refresh.map_get key cache
    end.
Proof.
  induction found as [|[k c] found IH] using rev_ind; [reflexivity|].
  rewrite filled_snoc, rev_app_distr. cbn.
  destruct (String.eqb_spec k key) as [->|Hne].
  - apply map_get_set_eq.
  - rewrite map_get_set_ne by exact Hne. exact IH.
Qed.

Lemma map_get_elem key c cache :
  Refresh.map_get key cache = Some c -> (key, c) ∈ cache.
Proof.
  induction cache as [|[k c'] rest IH]; cbn; [discriminate|].
  destruct (String.eqb_spec k key) as [->|Hne].
  - intros H. injection H as ->. apply elem_of_cons. now left.
  - intros H. apply elem_of_cons. right. auto.
Qed.

Lemma elem_map_get key c cache :
  NoDup (fst <$> cache) -> (key, c) ∈ cache -> Refresh.map_get key cache = Some c.
Proof.
  induction cache as [|[k c'] rest IH]; cbn; intros Hnd Hin.
  - now apply elem_of_nil in Hin.
  - apply NoDup_cons in Hnd as [Hk Hnd]. apply elem_of_cons in Hin as [Heq|Hin].
    + injection Heq as -> ->. now rewrite String.eqb_refl.
    + destruct (String.eqb_spec k key) as [->|Hne]; [|auto].
      exfalso. apply Hk. apply list_elem_of_fmap. now exists (key, c).
Qed.

(** *** The calls *)

Lemma call_accepted s :
  refused (Refresh.answers s) 0 = false -> Refresh.call s = (Ret tt, Refresh.answered s).
Proof.
  unfold refused, Refresh.call, Refresh.answered. destruct s as [a d m c r ans rep l].
  cbn. destruct ans as [|[e|] rest]; cbn; intros H;
    [reflexivity|discriminate|reflexivity].
Qed.

Lemma call_refused s :
  refused (Refresh.answers s) 0 = true ->
  exists e, Refresh.call s = (Throw e, Refresh.answered s).
Proof.
  unfold refused, Refresh.call, Refresh.answered. destruct s as [a d m c r ans rep l].
  cbn. destruct ans as [|[e|] rest]; cbn; intros H; try discriminate. now exists e.
Qed.

(** *** The first loop *)

Lemma framed_refl s : Refresh.framed s s.
Proof. repeat split. Qed.

Lemma framed_trans s1 s2 s3 :
  Refresh.framed s1 s2 -> Refresh.framed s2 s3 -> Refresh.framed s1 s3.
Proof.
  intros (A1 & D1 & M1 & R1 & N1 & P1) (A2 & D2 & M2 & R2 & N2 & P2).
  unfold Refresh.framed. repeat split; congruence.
Qed.

Lemma reload_spec file s :
  exists s', Refresh.reload file s = (Ret tt, s')
    /\ Refresh.framed s s'
    /\ Refresh.commands s'
       = match Refresh.named s file with
         | Some (key, c) => Refresh.map_set key c (Refresh.commands s)
         | None => Refresh.commands s
         end.
Proof.
  unfold Refresh.reload, Refresh.named, Refresh.try_catch, Refresh.bind, Refresh.require,
    Refresh.throw, Refresh.console, Refresh.cache_set, Refresh.set_commands.
  destruct (Refresh.modules s file) as [[c|]|e]; cbn.
  - destruct (Refresh.cache_key c) as [key|]; cbn; eexists;
      (split; [reflexivity|]); split; try reflexivity; repeat split.
  - eexists. split; [reflexivity|]. split; [repeat split|reflexivity].
  - eexists. split; [reflexivity|]. split; [repeat split|reflexivity].
Qed.

Lemma reload_loop files s :
  exists s', Refresh.for_of files Refresh.reload s = (Ret tt, s')
    /\ Refresh.framed s s'
    /\ Refresh.commands s'
       = Refresh.filled (omap (Refresh.named s) files) (Refresh.commands s).
Proof.
  revert s. induction files as [|file files IH]; intros s.
  - exists s. split; [reflexivity|]. split; [apply framed_refl|reflexivity].
  - cbn [Refresh.for_of]. unfold Refresh.bind at 1.
    destruct (reload_spec file s) as (s1 & -> & Hf1 & Hc1).
    destruct (IH s1) as (s2 & -> & Hf2 & Hc2).
    exists s2. split; [reflexivity|]. split; [eapply framed_trans; eauto|].
    rewrite Hc2, Hc1.
    assert (Hnamed : Refresh.named s1 = Refresh.named s).
    { unfold Refresh.named. destruct Hf1 as (_ & _ & -> & _). reflexivity. }
    rewrite Hnamed. cbn [omap list_omap].
    destruct (Refresh.named s file) as [[key c]|]; reflexivity.
Qed.

(** *** The runs of [execute] *)

Lemma execute_returns s : fst (Refresh.execute s) = Ret tt.
Proof.
  unfold Refresh.execute. unfold Refresh.try_catch at 1.
  match goal with
  | |- fst (match ?body with _ => _ end) = _ => destruct body as [[[]|e] s1]
  end; [reflexivity|].
  unfold Refresh.bind, Refresh.try_catch, Refresh.console, Refresh.editReply,
    Refresh.call.
  cbn [Refresh.answers]. destruct (Refresh.answers s1) as [|[e'|] rest]; reflexivity.
Qed.

Ltac run_refresh :=
  unfold Refresh.execute, Refresh.try_catch, Refresh.bind, Refresh.deferReply,
    Refresh.isAdministrator, Refresh.editReply, Refresh.register, Refresh.payload,
    Refresh.clear, Refresh.set_commands, Refresh.readdirSync, Refresh.console,
    Refresh.call, Refresh.throw, Refresh.ret;
  cbn [Refresh.administrator Refresh.directory Refresh.modules Refresh.commands
       Refresh.registered Refresh.answers Refresh.replies Refresh.lines fst snd negb].

Ltac replied :=
  cbn [Refresh.administrator Refresh.directory Refresh.modules Refresh.commands
       Refresh.registered Refresh.answers Refresh.replies Refresh.lines fst snd negb];
  first [ exists []; split; [now rewrite app_nil_r|]
        | eexists [_]; split; [reflexivity|] ].

(** Without the permission, or without the deferred reply, the run touches
    neither the cache nor Discord's list. *)
Lemma execute_refused s :
  Refresh.administrator s <> Some true \/ refused (Refresh.answers s) 0 = true ->
  Refresh.commands (snd (Refresh.execute s)) = Refresh.commands s
  /\ Refresh.registered (snd (Refresh.execute s)) = Refresh.registered s
  /\ exists new,
       Refresh.replies (snd (Refresh.execute s)) = Refresh.replies s ++ new
       /\ (List.length new <= 1)%nat
       /\ forall r, In r new -> r = Refresh.NoPermission \/ r = Refresh.ErrorOccurred.
Proof.
  destruct s as [adm dir mods cache reg ans rep lns]. unfold refused. cbn.
  intros H. run_refresh.
  destruct ans as [|[e0|] [|[e1|] [|[e2|] rest]]]; cbn in H;
    destruct adm as [[|]|];
    try (destruct H as [H|H]; [now contradiction H|discriminate H]);
    cbn; (split; [reflexivity|]); (split; [reflexivity|]); replied;
    (split; [cbn; lia|]); cbn; intros r Hr; intuition.
Qed.

(** When the directory cannot be read, the cache stays cleared. *)
Lemma execute_unreadable s e :
  Refresh.administrator s = Some true -> refused (Refresh.answers s) 0 = false ->
  Refresh.directory s = Throw e ->
  Refresh.commands (snd (Refresh.execute s)) = []
  /\ Refresh.registered (snd (Refresh.execute s)) = Refresh.registered s
  /\ exists new,
       Refresh.replies (snd (Refresh.execute s)) = Refresh.replies s ++ new
       /\ (List.length new <= 1)%nat
       /\ forall r, In r new -> r = Refresh.ErrorOccurred.
Proof.
  destruct s as [adm dir mods cache reg ans rep lns]. unfold refused. cbn.
  intros -> Hr ->. run_refresh.
  destruct ans as [|[e0|] [|[e1|] rest]]; try discriminate Hr;
    cbn; (split; [reflexivity|]); (split; [reflexivity|]); replied;
    (split; [cbn; lia|]); cbn; intros r Hin; intuition.
Qed.

(** An administrator's run is the first loop, from the cleared cache, and
    then the registration. *)
Lemma execute_reloads s files :
  Refresh.administrator s = Some true -> refused (Refresh.answers s) 0 = false ->
  Refresh.directory s = Ret files ->
  exists s2,
    Refresh.framed (Refresh.answered s) s2
    /\ Refresh.commands s2 = Refresh.filled (Refresh.loadable s files) []
    /\ Refresh.execute s
       = Refresh.try_catch
           (Refresh.bind Refresh.payload (fun commands' =>
              Refresh.try_catch
                (Refresh.bind (Refresh.register commands') (fun _ =>
                   Refresh.editReply Refresh.Refreshed))
                (fun error =>
                   Refresh.bind
                     (Refresh.console "Error registering refreshed commands:")
                     (fun _ => Refresh.editReply Refresh.RegistrationFailed))))
           (fun error =>
              Refresh.bind (Refresh.console "Error in refresh command:") (fun _ =>
                Refresh.try_catch (Refresh.editReply Refresh.ErrorOccurred)
                  (fun replyError =>
                     Refresh.console "Failed to send error message:")))
           s2.
Proof.
  intros Ha Hr Hd.
  destruct (reload_loop
              (List.filter (fun file => Refresh.endsWith file ".js") files)
              (snd (Refresh.clear (Refresh.answered s))))
    as (s2 & Hloop & Hframe & Hcache).
  exists s2. split; [|split].
  - destruct Hframe as (H1 & H2 & H3 & H4 & H5 & H6). repeat split; assumption.
  - rewrite Hcache. reflexivity.
  - unfold Refresh.execute, Refresh.deferReply.
    unfold Refresh.try_catch at 1. unfold Refresh.bind at 1.
    rewrite (call_accepted s Hr).
    unfold Refresh.bind at 1. unfold Refresh.isAdministrator at 1.
    cbn [Refresh.administrator Refresh.answered]. rewrite Ha. cbn [negb].
    unfold Refresh.bind at 1.
    change (Refresh.clear (Refresh.answered s))
      with (Ret tt, snd (Refresh.clear (Refresh.answered s))) at 1.
    cbv iota beta.
    unfold Refresh.bind at 1. unfold Refresh.readdirSync at 1.
    change (Refresh.directory (snd (Refresh.clear (Refresh.answered s))))
      with (Refresh.directory s).
    rewrite Hd. unfold Refresh.bind at 1. rewrite Hloop.
    unfold Refresh.try_catch at 3. reflexivity.
Qed.

(** The registration, from the cache as the first loop left it. *)
Lemma execute_registers s2 :
  let s' :=
    snd (Refresh.try_catch
           (Refresh.bind Refresh.payload (fun commands' =>
              Refresh.try_catch
                (Refresh.bind (Refresh.register commands') (fun _ =>
                   Refresh.editReply Refresh.Refreshed))
                (fun error =>
                   Refresh.bind
                     (Refresh.console "Error registering refreshed commands:")
                     (fun _ => Refresh.editReply Refresh.RegistrationFailed))))
           (fun error =>
              Refresh.bind (Refresh.console "Error in refresh command:") (fun _ =>
                Refresh.try_catch (Refresh.editReply Refresh.ErrorOccurred)
                  (fun replyError =>
                     Refresh.console "Failed to send error message:")))
           s2) in
  Refresh.commands s' = Refresh.commands s2
  /\ exists new,
       Refresh.replies s' = Refresh.replies s2 ++ new
       /\ (List.length new <= 1)%nat
       /\ match Refresh.to_payload (Refresh.commands s2) with
          | Ret jsons =>
              (Refresh.registered s' = jsons
               \/ Refresh.registered s' = Refresh.registered s2)
              /\ (In Refresh.Refreshed new -> Refresh.registered s' = jsons)
              /\ (refused (Refresh.answers s2) 0 = false ->
                  Refresh.registered s' = jsons
                  /\ (refused (Refresh.answers s2) 1 = false ->
                      new = [Refresh.Refreshed]))
          | Throw _ =>
              Refresh.registered s' = Refresh.registered s2
              /\ ~ In Refresh.Refreshed new
          end.
Proof.
  destruct s2 as [adm dir mods cache reg ans rep lns]. cbv zeta. unfold refused.
  run_refresh.
  destruct (Refresh.to_payload cache) as [jsons|e];
    destruct ans as [|[e0|] [|[e1|] [|[e2|] [|[e3|] rest]]]];
    cbn; (split; [reflexivity|]); replied; (split; [cbn; lia|]); cbn;
    repeat split; auto; try discriminate; intuition discriminate.
Qed.

(** X18: [execute] never throws: whatever fails, a call to Discord, the
    permission check on an interaction without member, reading the
    directory, loading a file or building the JSON, the error is caught and
    the promise resolves. *)
Theorem refresh_never_throws s : fst (Refresh.execute s) = Ret tt.
Proof. apply execute_returns. Qed.

(** X19: without the Administrator permission, on an interaction without
    member, or when Discord refuses the deferred reply, [execute] leaves the
    command cache and the list registered with Discord as they were, and the
    one reply it may deliver is the refusal or the error message. *)
Theorem refresh_needs_administrator s :
  Refresh.administrator s <> Some true \/ refused (Refresh.answers s) 0 = true ->
  Refresh.commands (snd (Refresh.execute s)) = Refresh.commands s
  /\ Refresh.registered (snd (Refresh.execute s)) = Refresh.registered s
  /\ exists new,
       Refresh.replies (snd (Refresh.execute s)) = Refresh.replies s ++ new
       /\ (List.length new <= 1)%nat
       /\ forall r, In r new -> r = Refresh.NoPermission \/ r = Refresh.ErrorOccurred.
Proof. apply execute_refused. Qed.

Lemma refresh_needs_administrator_witness :
  Refresh.commands
    (snd (Refresh.execute
            (Refresh.session_of (Some false) (Ret Refresh.example_directory) [])))
  = [("stale", Refresh.draft)].
Proof.
  apply (refresh_needs_administrator
           (Refresh.session_of (Some false) (Ret Refresh.example_directory) [])).
  left. discriminate.
Defined.

(** X20: after an administrator's run that could read the directory, the
    cache holds exactly the commands of the directory's .js files that load
    and have data, a name and an execute: no name twice, under each name the
    command of the last such file of that name, and nothing of what the
    cache held before. *)
Theorem refresh_rebuilds_cache s files :
  Refresh.administrator s = Some true -> refused (Refresh.answers s) 0 = false ->
  Refresh.directory s = Ret files ->
  NoDup (fst <$> Refresh.commands (snd (Refresh.execute s)))
  /\ (forall key,
        Refresh.map_get key (Refresh.commands (snd (Refresh.execute s)))
        = Refresh.map_get key (rev (Refresh.loadable s files)))
  /\ (forall key c,
        (key, c) ∈ Refresh.commands (snd (Refresh.execute s)) ->
        Refresh.cache_key c = Some key
        /\ exists file, file ∈ files /\ Refresh.endsWith file ".js" = true
                        /\ Refresh.modules s file = Ret (Some c)).
Proof.
  intros Ha Hr Hd.
  destruct (execute_reloads s files Ha Hr Hd) as (s2 & _ & Hcache & ->).
  destruct (execute_registers s2) as [-> _]. rewrite Hcache.
  assert (Hnd : NoDup (fst <$> Refresh.filled (Refresh.loadable s files) []))
    by (apply filled_NoDup; constructor).
  assert (Hget : forall key,
             Refresh.map_get key (Refresh.filled (Refresh.loadable s files) [])
             = Refresh.map_get key (rev (Refresh.loadable s files))).
  { intros key. rewrite filled_get. cbn [Refresh.map_get].
    now destruct (Refresh.map_get key (rev (Refresh.loadable s files))). }
  split; [exact Hnd|]. split; [exact Hget|].
  intros key c Hin. apply elem_map_get in Hin; [|exact Hnd].
  rewrite Hget in Hin. apply map_get_elem, list_elem_of_In, in_rev in Hin.
  apply list_elem_of_In in Hin. unfold Refresh.loadable in Hin. apply list_elem_of_omap in Hin as (file & Hfile & Hnamed).
  apply list_elem_of_In, List.filter_In in Hfile as [Hfile Hjs].
  unfold Refresh.named in Hnamed.
  destruct (Refresh.modules s file) as [[c'|]|e] eqn:Hmod; try discriminate.
  destruct (Refresh.cache_key c') as [key'|] eqn:Hkey; [|discriminate].
  injection Hnamed as <- <-. split; [exact Hkey|].
  exists file. split; [now apply list_elem_of_In|]. auto.
Qed.

Lemma refresh_rebuilds_cache_witness :
  Refresh.map_get "ping"
    (Refresh.commands
       (snd (Refresh.execute
               (Refresh.session_of (Some true) (Ret Refresh.example_directory) []))))
  = Some Refresh.ping.
Proof.
  rewrite (proj1 (proj2 (refresh_rebuilds_cache
                           (Refresh.session_of (Some true)
                              (Ret Refresh.example_directory) [])
                           Refresh.example_directory eq_refl eq_refl eq_refl)) "ping").
  reflexivity.
Defined.

(** X21: the cache is cleared before the directory is read.  When
    [readdirSync] throws in an administrator's run, the run ends with the
    cache empty, the commands it held gone; Discord's list is as it was and
    the one reply it may deliver is the error message. *)
Theorem refresh_unreadable_directory s e :
  Refresh.administrator s = Some true -> refused (Refresh.answers s) 0 = false ->
  Refresh.directory s = Throw e ->
  Refresh.commands (snd (Refresh.execute s)) = []
  /\ Refresh.registered (snd (Refresh.execute s)) = Refresh.registered s
  /\ exists new,
       Refresh.replies (snd (Refresh.execute s)) = Refresh.replies s ++ new
       /\ (List.length new <= 1)%nat
       /\ forall r, In r new -> r = Refresh.ErrorOccurred.
Proof. apply execute_unreadable. Qed.

Lemma refresh_unreadable_directory_witness :
  Refresh.commands
    (snd (Refresh.execute
            (Refresh.session_of (Some true)
               (Throw (Error "Error" "ENOENT: no such file or directory, scandir"))
               [])))
  = [].
Proof.
  apply (refresh_unreadable_directory
           (Refresh.session_of (Some true)
              (Throw (Error "Error" "ENOENT: no such file or directory, scandir")) [])
           (Error "Error" "ENOENT: no such file or directory, scandir"));
    reflexivity.
Defined.

(** X22: in every run, the list registered with Discord is afterwards the
    one it was or the JSON of the commands in the cache; the run delivers at
    most one reply; and the reply that reports success is delivered only in
    an administrator's run that has registered the JSON of the cache. *)
Theorem refresh_registers_the_cache s :
  (Refresh.registered (snd (Refresh.execute s)) = Refresh.registered s
   \/ Refresh.to_payload (Refresh.commands (snd (Refresh.execute s)))
      = Ret (Refresh.registered (snd (Refresh.execute s))))
  /\ exists new,
       Refresh.replies (snd (Refresh.execute s)) = Refresh.replies s ++ new
       /\ (List.length new <= 1)%nat
       /\ (In Refresh.Refreshed new ->
           Refresh.administrator s = Some true
           /\ Refresh.to_payload (Refresh.commands (snd (Refresh.execute s)))
              = Ret (Refresh.registered (snd (Refresh.execute s)))).
Proof.
  destruct (decide (Refresh.administrator s = Some true)) as [Ha|Ha]; cycle 1.
  { destruct (execute_refused s (or_introl Ha)) as (_ & Hreg & new & Hrep & Hlen & Hnew).
    split; [now left|]. exists new. split; [exact Hrep|]. split; [exact Hlen|].
    intros Hin. destruct (Hnew _ Hin); discriminate. }
  destruct (refused (Refresh.answers s) 0) eqn:Hr.
  { destruct (execute_refused s (or_intror Hr)) as (_ & Hreg & new & Hrep & Hlen & Hnew).
    split; [now left|]. exists new. split; [exact Hrep|]. split; [exact Hlen|].
    intros Hin. destruct (Hnew _ Hin); discriminate. }
  destruct (Refresh.directory s) as [files|e] eqn:Hd; cycle 1.
  { destruct (execute_unreadable s e Ha Hr Hd) as (_ & Hreg & new & Hrep & Hlen & Hnew).
    split; [now left|]. exists new. split; [exact Hrep|]. split; [exact Hlen|].
    intros Hin. specialize (Hnew _ Hin). discriminate. }
  destruct (execute_reloads s files Ha Hr Hd) as (s2 & Hframe & _ & ->).
  destruct Hframe as (_ & _ & _ & Hreg2 & _ & Hrep2).
  cbn [Refresh.answered Refresh.registered Refresh.replies] in Hreg2, Hrep2.
  destruct (execute_registers s2) as (Hc & new & Hrep & Hlen & Hpay).
  cbv zeta in *. rewrite Hc.
  destruct (Refresh.to_payload (Refresh.commands s2)) as [jsons|e].
  - destruct Hpay as ([H|H] & Hok & _).
    + split; [right; now rewrite H|]. exists new. rewrite Hrep, Hrep2.
      split; [reflexivity|]. split; [exact Hlen|]. intros _. now rewrite H.
    + split; [left; congruence|]. exists new. rewrite Hrep, Hrep2.
      split; [reflexivity|]. split; [exact Hlen|]. intros Hin.
      split; [exact Ha|]. now rewrite (Hok Hin).
  - destruct Hpay as [H Hno]. split; [left; congruence|].
    exists new. rewrite Hrep, Hrep2. split; [reflexivity|]. split; [exact Hlen|].
    intros Hin. contradiction.
Qed.

(** X23: an administrator's run that Discord lets through, the deferred
    reply and the registration accepted and every cached command giving its
    JSON, leaves with Discord the JSON of the reloaded commands, in the order
    of the cache; and when the reply is accepted too, it is the one that
    reports success. *)
Theorem refresh_registers_when_accepted s files jsons :
  Refresh.administrator s = Some true -> Refresh.directory s = Ret files ->
  refused (Refresh.answers s) 0 = false -> refused (Refresh.answers s) 1 = false ->
  Refresh.to_payload (Refresh.filled (Refresh.loadable s files) []) = Ret jsons ->
  Refresh.registered (snd (Refresh.execute s)) = jsons
  /\ (refused (Refresh.answers s) 2 = false ->
      Refresh.replies (snd (Refresh.execute s))
      = Refresh.replies s ++ [Refresh.Refreshed]).
Proof.
  intros Ha Hd Hr0 Hr1 Hjson.
  destruct (execute_reloads s files Ha Hr0 Hd) as (s2 & Hframe & Hcache & ->).
  destruct Hframe as (_ & _ & _ & _ & Hans & Hrep2).
  cbn [Refresh.answered Refresh.answers Refresh.replies] in Hans, Hrep2.
  destruct (execute_registers s2) as (_ & new & Hrep & _ & Hpay).
  cbv zeta in *. rewrite Hcache, Hjson in Hpay. destruct Hpay as (_ & _ & Hok).
  assert (Hshift : forall i, refused (Refresh.answers s2) i
                             = refused (Refresh.answers s) (Datatypes.S i)).
  { intros i. rewrite Hans. unfold refused. now destruct (Refresh.answers s). }
  destruct Hok as [Hreg Hnew]; [now rewrite Hshift|].
  split; [exact Hreg|]. intros Hr2. rewrite Hrep, Hrep2, Hnew; [reflexivity|].
  now rewrite Hshift.
Qed.

Lemma refresh_registers_when_accepted_witness :
  Refresh.registered
    (snd (Refresh.execute
            (Refresh.session_of (Some true) (Ret Refresh.example_directory) [])))
  = ["{name: ping}"].
Proof.
  apply (refresh_registers_when_accepted
           (Refresh.session_of (Some true) (Ret Refresh.example_directory) [])
           Refresh.example_directory ["{name: ping}"]); reflexivity.
Defined.
